(** * Confluo log store and versioned aggregate: a shallow embedding

    The development follows [core/include/logstore.h] (class
    [slog::log_store<MAX_KEYS, LOG_SIZE>]) and the aggregate header
    (classes [aggregate_node], [aggregate_list], [aggregate]).

    Machine integers are [Z] with the wrap-around written out, the byte log
    is a [list Z], the offset table, the delete table and the n-gram index
    are finite maps.  Operations are run one after the other (sequential
    executions of the lock-free code). *)

From Stdlib Require Import ZArith Lia.
From stdpp Require Import gmap list strings sorting.

Local Open Scope Z_scope.

(** ** Machine arithmetic *)

Definition u32 (x : Z) : Z := x mod 2 ^ 32.
Definition u64 (x : Z) : Z := x mod 2 ^ 64.

(** [static const uint64_t KEY_INCR = 1ULL << 32;] *)
Definition KEY_INCR : Z := Z.shiftl 1 32.
(** [static const uint64_t DEL_INCR = 1ULL;] *)
Definition DEL_INCR : Z := 1.

(** [current_tail >> 32], stored in a [uint32_t]. *)
Definition tail_key (tail : Z) : Z := u32 (Z.shiftr tail 32).
(** [current_tail & 0xFFFFFFFF]. *)
Definition tail_off (tail : Z) : Z := Z.land tail 0xFFFFFFFF.

(** [uint64_t increment_tail(uint32_t value_length)] *)
Definition increment_tail (value_length : Z) : Z :=
  Z.lor KEY_INCR (u32 value_length).

(** ** Results of a call *)

(** A read-only call either returns, or touches memory outside of an
    object ([Fault]); [Timeout] is the exhausted fuel of a modelled loop. *)
Inductive result (A : Type) : Type :=
| Done (a : A)
| Fault
| Timeout.
Arguments Done {A} a.
Arguments Fault {A}.
Arguments Timeout {A}.

Definition result_bind {A B : Type} (f : A → result B) (r : result A)
  : result B :=
  match r with
  | Done a => f a
  | Fault => Fault
  | Timeout => Timeout
  end.

#[global] Instance result_mbind : MBind result := @result_bind.

(** An access that must hit an object. *)
Definition access {A : Type} (o : option A) : result A :=
  match o with Some a => Done a | None => Fault end.

(** ** Buffers *)

(** [buf[p]], for a buffer of [length buf] bytes. *)
Definition rd (buf : list Z) (p : Z) : option Z :=
  if (0 <=? p) && (p <? Z.of_nat (length buf))
  then buf !! Z.to_nat p
  else None.

(** The [n] bytes at [buf + p]. *)
Definition bytes_at (buf : list Z) (p n : Z) : option (list Z) :=
  if (0 <=? p) && (p + n <=? Z.of_nat (length buf))
  then Some (take (Z.to_nat n) (drop (Z.to_nat p) buf))
  else None.

(** [memcpy(log + dst, src, n)], with [src] holding at least [n] bytes. *)
Definition memcpy (log : list Z) (dst : Z) (src : list Z) (n : Z)
  : option (list Z) :=
  if (0 <=? dst) && (dst + n <=? Z.of_nat (length log))
  then Some (take (Z.to_nat dst) log ++ take (Z.to_nat n) src
               ++ drop (Z.to_nat (dst + n)) log)
  else None.

(** [!strncmp(a + pa, b + pb, n)]: the comparison stops at the first
    difference, after a NUL in both, or after [n] characters. *)
Fixpoint strncmp_eq (a : list Z) (pa : Z) (b : list Z) (pb : Z) (n : nat)
  : option bool :=
  match n with
  | O => Some true
  | S n' =>
      match rd a pa, rd b pb with
      | Some ca, Some cb =>
          if ca =? cb
          then if ca =? 0 then Some true
               else strncmp_eq a (pa + 1) b (pb + 1) n'
          else Some false
      | _, _ => None
      end
  end.

(** [std::string::c_str()]: the characters followed by a NUL. *)
Definition c_str (s : list Z) : list Z := s ++ [0].

(** The bytes of a string literal. *)
Definition bytes_of (s : string) : list Z :=
  (λ c, Z.of_N (Ascii.N_of_ascii c)) <$> String.list_ascii_of_string s.

(** ** The tables of [kvmap.h] and the index of [ngram_idx.h] *)

Module Tables.

(** Modelled from the spec: [kvmap.h] ([value_offset_list],
    [deleted_offsets]) is not part of the sources.  The spec describes
    both as dense arrays indexed by internal key, written at index [i]
    before [i] is published.  A slot that was never written holds no
    value here. *)
Definition set (t : gmap Z Z) (i v : Z) : gmap Z Z := <[i := v]> t.

(** Modelled from the spec: [kvmap.h] is not part of the sources;
    [get(i)] reads slot [i] of the dense array.  Reading a slot that was
    never written is a [Fault]. *)
Definition get (t : gmap Z Z) (i : Z) : result Z := access (t !! i).

(** Modelled from the spec: [kvmap.h] is not part of the sources.  The
    Delete Table supports a conditional write "set 0 -> t": a CAS-like
    [update(i, token)] that succeeds only if the current marker is 0. *)
Definition update (t : gmap Z Z) (i tok : Z) : option (bool * gmap Z Z) :=
  match t !! i with
  | Some v => if v =? 0 then Some (true, <[i := tok]> t)
              else Some (false, t)
  | None => None
  end.

End Tables.

Module Ngram.

(** Modelled from the spec: [ngram_idx.h] is not part of the sources.
    The index maps each N-byte sequence to an append-only list of the
    byte offsets at which it was published. *)
Definition get_offsets (idx : gmap (list Z) (list Z)) (gram : list Z)
  : list Z := default [] (idx !! gram).

(** Modelled from the spec: [ngram_idx.h] is not part of the sources;
    [add_offset(ngram, off)] appends [off] to the posting list of the
    N bytes at [ngram]. *)
Definition add_offset (idx : gmap (list Z) (list Z)) (gram : list Z)
    (off : Z) : gmap (list Z) (list Z) :=
  <[gram := get_offsets idx gram ++ [off]]> idx.

End Ngram.

(** ** The store *)

Record log_store : Type := LogStore {
  data_log_ : list Z;                       (* char *data_log_ *)
  write_tail_ : Z;                          (* std::atomic<uint64_t> *)
  read_tail_ : Z;                           (* std::atomic<uint64_t> *)
  value_offsets_ : gmap Z Z;                (* value_offset_list * *)
  deleted_ : gmap Z Z;                      (* deleted_offsets * *)
  index_log_ : gmap (list Z) (list Z);      (* ngram_index * *)
}.

Definition set_write_tail (s : log_store) (t : Z) : log_store :=
  LogStore (data_log_ s) t (read_tail_ s) (value_offsets_ s) (deleted_ s)
           (index_log_ s).
Definition set_read_tail (s : log_store) (t : Z) : log_store :=
  LogStore (data_log_ s) (write_tail_ s) t (value_offsets_ s) (deleted_ s)
           (index_log_ s).
Definition set_data_log (s : log_store) (l : list Z) : log_store :=
  LogStore l (write_tail_ s) (read_tail_ s) (value_offsets_ s) (deleted_ s)
           (index_log_ s).
Definition set_value_offsets (s : log_store) (t : gmap Z Z) : log_store :=
  LogStore (data_log_ s) (write_tail_ s) (read_tail_ s) t (deleted_ s)
           (index_log_ s).
Definition set_deleted (s : log_store) (t : gmap Z Z) : log_store :=
  LogStore (data_log_ s) (write_tail_ s) (read_tail_ s) (value_offsets_ s) t
           (index_log_ s).
Definition set_index_log (s : log_store) (t : gmap (list Z) (list Z))
  : log_store :=
  LogStore (data_log_ s) (write_tail_ s) (read_tail_ s) (value_offsets_ s)
           (deleted_ s) t.

(** The constructor: [new char[LOG_SIZE]] leaves the content of the log
    indeterminate, so the initial bytes are an argument. *)
Definition log_store_new (junk : list Z) : log_store :=
  LogStore junk 0 0 ∅ ∅ ∅.

(** A mutating call returns ([Ret]), throws [-1] ([Throw]), or touches
    memory outside of an object ([Crashed]); each carries the store as the
    call left it.  [TimedOut] is the exhausted fuel of a modelled loop. *)
Inductive outcome (A : Type) : Type :=
| Ret (a : A) (s : log_store)
| Throw (s : log_store)
| Crashed (s : log_store)
| TimedOut (s : log_store).
Arguments Ret {A} a s.
Arguments Throw {A} s.
Arguments Crashed {A} s.
Arguments TimedOut {A} s.

Inductive loop_status : Type := Finished | Faulted | OutOfFuel.

Section LogStore.

(** Template arguments of [log_store] and the n-gram width of
    [ngram_idx.h] (all 32-bit). *)
Variables MAX_KEYS LOG_SIZE NGRAM_N : Z.

(** [return std::atomic_fetch_add(&write_tail_, tail_increment);] *)
Definition atomic_advance_write_tail (tail_increment : Z) (s : log_store)
  : Z * log_store :=
  (write_tail_ s, set_write_tail s (u64 (write_tail_ s + tail_increment))).

(** [while (!std::atomic_compare_exchange_weak(&read_tail_,
      &expected_append_tail, expected_append_tail + tail_increment));]
    A failed CAS loads the observed read tail into
    [expected_append_tail], and the next iteration computes the new
    value from it.  In a sequential execution the read tail does not
    move in between, so the second CAS succeeds. *)
Definition atomic_advance_read_tail (expected_append_tail tail_increment : Z)
    (s : log_store) : log_store :=
  if read_tail_ s =? expected_append_tail
  then set_read_tail s (u64 (expected_append_tail + tail_increment))
  else
    let expected_append_tail := read_tail_ s in
    set_read_tail s (u64 (expected_append_tail + tail_increment)).

(** The publication loop of [internal_append]:
    [for (uint32_t i = value_offset; i <= value_end - NGRAM_N; i++)
       index_log_->add_offset(data_log_ + i, i);]
    with [bound] the value of [value_end - NGRAM_N].  The loop returns the
    index as it stands when it ends or faults.  Each iteration reads
    [NGRAM_N] bytes at [log + i], so the loop faults before [i] passes the
    end of the log: the fuel [length log + 2] that [internal_append] gives
    it is never used up. *)
Fixpoint publish_ngrams (fuel : nat) (log : list Z)
    (idx : gmap (list Z) (list Z)) (i bound : Z)
  : gmap (list Z) (list Z) * loop_status :=
  match fuel with
  | O => (idx, OutOfFuel)
  | S fuel' =>
      if i <=? bound then
        match bytes_at log i NGRAM_N with
        | Some gram =>
            publish_ngrams fuel' log (Ngram.add_offset idx gram i)
                           (u32 (i + 1)) bound
        | None => (idx, Faulted)
        end
      else (idx, Finished)
  end.

(** [uint64_t internal_append(const std::string& value)] *)
Definition internal_append (value : list Z) (s : log_store) : outcome Z :=
  let tail_increment := increment_tail (Z.of_nat (length value)) in
  let '(current_tail, s) := atomic_advance_write_tail tail_increment s in
  let internal_key := tail_key current_tail in
  let value_offset := tail_off current_tail in
  let value_length := u32 (Z.of_nat (length value)) in
  if (MAX_KEYS <=? internal_key)
     || (LOG_SIZE <=? u32 (value_offset + value_length))
  then Throw s
  else
    let s := set_value_offsets s
               (Tables.set (value_offsets_ s) internal_key value_offset) in
    let s := set_deleted s (Tables.set (deleted_ s) internal_key 0) in
    match memcpy (data_log_ s) value_offset (c_str value) value_length with
    | None => Crashed s
    | Some log =>
        let s := set_data_log s log in
        let value_end := u32 (value_offset + value_length) in
        match publish_ngrams (length log + 2) log (index_log_ s)
                value_offset (u32 (value_end - NGRAM_N)) with
        | (idx, Finished) => Ret current_tail (set_index_log s idx)
        | (idx, Faulted) => Crashed (set_index_log s idx)
        | (idx, OutOfFuel) => TimedOut (set_index_log s idx)
        end
    end.

(** [int append(const int64_t key, const std::string& value)] *)
Definition append (key : Z) (value : list Z) (s : log_store) : outcome Z :=
  match internal_append value s with
  | Ret current_tail s =>
      let tail_increment := increment_tail (Z.of_nat (length value)) in
      Ret 0 (atomic_advance_read_tail current_tail tail_increment s)
  | Throw s => Throw s
  | Crashed s => Crashed s
  | TimedOut s => TimedOut s
  end.

(** The copy loop of [get]:
    [for (; i < end - start && data_ptr[i] != 0; i++) value[i] = data_ptr[i];]
    run for at most [n = end - start] characters from [log + p]. *)
Fixpoint copy_value (log : list Z) (p : Z) (n : nat) : option (list Z) :=
  match n with
  | O => Some []
  | S n' =>
      match rd log p with
      | Some c =>
          if c =? 0 then Some []
          else cons c <$> copy_value log (p + 1) n'
      | None => None
      end
  end.

(** [const int get(char* value, const uint32_t internal_key)]: [Some v] is
    the return value 0 with [v] copied out, [None] the return value -1. *)
Definition get (internal_key : Z) (s : log_store)
  : result (option (list Z)) :=
  let current_tail := read_tail_ s in
  let max_key := tail_key current_tail in
  if max_key <=? internal_key then Done None
  else
    delete_tail ← Tables.get (deleted_ s) internal_key;
    let read_tail := tail_off current_tail in
    if negb (delete_tail =? 0) && (delete_tail <=? read_tail) then Done None
    else
      start ← Tables.get (value_offsets_ s) internal_key;
      end_ ← (if u32 (internal_key + 1) <? max_key
              then Tables.get (value_offsets_ s) (u32 (internal_key + 1))
              else Done (tail_off current_tail));
      v ← access (copy_value (data_log_ s) start
                             (Z.to_nat (u32 (end_ - start))));
      Done (Some v).

(** The binary search of [find_and_insert_key]:
    [while (lo < hi) { mid = lo + (hi - lo) / 2; v = value_offsets_->get(mid);
       if (v <= offset) lo = mid + 1; else hi = mid; }] *)
Fixpoint bsearch (fuel : nat) (offsets : gmap Z Z) (offset lo hi : Z)
  : result Z :=
  match fuel with
  | O => Timeout
  | S fuel' =>
      if lo <? hi then
        let mid := u32 (lo + u32 (hi - lo) / 2) in
        v ← Tables.get offsets mid;
        if v <=? offset then bsearch fuel' offsets offset (u32 (mid + 1)) hi
        else bsearch fuel' offsets offset lo mid
      else Done lo
  end.

(** [const void find_and_insert_key(std::set<int64_t>& keys,
      const uint32_t offset, const uint32_t max_key, const uint32_t max_off)]
    The width [hi - lo] is below [2^32] and halves in each iteration, so 33
    iterations are enough. *)
Definition find_and_insert_key (keys : gset Z) (offset max_key max_off : Z)
    (s : log_store) : result (gset Z) :=
  lo ← bsearch 33 (value_offsets_ s) offset 0 max_key;
  let internal_key := u32 (lo - 1) in
  delete_tail ← Tables.get (deleted_ s) internal_key;
  if negb (delete_tail =? 0) && (delete_tail <=? max_off) then Done keys
  else Done ({[internal_key]} ∪ keys).

(** The scan loops of [search]:
    [for (uint32_t i = 0; i < size; i++) { uint32_t off = offsets->at(i);
       if (off < max_off && !strncmp(data_ptr + off, rest, rest_len))
         find_and_insert_key(results, off, max_key, max_off); }]
    with [matches off] the outcome of [!strncmp(data_ptr + off, ...)]. *)
Fixpoint scan_offsets (matches : Z → option bool) (max_key max_off : Z)
    (s : log_store) (offsets : list Z) (results : gset Z)
  : result (gset Z) :=
  match offsets with
  | [] => Done results
  | off :: offsets' =>
      if off <? max_off then
        hit ← access (matches off);
        if hit : bool then
          results ← find_and_insert_key results off max_key max_off s;
          scan_offsets matches max_key max_off s offsets' results
        else scan_offsets matches max_key max_off s offsets' results
      else scan_offsets matches max_key max_off s offsets' results
  end.

(** [const void search(std::set<int64_t>& results, const std::string& query)] *)
Definition search (results : gset Z) (query : list Z) (s : log_store)
  : result (gset Z) :=
  let current_tail := read_tail_ s in
  let max_key := tail_key current_tail in
  let max_off := tail_off current_tail in
  let substr := c_str query in
  let query_length := Z.of_nat (length query) in
  prefix_gram ← access (bytes_at substr 0 NGRAM_N);
  let prefix_offsets := Ngram.get_offsets (index_log_ s) prefix_gram in
  suffix_gram ← access (bytes_at substr (query_length - NGRAM_N) NGRAM_N);
  let suffix_offsets := Ngram.get_offsets (index_log_ s) suffix_gram in
  if (length prefix_offsets <? length suffix_offsets)%nat then
    let suffix_len := u64 (query_length - NGRAM_N) in
    scan_offsets
      (λ off, strncmp_eq (data_log_ s) (NGRAM_N + off) substr NGRAM_N
                         (Z.to_nat suffix_len))
      max_key max_off s prefix_offsets results
  else
    let prefix_len := u64 (query_length - NGRAM_N) in
    scan_offsets
      (λ off, strncmp_eq (data_log_ s) (off - prefix_len) substr 0
                         (Z.to_nat prefix_len))
      max_key max_off s suffix_offsets results.

(** [bool invalidate_key(const uint32_t internal_key, const uint32_t offset)] *)
Definition invalidate_key (internal_key offset : Z) (s : log_store)
  : option (bool * log_store) :=
  '(won, t) ← Tables.update (deleted_ s) internal_key offset;
  Some (won, set_deleted s t).

(** [bool delete_record(const uint32_t internal_key)] *)
Definition delete_record (internal_key : Z) (s : log_store) : outcome bool :=
  let '(current_tail, s) := atomic_advance_write_tail DEL_INCR s in
  let value_offset := tail_off current_tail in
  if LOG_SIZE <=? u32 (value_offset + 1) then Throw s
  else if Z.shiftr current_tail 32 <=? internal_key then Ret false s
  else
    match invalidate_key internal_key (u32 (value_offset + 1)) s with
    | Some (true, s) =>
        Ret true (atomic_advance_read_tail current_tail DEL_INCR s)
    | Some (false, s) => Ret false s
    | None => Crashed s
    end.

(** [uint32_t update_record(const uint32_t internal_key,
                            const std::string& value)]
    The token is written [current_tail & 0xFFFFFFFF + 1]: [+] binds
    tighter than [&], and [0xFFFFFFFF + 1] is computed in [unsigned int].
    The argument is then converted to [uint32_t]. *)
Definition update_record (internal_key : Z) (value : list Z) (s : log_store)
  : outcome Z :=
  match internal_append value s with
  | Ret current_tail s =>
      let tail_increment := increment_tail (Z.of_nat (length value)) in
      match invalidate_key internal_key
              (u32 (Z.land current_tail (u32 (0xFFFFFFFF + 1)))) s with
      | Some (_, s) =>
          Ret (tail_key current_tail)
              (atomic_advance_read_tail current_tail tail_increment s)
      | None => Crashed s
      end
  | Throw s => Throw s
  | Crashed s => Crashed s
  | TimedOut s => TimedOut s
  end.

(** [const uint32_t get_num_keys()] *)
Definition get_num_keys (s : log_store) : Z := tail_key (read_tail_ s).

(** [const uint32_t get_size()] *)
Definition get_size (s : log_store) : Z := tail_off (read_tail_ s).

(** [const uint64_t get_gap()] *)
Definition get_gap (s : log_store) : Z := u64 (write_tail_ s - read_tail_ s).

End LogStore.

(** ** Runs of the store *)

Section Runs.

Variables MAX_KEYS LOG_SIZE NGRAM_N : Z.

(** The calls that change the store. *)
Inductive call : Type :=
| CallAppend (key : Z) (value : list Z)
| CallDelete (internal_key : Z)
| CallUpdate (internal_key : Z) (value : list Z).

(** The store a call leaves when it returns. *)
Definition returned {A : Type} (o : outcome A) : option log_store :=
  match o with Ret _ s => Some s | _ => None end.

Definition run_call (c : call) (s : log_store) : option log_store :=
  match c with
  | CallAppend key value =>
      returned (append MAX_KEYS LOG_SIZE NGRAM_N key value s)
  | CallDelete internal_key => returned (delete_record LOG_SIZE internal_key s)
  | CallUpdate internal_key value =>
      returned (update_record MAX_KEYS LOG_SIZE NGRAM_N internal_key value s)
  end.

(** A run is a sequence of calls each of which returns; a [throw -1] (the
    store is full) or a fault ends it. *)
Fixpoint run (cs : list call) (s : log_store) : option log_store :=
  match cs with
  | [] => Some s
  | c :: cs' =>
      match run_call c s with
      | Some s' => run cs' s'
      | None => None
      end
  end.

(** The states of the store: those a run reaches from a new store, whose
    log has [LOG_SIZE] bytes of any content. *)
Definition reachable (s : log_store) : Prop :=
  ∃ junk cs, Z.of_nat (length junk) = LOG_SIZE
             ∧ run cs (log_store_new junk) = Some s.

(** Appending the values [vs] one after the other. *)
Definition appends (vs : list (list Z)) : list call := CallAppend 0 <$> vs.

(** The shape of a reachable store: both tails hold the key counter [k],
    the write tail holds the byte offset [o] and the read tail [o'];
    the keys below [k] have their offsets, in order, and their delete
    markers. *)
Record packed (s : log_store) (k o o' : Z) : Prop := Packed {
  packed_write : write_tail_ s = k * 2 ^ 32 + o;
  packed_read : read_tail_ s = k * 2 ^ 32 + o';
  packed_key : 0 ≤ k ≤ MAX_KEYS;
  packed_off : 0 ≤ o' ≤ o;
  packed_room : o < LOG_SIZE ∨ o = 0;
  packed_log : Z.of_nat (length (data_log_ s)) = LOG_SIZE;
  packed_offsets :
    ∀ i, 0 ≤ i < k → ∃ a, value_offsets_ s !! i = Some a ∧ 0 ≤ a ≤ o;
  packed_sorted :
    ∀ i j a b, 0 ≤ i ≤ j → j < k →
      value_offsets_ s !! i = Some a → value_offsets_ s !! j = Some b →
      a ≤ b;
  packed_deleted : ∀ i, 0 ≤ i < k → is_Some (deleted_ s !! i);
}.

(** The store after the values [vs] were appended to a new store: the
    log starts with their concatenation, and key [i] has the offset at
    which the [i]-th value starts and the delete marker 0. *)
Record appended (vs : list (list Z)) (s : log_store) : Prop := Appended {
  appended_packed :
    packed s (Z.of_nat (length vs)) (Z.of_nat (length (concat vs)))
           (Z.of_nat (length (concat vs)));
  appended_log : take (length (concat vs)) (data_log_ s) = concat vs;
  appended_offsets :
    ∀ i, (i < length vs)%nat →
      value_offsets_ s !! Z.of_nat i
      = Some (Z.of_nat (length (concat (take i vs))));
  appended_deleted :
    ∀ i, (i < length vs)%nat → deleted_ s !! Z.of_nat i = Some 0;
}.

End Runs.

(** ** Versioned aggregate *)

Module Aggregate.

Section Aggregate.

(** The type [numeric] of [types/numeric.h]. *)
Variable numeric : Type.

(** Modelled from the spec: [aggregate_ops.h] (struct [aggregator]) is not
    part of the sources.  An aggregator has a [zero], a binary [seq_op]
    (apply one new sample to a running aggregate) and a binary [comb_op]
    (combine two partial aggregates). *)
Record aggregator : Type := Aggregator {
  zero : numeric;
  seq_op : numeric → numeric → numeric;
  comb_op : numeric → numeric → numeric;
}.

(** [struct aggregate_node]; the [next_] pointer is the rest of the list
    the node heads. *)
Record aggregate_node : Type := AggregateNode {
  value_ : numeric;
  version_ : Z;
}.

(** The [while (node != nullptr)] loop of [get_node], with the locals
    [ret] and [max_version]. *)
Fixpoint get_node_loop (node : list aggregate_node) (version : Z)
    (ret : option aggregate_node) (max_version : Z)
  : option aggregate_node :=
  match node with
  | [] => ret
  | n :: next =>
      if version_ n =? version then Some n
      else if (version_ n <? version) && (max_version <? version_ n)
           then get_node_loop next version (Some n) (version_ n)
           else get_node_loop next version ret max_version
  end.

(** [aggregate_node* get_node(aggregate_node *head, uint64_t version)] *)
Definition get_node (head : list aggregate_node) (version : Z)
  : option aggregate_node :=
  match head with
  | [] => None
  | _ => get_node_loop head version None 0
  end.

(** [class aggregate_list]: the chain at [head_] and the aggregator. *)
Record aggregate_list : Type := AggregateList {
  head_ : list aggregate_node;
  agg_ : aggregator;
}.

(** [numeric aggregate_list::get(uint64_t version) const] *)
Definition list_get (l : aggregate_list) (version : Z) : numeric :=
  match get_node (head_ l) version with
  | Some req => value_ req
  | None => zero (agg_ l)
  end.

(** [void aggregate_list::comb_update(const numeric& value, uint64_t version)] *)
Definition list_comb_update (l : aggregate_list) (value : numeric)
    (version : Z) : aggregate_list :=
  let cur_head := head_ l in
  let old_agg := match get_node cur_head version with
                 | None => zero (agg_ l)
                 | Some req => value_ req
                 end in
  AggregateList
    (AggregateNode (comb_op (agg_ l) old_agg value) version :: cur_head)
    (agg_ l).

(** [void aggregate_list::seq_update(const numeric& value, uint64_t version)] *)
Definition list_seq_update (l : aggregate_list) (value : numeric)
    (version : Z) : aggregate_list :=
  let cur_head := head_ l in
  let old_agg := match get_node cur_head version with
                 | None => zero (agg_ l)
                 | Some req => value_ req
                 end in
  AggregateList
    (AggregateNode (seq_op (agg_ l) old_agg value) version :: cur_head)
    (agg_ l).

(** [class aggregate]: [aggs_] holds one list per thread. *)
Record aggregate : Type := Aggregate {
  aggregate_agg_ : aggregator;
  aggs_ : list aggregate_list;
}.

(** [aggregate(const data_type& type, const aggregator& agg)], with
    [max_concurrency] the value of [thread_manager::get_max_concurrency()]. *)
Definition aggregate_new (max_concurrency : nat) (agg : aggregator)
  : aggregate :=
  Aggregate agg (replicate max_concurrency (AggregateList [] agg)).

(** [void seq_update(int thread_id, const numeric& value, uint64_t version)];
    [None] when [thread_id] is not an index of [aggs_]. *)
Definition seq_update (a : aggregate) (thread_id : nat) (value : numeric)
    (version : Z) : option aggregate :=
  l ← aggs_ a !! thread_id;
  Some (Aggregate (aggregate_agg_ a)
          (<[thread_id := list_seq_update l value version]> (aggs_ a))).

(** [void comb_update(int thread_id, const numeric& value, uint64_t version)] *)
Definition comb_update (a : aggregate) (thread_id : nat) (value : numeric)
    (version : Z) : option aggregate :=
  l ← aggs_ a !! thread_id;
  Some (Aggregate (aggregate_agg_ a)
          (<[thread_id := list_comb_update l value version]> (aggs_ a))).

(** [numeric get(uint64_t version) const] *)
Definition get (a : aggregate) (version : Z) : numeric :=
  fold_left (λ val l, comb_op (aggregate_agg_ a) val (list_get l version))
            (aggs_ a) (zero (aggregate_agg_ a)).

End Aggregate.

Arguments Aggregator {numeric} _ _ _.
Arguments AggregateNode {numeric} _ _.
Arguments AggregateList {numeric} _ _.
Arguments zero {numeric} _.
Arguments seq_op {numeric} _ _ _.
Arguments comb_op {numeric} _ _ _.
Arguments value_ {numeric} _.
Arguments version_ {numeric} _.
Arguments head_ {numeric} _.
Arguments agg_ {numeric} _.
Arguments aggs_ {numeric} _.
Arguments aggregate_agg_ {numeric} _.
Arguments get_node_loop {numeric} _ _ _ _.
Arguments get_node {numeric} _ _.
Arguments list_get {numeric} _ _.
Arguments list_seq_update {numeric} _ _ _.
Arguments list_comb_update {numeric} _ _ _.
Arguments aggregate_new {numeric} _ _.
Arguments seq_update {numeric} _ _ _ _.
Arguments comb_update {numeric} _ _ _ _.
Arguments get {numeric} _ _.

(** The sum aggregator over [Z]. *)
Definition sum_aggregator : aggregator Z := Aggregator 0 Z.add Z.add.

End Aggregate.

(** ** Scenarios *)

(** The default bound on the number of keys. *)
Definition default_max_keys : Z := 134217728.

(** A new store whose log holds [n] zero bytes. *)
Definition zeroed (n : nat) : log_store := log_store_new (replicate n 0).

(** The store as a call leaves it. *)
Definition after {A : Type} (o : outcome A) : log_store :=
  match o with Ret _ s | Throw s | Crashed s | TimedOut s => s end.

(** The store of scenario 2: ["banana"] and ["bandana"] appended to a
    64-byte log, with [NGRAM_N = 3]. *)
Definition scenario2 : log_store :=
  after (append default_max_keys 64 3 0 (bytes_of "bandana")
           (after (append default_max_keys 64 3 0 (bytes_of "banana")
                     (zeroed 64)))).

(** Scenario 4: [update_record(1, "orange")] on the store of scenario 2. *)
Definition scenario4 : log_store :=
  after (update_record default_max_keys 64 3 1 (bytes_of "orange") scenario2).

(** Scenario 3, continued: [delete_record(0)] twice on the store of
    scenario 2, then [append("orange")]. *)
Definition deleted_once : log_store :=
  after (delete_record 64 0 scenario2).
Definition deleted_twice : log_store :=
  after (delete_record 64 0 deleted_once).
Definition deleted_then_appended : log_store :=
  after (append default_max_keys 64 3 0 (bytes_of "orange") deleted_twice).

(** Scenario 5: the appends of ["abcdefghij"], ["klmnop"] and ["q"] to a
    log of [log_size] bytes. *)
Definition boundary1 (log_size : nat) : log_store :=
  after (append default_max_keys (Z.of_nat log_size) 3 0
           (bytes_of "abcdefghij") (zeroed log_size)).
Definition boundary2 (log_size : nat) : log_store :=
  after (append default_max_keys (Z.of_nat log_size) 3 0
           (bytes_of "klmnop") (boundary1 log_size)).
Definition boundary3 (log_size : nat) : log_store :=
  after (append default_max_keys (Z.of_nat log_size) 3 0
           (bytes_of "q") (boundary2 log_size)).

(** ["abcxab"] appended to a 64-byte log. *)
Definition abcxab_store : log_store :=
  after (append default_max_keys 64 3 0 (bytes_of "abcxab") (zeroed 64)).

(** ["ab"] as the first value of a 16-byte log. *)
Definition short_first_store : log_store :=
  after (internal_append default_max_keys 16 3 (bytes_of "ab") (zeroed 16)).

(** A value with a zero byte in the middle, in a 16-byte log. *)
Definition zero_byte_store : log_store :=
  after (append default_max_keys 16 3 0 [97; 0; 98] (zeroed 16)).

(** Scenario 6 with a node of version 0: the sum aggregator over two
    chains, after [seq_update(0, 10, 0)], and then [seq_update(0, 5, 1)]. *)
Definition version0_aggregate : Aggregate.aggregate Z :=
  default (Aggregate.aggregate_new 2 Aggregate.sum_aggregator)
    (Aggregate.seq_update
       (Aggregate.aggregate_new 2 Aggregate.sum_aggregator) 0 10 0).
Definition version01_aggregate : Aggregate.aggregate Z :=
  default version0_aggregate (Aggregate.seq_update version0_aggregate 0 5 1).

(** ** Column search *)

Section ColSearch.

Variable NGRAM_N : Z.

(** [const void find_and_insert_key(std::vector<int64_t>& keys,
      const uint32_t offset, const uint32_t max_key, const uint32_t max_off)]:
    the overload of [col_search], which ends in [keys.push_back]. *)
Definition find_and_insert_key_vector (keys : list Z)
    (offset max_key max_off : Z) (s : log_store) : result (list Z) :=
  lo ← bsearch 33 (value_offsets_ s) offset 0 max_key;
  let internal_key := u32 (lo - 1) in
  delete_tail ← Tables.get (deleted_ s) internal_key;
  if negb (delete_tail =? 0) && (delete_tail <=? max_off) then Done keys
  else Done (keys ++ [internal_key]).

(** The scan loops of [col_search], as those of [search].  The loop
    counter and [size] are [uint32_t]; the scan runs over the whole list,
    which has fewer than [2^32] entries in every reachable store. *)
Fixpoint scan_offsets_vector (matches : Z → option bool) (max_key max_off : Z)
    (s : log_store) (offsets : list Z) (results : list Z)
  : result (list Z) :=
  match offsets with
  | [] => Done results
  | off :: offsets' =>
      if off <? max_off then
        hit ← access (matches off);
        if hit : bool then
          results ← find_and_insert_key_vector results off max_key max_off s;
          scan_offsets_vector matches max_key max_off s offsets' results
        else scan_offsets_vector matches max_key max_off s offsets' results
      else scan_offsets_vector matches max_key max_off s offsets' results
  end.

(** [const void col_search(std::vector<int64_t>& results,
                           const std::string& col_value)]
    Unlike [search], it compares the two sizes as [uint32_t]. *)
Definition col_search (results : list Z) (col_value : list Z) (s : log_store)
  : result (list Z) :=
  let current_tail := read_tail_ s in
  let max_key := tail_key current_tail in
  let max_off := tail_off current_tail in
  let substr := c_str col_value in
  let col_value_length := Z.of_nat (length col_value) in
  prefix_gram ← access (bytes_at substr 0 NGRAM_N);
  let prefix_offsets := Ngram.get_offsets (index_log_ s) prefix_gram in
  suffix_gram ← access (bytes_at substr (col_value_length - NGRAM_N) NGRAM_N);
  let suffix_offsets := Ngram.get_offsets (index_log_ s) suffix_gram in
  let prefix_size := u32 (Z.of_nat (length prefix_offsets)) in
  let suffix_size := u32 (Z.of_nat (length suffix_offsets)) in
  if prefix_size <? suffix_size then
    let suffix_len := u64 (col_value_length - NGRAM_N) in
    scan_offsets_vector
      (λ off, strncmp_eq (data_log_ s) (NGRAM_N + off) substr NGRAM_N
                         (Z.to_nat suffix_len))
      max_key max_off s prefix_offsets results
  else
    let prefix_len := u64 (col_value_length - NGRAM_N) in
    scan_offsets_vector
      (λ off, strncmp_eq (data_log_ s) (off - prefix_len) substr 0
                         (Z.to_nat prefix_len))
      max_key max_off s suffix_offsets results.

End ColSearch.

(** ** Runs of aggregate updates *)

Section AggregateRuns.

Variable numeric : Type.

(** A call of [aggregate::seq_update] or of [aggregate::comb_update]. *)
Inductive update : Type :=
  | SeqUpdate (thread_id : nat) (value : numeric) (version : Z)
  | CombUpdate (thread_id : nat) (value : numeric) (version : Z).

Definition update_thread (u : update) : nat :=
  match u with SeqUpdate t _ _ | CombUpdate t _ _ => t end.

Definition update_version (u : update) : Z :=
  match u with SeqUpdate _ _ v | CombUpdate _ _ v => v end.

(** One call on the aggregate; [None] when the thread id is no index of
    [aggs_]. *)
Definition run_update (a : Aggregate.aggregate numeric) (u : update)
  : option (Aggregate.aggregate numeric) :=
  match u with
  | SeqUpdate t x v => Aggregate.seq_update a t x v
  | CombUpdate t x v => Aggregate.comb_update a t x v
  end.

(** What a call does to the chain of its thread. *)
Definition list_update (l : Aggregate.aggregate_list numeric) (u : update)
  : Aggregate.aggregate_list numeric :=
  match u with
  | SeqUpdate _ x v => Aggregate.list_seq_update l x v
  | CombUpdate _ x v => Aggregate.list_comb_update l x v
  end.

(** The calls of a list, in order. *)
Fixpoint run_updates (us : list update) (a : Aggregate.aggregate numeric)
  : option (Aggregate.aggregate numeric) :=
  match us with
  | [] => Some a
  | u :: us => a' ← run_update a u; run_updates us a'
  end.

(** The operator a call applies to the running aggregate of its chain. *)
Definition apply_update (agg : Aggregate.aggregator numeric) (acc : numeric)
    (u : update) : numeric :=
  match u with
  | SeqUpdate _ x _ => Aggregate.seq_op agg acc x
  | CombUpdate _ x _ => Aggregate.comb_op agg acc x
  end.

(** The running aggregate of the calls of thread [thread_id] whose version
    is at most [version]. *)
Definition thread_aggregate (agg : Aggregate.aggregator numeric)
    (us : list update) (thread_id : nat) (version : Z) : numeric :=
  fold_left (apply_update agg)
    (filter (λ u, update_thread u = thread_id ∧ update_version u ≤ version)
            us)
    (Aggregate.zero agg).

End AggregateRuns.

Arguments SeqUpdate {numeric} _ _ _.
Arguments CombUpdate {numeric} _ _ _.
Arguments update_thread {numeric} _.
Arguments update_version {numeric} _.
Arguments run_update {numeric} _ _.
Arguments list_update {numeric} _ _.
Arguments run_updates {numeric} _ _.
Arguments apply_update {numeric} _ _ _.
Arguments thread_aggregate {numeric} _ _ _ _.

(** ** Further scenarios *)

(** [append("orange")] after one [delete_record(0)] on the store of
    scenario 2. *)
Definition deleted_once_appended : log_store :=
  after (append default_max_keys 64 3 0 (bytes_of "orange") deleted_once).

(** Four calls on the sum aggregator over two chains. *)
Definition example_updates : list (update Z) :=
  [SeqUpdate 0 10 1; SeqUpdate 1 7 1; SeqUpdate 0 5 2; CombUpdate 1 4 3].
Definition example_aggregate : Aggregate.aggregate Z :=
  default (Aggregate.aggregate_new 2 Aggregate.sum_aggregator)
    (run_updates example_updates
       (Aggregate.aggregate_new 2 Aggregate.sum_aggregator)).

(** [delete_record(1)] after that. *)
Definition deleted_both : log_store :=
  after (delete_record 64 1 deleted_once_appended).

(** * Properties *)

(** ** Tail arithmetic *)

Lemma two32 : 2 ^ 32 = 4294967296. Proof. reflexivity. Qed.
Lemma two64 : 2 ^ 64 = 4294967296 * 4294967296. Proof. reflexivity. Qed.

Lemma shiftr_pack (k o : Z) :
  0 ≤ o < 2 ^ 32 → Z.shiftr (k * 2 ^ 32 + o) 32 = k.
Proof.
  intros Ho. rewrite Z.shiftr_div_pow2 by lia.
  rewrite Z.div_add_l by lia. rewrite Z.div_small by lia. lia.
Qed.

Lemma tail_key_pack (k o : Z) :
  0 ≤ k < 2 ^ 32 → 0 ≤ o < 2 ^ 32 → tail_key (k * 2 ^ 32 + o) = k.
Proof.
  intros Hk Ho. unfold tail_key, u32. rewrite shiftr_pack by done.
  apply Z.mod_small. done.
Qed.

Lemma tail_off_pack (k o : Z) :
  0 ≤ o < 2 ^ 32 → tail_off (k * 2 ^ 32 + o) = o.
Proof.
  intros Ho. unfold tail_off. change 0xFFFFFFFF with (Z.ones 32).
  rewrite Z.land_ones by lia.
  rewrite Z.add_comm, Z.mod_add by lia. apply Z.mod_small. done.
Qed.

Lemma u32_small (x : Z) : 0 ≤ x < 2 ^ 32 → u32 x = x.
Proof. apply Z.mod_small. Qed.

Lemma u32_range (x : Z) : 0 ≤ u32 x < 2 ^ 32.
Proof. apply Z.mod_pos_bound. lia. Qed.

Lemma u64_pack (k o : Z) :
  0 ≤ k < 2 ^ 32 → 0 ≤ o < 2 ^ 32 → u64 (k * 2 ^ 32 + o) = k * 2 ^ 32 + o.
Proof.
  intros Hk Ho. apply Z.mod_small. rewrite two32 in *. rewrite two64. nia.
Qed.

Lemma increment_tail_eq (n : Z) : increment_tail n = 2 ^ 32 + u32 n.
Proof.
  unfold increment_tail, KEY_INCR. change (Z.shiftl 1 32) with (2 ^ 32).
  symmetry. apply Z.add_nocarry_lor.
  apply Z.bits_inj'. intros i Hi. rewrite Z.land_spec, Z.bits_0.
  destruct (Z.eq_dec i 32) as [->|Hne].
  - unfold u32. rewrite Z.mod_pow2_bits_high by lia. apply andb_false_r.
  - rewrite Z.pow2_bits_false by lia. done.
Qed.

Lemma u32_le (x : Z) : 0 ≤ x → u32 x ≤ x.
Proof. intros. unfold u32. apply Z.mod_le; lia. Qed.

(** ** Buffers *)

Lemma memcpy_length (log : list Z) (dst : Z) (src : list Z) (n : Z)
    (log' : list Z) :
  0 ≤ n ≤ Z.of_nat (length src) →
  memcpy log dst src n = Some log' → length log' = length log.
Proof.
  intros Hn. unfold memcpy.
  destruct (0 <=? dst) eqn:Hd; [|done].
  destruct (dst + n <=? Z.of_nat (length log)) eqn:Hb; [|done].
  apply Z.leb_le in Hd, Hb. simpl. intros [= <-].
  rewrite !length_app, !length_take, length_drop. lia.
Qed.

Lemma memcpy_Some (log : list Z) (dst : Z) (src : list Z) (n : Z)
    (log' : list Z) :
  memcpy log dst src n = Some log' →
  0 ≤ dst ∧ dst + n ≤ Z.of_nat (length log)
  ∧ log' = take (Z.to_nat dst) log ++ take (Z.to_nat n) src
             ++ drop (Z.to_nat (dst + n)) log.
Proof.
  unfold memcpy.
  destruct (0 <=? dst) eqn:Hd; [|done].
  destruct (dst + n <=? Z.of_nat (length log)) eqn:Hb; [|done].
  apply Z.leb_le in Hd, Hb. simpl. intros [= <-]. done.
Qed.

(** ** The shape of reachable stores *)

Section Invariant.

Variables MAX_KEYS LOG_SIZE NGRAM_N : Z.
Hypothesis MAX_KEYS_u32 : 0 ≤ MAX_KEYS < 2 ^ 32.
Hypothesis LOG_SIZE_u32 : 0 ≤ LOG_SIZE < 2 ^ 32.

(** In a sequential execution the CAS loop adds the increment to the read
    tail, whatever tail the caller expected. *)
Lemma atomic_advance_read_tail_eq (expected inc : Z) (s : log_store) :
  atomic_advance_read_tail expected inc s
  = set_read_tail s (u64 (read_tail_ s + inc)).
Proof.
  unfold atomic_advance_read_tail.
  destruct (Z.eqb_spec (read_tail_ s) expected) as [->|]; done.
Qed.

(** What a returning [internal_append] did. *)
Lemma internal_append_Ret (value : list Z) (s : log_store) (t : Z)
    (s' : log_store) :
  internal_append MAX_KEYS LOG_SIZE NGRAM_N value s = Ret t s' →
  t = write_tail_ s
  ∧ tail_key t < MAX_KEYS
  ∧ u32 (tail_off t + u32 (Z.of_nat (length value))) < LOG_SIZE
  ∧ ∃ log idx,
      memcpy (data_log_ s) (tail_off t) (c_str value)
             (u32 (Z.of_nat (length value))) = Some log
      ∧ s' = LogStore log
               (u64 (write_tail_ s + increment_tail (Z.of_nat (length value))))
               (read_tail_ s)
               (<[tail_key t := tail_off t]> (value_offsets_ s))
               (<[tail_key t := 0]> (deleted_ s)) idx.
Proof.
  unfold internal_append, atomic_advance_write_tail. cbn [fst snd].
  destruct (MAX_KEYS <=? tail_key (write_tail_ s)) eqn:Hk; [done|].
  destruct (LOG_SIZE <=? _) eqn:Hl; [done|]. cbn [orb].
  apply Z.leb_gt in Hk, Hl. cbn in Hl |- *.
  destruct (memcpy _ _ _ _) as [log|] eqn:Hm; [|done].
  destruct (publish_ngrams _ _ _ _ _ _) as [idx []] eqn:Hp; try done.
  intros [= <- <-]. repeat split; try done.
  exists log, idx. split; [exact Hm|]. reflexivity.
Qed.

Lemma packed_off_u32 (s : log_store) (k o o' : Z) :
  packed MAX_KEYS LOG_SIZE s k o o' → 0 ≤ o < 2 ^ 32 ∧ 0 ≤ o' < 2 ^ 32.
Proof. intros [? ? ? ? ? ? ? ? ?]. lia. Qed.

Lemma packed_key_u32 (s : log_store) (k o o' : Z) :
  packed MAX_KEYS LOG_SIZE s k o o' → 0 ≤ k < 2 ^ 32.
Proof. intros [? ? ? ? ? ? ? ? ?]. lia. Qed.

(** On a store of shape [packed], a returning [internal_append] claimed
    the key [k] and the offset [o], and left the read tail alone. *)
Lemma internal_append_packed (value : list Z) (s : log_store) (t : Z)
    (s' : log_store) (k o o' : Z) :
  packed MAX_KEYS LOG_SIZE s k o o' →
  internal_append MAX_KEYS LOG_SIZE NGRAM_N value s = Ret t s' →
  let n := u32 (Z.of_nat (length value)) in
  t = k * 2 ^ 32 + o ∧ k < MAX_KEYS ∧ o + n < LOG_SIZE
  ∧ ∃ idx,
      s' = LogStore
             (take (Z.to_nat o) (data_log_ s) ++ take (Z.to_nat n) (c_str value)
                ++ drop (Z.to_nat (o + n)) (data_log_ s))
             ((k + 1) * 2 ^ 32 + (o + n)) (read_tail_ s)
             (<[k := o]> (value_offsets_ s)) (<[k := 0]> (deleted_ s)) idx.
Proof.
  intros Hp Hr n.
  pose proof (packed_off_u32 _ _ _ _ Hp) as [Ho Ho'].
  pose proof (packed_key_u32 _ _ _ _ Hp) as Hk.
  apply internal_append_Ret in Hr as (-> & Hkey & Hoff & log & idx & Hm & ->).
  rewrite (packed_write _ _ _ _ _ _ Hp) in *.
  rewrite tail_key_pack in * by done. rewrite tail_off_pack in * by done.
  apply memcpy_Some in Hm as (_ & Hfit & ->).
  rewrite (packed_log _ _ _ _ _ _ Hp) in Hfit.
  pose proof (u32_range (Z.of_nat (length value))) as Hn. fold n in Hn, Hfit, Hoff.
  rewrite u32_small in Hoff by lia.
  repeat split; try done.
  exists idx. f_equal.
  rewrite increment_tail_eq. fold n.
  replace (k * 2 ^ 32 + o + (2 ^ 32 + n)) with ((k + 1) * 2 ^ 32 + (o + n))
    by lia.
  apply u64_pack; lia.
Qed.

Lemma append_packed (key : Z) (value : list Z) (s : log_store) (r : Z)
    (s' : log_store) (k o o' : Z) :
  packed MAX_KEYS LOG_SIZE s k o o' →
  append MAX_KEYS LOG_SIZE NGRAM_N key value s = Ret r s' →
  let n := u32 (Z.of_nat (length value)) in
  r = 0 ∧ k < MAX_KEYS ∧ o + n < LOG_SIZE
  ∧ ∃ idx,
      s' = LogStore
             (take (Z.to_nat o) (data_log_ s) ++ take (Z.to_nat n) (c_str value)
                ++ drop (Z.to_nat (o + n)) (data_log_ s))
             ((k + 1) * 2 ^ 32 + (o + n)) ((k + 1) * 2 ^ 32 + (o' + n))
             (<[k := o]> (value_offsets_ s)) (<[k := 0]> (deleted_ s)) idx.
Proof.
  intros Hp Hr n. unfold append in Hr.
  destruct (internal_append _ _ _ _ _) as [t s1| | |] eqn:Hi; try done.
  injection Hr as <- <-.
  pose proof (packed_off_u32 _ _ _ _ Hp) as [Ho Ho'].
  pose proof (packed_key_u32 _ _ _ _ Hp) as Hk.
  apply (internal_append_packed _ _ _ _ _ _ _ Hp) in Hi
    as (-> & Hkey & Hoff & idx & ->).
  fold n in Hoff. repeat split; try done. exists idx.
  rewrite atomic_advance_read_tail_eq. unfold set_read_tail. cbn.
  f_equal. rewrite (packed_read _ _ _ _ _ _ Hp), increment_tail_eq. fold n.
  pose proof (u32_range (Z.of_nat (length value))) as Hn. fold n in Hn.
  replace (k * 2 ^ 32 + o' + (2 ^ 32 + n)) with ((k + 1) * 2 ^ 32 + (o' + n))
    by lia.
  pose proof (packed_off _ _ _ _ _ _ Hp).
  apply u64_pack; lia.
Qed.

(** The tables after a value was claimed at key [k] and offset [o]. *)
Lemma packed_claim (s : log_store) (k o o' n : Z) (log : list Z)
    (w r : Z) (del : gmap Z Z) (idx : gmap (list Z) (list Z)) :
  packed MAX_KEYS LOG_SIZE s k o o' →
  k < MAX_KEYS → 0 ≤ n → o + n < LOG_SIZE →
  Z.of_nat (length log) = LOG_SIZE →
  w = (k + 1) * 2 ^ 32 + (o + n) → r = (k + 1) * 2 ^ 32 + (o' + n) →
  (∀ i, 0 ≤ i < k + 1 → is_Some (del !! i)) →
  packed MAX_KEYS LOG_SIZE
    (LogStore log w r (<[k := o]> (value_offsets_ s)) del idx)
    (k + 1) (o + n) (o' + n).
Proof.
  intros [Hw Hr Hk Ho Hroom Hlog Hoffs Hsort Hdel] Hkey Hn Hfit Hlen -> -> Hd.
  split; cbn; try done; try lia.
  - intros i Hi. destruct (decide (i = k)) as [->|Hne].
    + exists o. rewrite lookup_insert_eq. split; [done|lia].
    + rewrite lookup_insert_ne by done.
      destruct (Hoffs i) as (a & Ha & Hao); [lia|]. exists a. split; [done|lia].
  - intros i j a b Hij Hj.
    destruct (decide (j = k)) as [->|Hne].
    + rewrite (lookup_insert_eq _ k). intros Ha [= <-].
      destruct (decide (i = k)) as [->|Hne].
      * rewrite lookup_insert_eq in Ha. injection Ha as <-. lia.
      * rewrite lookup_insert_ne in Ha by done.
        destruct (Hoffs i) as (a' & Ha' & Hao); [lia|]. simplify_eq. lia.
    + rewrite !lookup_insert_ne by lia. apply Hsort; lia.
Qed.

(** The tables after the tails moved on without a new key. *)
Lemma packed_move (s : log_store) (k o o' o2 o2' : Z) (del : gmap Z Z) :
  packed MAX_KEYS LOG_SIZE s k o o' →
  o ≤ o2 → o2 < LOG_SIZE → 0 ≤ o2' ≤ o2 →
  (∀ i, 0 ≤ i < k → is_Some (del !! i)) →
  packed MAX_KEYS LOG_SIZE
    (LogStore (data_log_ s) (k * 2 ^ 32 + o2) (k * 2 ^ 32 + o2')
              (value_offsets_ s) del (index_log_ s))
    k o2 o2'.
Proof.
  intros [Hw Hr Hk Ho Hroom Hlog Hoffs Hsort Hdel] Hle Hfit Ho2 Hd.
  split; cbn; try done; try lia.
  intros i Hi. destruct (Hoffs i Hi) as (a & Ha & Hao).
  exists a. split; [done|lia].
Qed.

Lemma update_is_Some (del del' : gmap Z Z) (i tok : Z) (won : bool) (j : Z) :
  Tables.update del i tok = Some (won, del') →
  is_Some (del !! j) → is_Some (del' !! j).
Proof.
  unfold Tables.update. destruct (del !! i) as [v|] eqn:Hv; [|done].
  destruct (v =? 0); intros [= <- <-]; [|done].
  intros Hj. rewrite lookup_insert. case_decide; [by eexists|done].
Qed.

Lemma splice_length (log src : list Z) (o n : Z) :
  0 ≤ o → 0 ≤ n ≤ Z.of_nat (length src) → o + n ≤ Z.of_nat (length log) →
  length (take (Z.to_nat o) log ++ take (Z.to_nat n) src
            ++ drop (Z.to_nat (o + n)) log) = length log.
Proof.
  intros. rewrite !length_app, !length_take, length_drop. lia.
Qed.

Lemma u32_length_c_str (value : list Z) :
  0 ≤ u32 (Z.of_nat (length value)) ≤ Z.of_nat (length (c_str value)).
Proof.
  pose proof (u32_range (Z.of_nat (length value))).
  pose proof (u32_le (Z.of_nat (length value))).
  unfold c_str. rewrite length_app. cbn. lia.
Qed.

Lemma delete_record_packed (internal_key : Z) (s : log_store) (b : bool)
    (s' : log_store) (k o o' : Z) :
  packed MAX_KEYS LOG_SIZE s k o o' →
  delete_record LOG_SIZE internal_key s = Ret b s' →
  ∃ o2', packed MAX_KEYS LOG_SIZE s' k (o + 1) o2'.
Proof.
  intros Hp.
  pose proof (packed_off_u32 _ _ _ _ Hp) as [Ho Ho'].
  pose proof (packed_key_u32 _ _ _ _ Hp) as Hk.
  pose proof (packed_off _ _ _ _ _ _ Hp) as Hoo.
  pose proof (packed_room _ _ _ _ _ _ Hp) as Hroom.
  unfold delete_record, atomic_advance_write_tail.
  rewrite (packed_write _ _ _ _ _ _ Hp), tail_off_pack by done.
  rewrite u32_small by lia.
  destruct (LOG_SIZE <=? o + 1) eqn:Hfit; [done|]. apply Z.leb_gt in Hfit.
  replace (u64 (k * 2 ^ 32 + o + DEL_INCR)) with (k * 2 ^ 32 + (o + 1)).
  2:{ unfold DEL_INCR. rewrite <- Z.add_assoc. symmetry. apply u64_pack; lia. }
  destruct (_ <=? internal_key).
  - intros [= <- <-]. exists o'. unfold set_write_tail.
    rewrite (packed_read _ _ _ _ _ _ Hp).
    apply (packed_move _ _ _ _ _ _ _ Hp); [lia..|].
    apply (packed_deleted _ _ _ _ _ _ Hp).
  - unfold invalidate_key. cbn.
    destruct (Tables.update _ _ _) as [[won del]|] eqn:Hu; cbn; [|done].
    assert (∀ i, 0 ≤ i < k → is_Some (del !! i)) as Hd.
    { intros i Hi. eapply update_is_Some; [exact Hu|].
      by apply (packed_deleted _ _ _ _ _ _ Hp). }
    destruct won; intros [= <- <-].
    + exists (o' + 1). rewrite atomic_advance_read_tail_eq.
      unfold set_read_tail, set_deleted, set_write_tail. cbn.
      rewrite (packed_read _ _ _ _ _ _ Hp).
      replace (u64 (k * 2 ^ 32 + o' + DEL_INCR)) with (k * 2 ^ 32 + (o' + 1)).
      2:{ unfold DEL_INCR. rewrite <- Z.add_assoc. symmetry.
          apply u64_pack; lia. }
      apply (packed_move _ _ _ _ _ _ _ Hp); [lia..|done].
    + exists o'. unfold set_deleted, set_write_tail. cbn.
      rewrite (packed_read _ _ _ _ _ _ Hp).
      apply (packed_move _ _ _ _ _ _ _ Hp); [lia..|done].
Qed.

Lemma append_keeps_packed (key : Z) (value : list Z) (s : log_store) (r : Z)
    (s' : log_store) (k o o' : Z) :
  packed MAX_KEYS LOG_SIZE s k o o' →
  append MAX_KEYS LOG_SIZE NGRAM_N key value s = Ret r s' →
  packed MAX_KEYS LOG_SIZE s' (k + 1)
         (o + u32 (Z.of_nat (length value)))
         (o' + u32 (Z.of_nat (length value))).
Proof.
  intros Hp Hr.
  pose proof (packed_off_u32 _ _ _ _ Hp) as [Ho Ho'].
  pose proof (u32_length_c_str value) as Hn.
  apply (append_packed _ _ _ _ _ _ _ _ Hp) in Hr
    as (_ & Hkey & Hfit & idx & ->).
  apply (packed_claim _ _ _ _ _ _ _ _ _ _ Hp); try done; try lia.
  - rewrite splice_length; [apply (packed_log _ _ _ _ _ _ Hp)|lia..|].
    rewrite (packed_log _ _ _ _ _ _ Hp). lia.
  - intros i Hi. rewrite lookup_insert. case_decide; [by eexists|].
    apply (packed_deleted _ _ _ _ _ _ Hp). lia.
Qed.

Lemma update_record_keeps_packed (internal_key : Z) (value : list Z)
    (s : log_store) (r : Z) (s' : log_store) (k o o' : Z) :
  packed MAX_KEYS LOG_SIZE s k o o' →
  update_record MAX_KEYS LOG_SIZE NGRAM_N internal_key value s = Ret r s' →
  r = k
  ∧ packed MAX_KEYS LOG_SIZE s' (k + 1)
           (o + u32 (Z.of_nat (length value)))
           (o' + u32 (Z.of_nat (length value))).
Proof.
  intros Hp Hr. unfold update_record in Hr.
  destruct (internal_append _ _ _ _ _) as [t s1| | |] eqn:Hi; try done.
  pose proof (packed_off_u32 _ _ _ _ Hp) as [Ho Ho'].
  pose proof (packed_key_u32 _ _ _ _ Hp) as Hk.
  pose proof (packed_off _ _ _ _ _ _ Hp) as Hoo.
  pose proof (u32_length_c_str value) as Hn.
  apply (internal_append_packed _ _ _ _ _ _ _ Hp) in Hi
    as (-> & Hkey & Hfit & idx & ->).
  unfold invalidate_key in Hr. cbn in Hr.
  destruct (Tables.update _ _ _) as [[won del]|] eqn:Hu; cbn in Hr; [|done].
  injection Hr as <- <-. split; [by apply tail_key_pack|].
  rewrite atomic_advance_read_tail_eq. unfold set_read_tail, set_deleted. cbn.
  rewrite (packed_read _ _ _ _ _ _ Hp), increment_tail_eq.
  replace (u64 _) with
    ((k + 1) * 2 ^ 32 + (o' + u32 (Z.of_nat (length value)))).
  2:{ symmetry.
      replace (k * 2 ^ 32 + o' + (2 ^ 32 + u32 (Z.of_nat (length value))))
        with ((k + 1) * 2 ^ 32 + (o' + u32 (Z.of_nat (length value)))) by lia.
      apply u64_pack; lia. }
  apply (packed_claim _ _ _ _ _ _ _ _ _ _ Hp); try done; try lia.
  - rewrite splice_length; [apply (packed_log _ _ _ _ _ _ Hp)|lia..|].
    rewrite (packed_log _ _ _ _ _ _ Hp). lia.
  - intros i Hi. eapply update_is_Some; [exact Hu|].
    rewrite lookup_insert. case_decide; [by eexists|].
    apply (packed_deleted _ _ _ _ _ _ Hp). lia.
Qed.

Lemma new_packed (junk : list Z) :
  Z.of_nat (length junk) = LOG_SIZE →
  packed MAX_KEYS LOG_SIZE (log_store_new junk) 0 0 0.
Proof. intros Hl. split; cbn; try done; try lia. Qed.

Lemma run_packed (cs : list call) (s s' : log_store) :
  (∃ k o o', packed MAX_KEYS LOG_SIZE s k o o') →
  run MAX_KEYS LOG_SIZE NGRAM_N cs s = Some s' →
  ∃ k o o', packed MAX_KEYS LOG_SIZE s' k o o'.
Proof.
  revert s. induction cs as [|c cs IH]; intros s Hp; cbn.
  - by intros [= <-].
  - destruct (run_call _ _ _ c s) as [s1|] eqn:Hc; [|done].
    apply IH. destruct Hp as (k & o & o' & Hp).
    destruct c as [key value|internal_key|internal_key value];
      cbv beta iota delta [run_call] in Hc.
    + destruct (append _ _ _ _ _ _) as [r s2| | |] eqn:Ha; try done.
      injection Hc as ->. eauto using append_keeps_packed.
    + destruct (delete_record _ _ _) as [r s2| | |] eqn:Ha; try done.
      injection Hc as ->.
      destruct (delete_record_packed _ _ _ _ _ _ _ Hp Ha) as [o2' H2]. eauto.
    + destruct (update_record _ _ _ _ _ _) as [r s2| | |] eqn:Ha; try done.
      injection Hc as ->.
      destruct (update_record_keeps_packed _ _ _ _ _ _ _ _ Hp Ha) as [_ H2].
      eauto.
Qed.

Lemma reachable_packed (s : log_store) :
  reachable MAX_KEYS LOG_SIZE NGRAM_N s →
  ∃ k o o', packed MAX_KEYS LOG_SIZE s k o o'.
Proof.
  intros (junk & cs & Hl & Hr). eapply run_packed; [|exact Hr].
  exists 0, 0, 0. by apply new_packed.
Qed.


(** C9.  In every reachable store the offsets of consecutive keys below
    [get_num_keys] are in order; and a value that is appended next takes
    its key and its offset from the one write tail it claimed, an offset
    that no earlier key exceeds. *)
Theorem offsets_monotone (s : log_store) :
  reachable MAX_KEYS LOG_SIZE NGRAM_N s →
  (∀ i, 0 ≤ i → i + 1 < get_num_keys s →
     ∃ a b, value_offsets_ s !! i = Some a
            ∧ value_offsets_ s !! (i + 1) = Some b ∧ a ≤ b)
  ∧ (∀ value t s',
       internal_append MAX_KEYS LOG_SIZE NGRAM_N value s = Ret t s' →
       t = write_tail_ s
       ∧ tail_key t = get_num_keys s
       ∧ value_offsets_ s' !! tail_key t = Some (tail_off t)
       ∧ ∀ i a, 0 ≤ i < tail_key t → value_offsets_ s' !! i = Some a →
                a ≤ tail_off t).
Proof.
  intros Hr. apply reachable_packed in Hr as (k & o & o' & Hp).
  pose proof (packed_off_u32 _ _ _ _ Hp) as [Ho Ho'].
  pose proof (packed_key_u32 _ _ _ _ Hp) as Hk.
  assert (get_num_keys s = k) as Hnum.
  { unfold get_num_keys. rewrite (packed_read _ _ _ _ _ _ Hp).
    by apply tail_key_pack. }
  rewrite Hnum. split.
  - intros i Hi Hi1.
    destruct (packed_offsets _ _ _ _ _ _ Hp i) as (a & Ha & _); [lia|].
    destruct (packed_offsets _ _ _ _ _ _ Hp (i + 1)) as (b & Hb & _); [lia|].
    exists a, b. repeat split; try done.
    apply (packed_sorted _ _ _ _ _ _ Hp i (i + 1)); (lia || done).
  - intros value t s' Ha.
    apply (internal_append_packed _ _ _ _ _ _ _ Hp) in Ha
      as (-> & Hkey & Hfit & idx & ->).
    rewrite tail_key_pack, tail_off_pack by done. cbn.
    rewrite lookup_insert_eq. repeat split; try done.
    + symmetry. apply (packed_write _ _ _ _ _ _ Hp).
    + intros i a Hi. rewrite lookup_insert_ne by lia. intros Hia.
      destruct (packed_offsets _ _ _ _ _ _ Hp i Hi) as (a' & Ha' & Hle).
      simplify_eq. lia.
Qed.

(** ** Key resolution *)

(** The width [hi - lo] halves in each iteration: the loop never uses up
    a fuel of one more than the bits of the width. *)
Lemma bsearch_fuel (offsets : gmap Z Z) (offset : Z) (fuel : nat)
    (lo hi : Z) :
  0 ≤ lo ≤ hi → hi < 2 ^ 32 → hi - lo < 2 ^ (Z.of_nat fuel - 1) →
  bsearch fuel offsets offset lo hi ≠ Timeout.
Proof.
  revert lo hi. induction fuel as [|fuel IH]; intros lo hi Hlo Hhi Hw.
  - exfalso. change (2 ^ (Z.of_nat 0 - 1)) with 0 in Hw. lia.
  - cbn [bsearch]. destruct (Z.ltb_spec lo hi) as [Hlt|Hge]; [|done].
    assert (0 ≤ (hi - lo) / 2 < hi - lo) as Hhalf.
    { split; [apply Z.div_pos; lia|apply Z.div_lt; lia]. }
    rewrite (u32_small (hi - lo)) by lia.
    rewrite (u32_small (lo + _)) by lia.
    assert (hi - lo < 2 * 2 ^ (Z.of_nat fuel - 1)) as Hw'.
    { destruct fuel as [|fuel'].
      - change (2 ^ (Z.of_nat 1 - 1)) with 1 in Hw. lia.
      - replace (Z.of_nat (S (S fuel')) - 1)
          with (Z.succ (Z.of_nat (S fuel') - 1)) in Hw by lia.
        rewrite Z.pow_succ_r in Hw by lia. done. }
    assert (hi - lo = 2 * ((hi - lo) / 2) + (hi - lo) mod 2) as Hdiv
      by (apply Z.div_mod; lia).
    pose proof (Z.mod_pos_bound (hi - lo) 2 ltac:(lia)) as Hmod.
    destruct (Tables.get offsets _) as [v| |] eqn:Hv;
      cbv beta iota delta [mbind result_mbind result_bind]; [|done|].
    + destruct (v <=? offset).
      * rewrite u32_small by lia. apply IH; lia.
      * apply IH; lia.
    + unfold Tables.get, access in Hv. by destruct (offsets !! _).
Qed.

(** [find_and_insert_key] ends for every 32-bit [max_key]. *)
Lemma find_and_insert_key_fuel (keys : gset Z) (offset max_key max_off : Z)
    (s : log_store) :
  0 ≤ max_key < 2 ^ 32 →
  find_and_insert_key keys offset max_key max_off s ≠ Timeout.
Proof.
  intros Hmax. unfold find_and_insert_key.
  pose proof (bsearch_fuel (value_offsets_ s) offset 33 0 max_key
                ltac:(lia) ltac:(lia)) as Hb.
  destruct (bsearch 33 _ _ _ _) as [lo| |];
    cbv beta iota delta [mbind result_mbind result_bind]; [|done|].
  - unfold Tables.get, access. destruct (deleted_ s !! _) as [d|]; [|done].
    by destruct (negb (d =? 0) && (d <=? max_off)).
  - exfalso. apply Hb; [|done].
    change (2 ^ (Z.of_nat 33 - 1)) with (2 ^ 32). lia.
Qed.

(** On sorted offsets the loop ends at the first key whose offset is above
    [offset]. *)
Lemma bsearch_spec (offsets : gmap Z Z) (offset max_key : Z) (fuel : nat)
    (lo hi : Z) :
  (∀ i, 0 ≤ i < max_key → is_Some (offsets !! i)) →
  (∀ i j a b, 0 ≤ i ≤ j → j < max_key →
     offsets !! i = Some a → offsets !! j = Some b → a ≤ b) →
  0 ≤ lo ≤ hi → hi ≤ max_key → max_key < 2 ^ 32 →
  hi - lo < 2 ^ (Z.of_nat fuel - 1) →
  (∀ i a, 0 ≤ i < lo → offsets !! i = Some a → a ≤ offset) →
  (∀ i a, hi ≤ i < max_key → offsets !! i = Some a → offset < a) →
  ∃ r, bsearch fuel offsets offset lo hi = Done r
       ∧ 0 ≤ r ≤ max_key
       ∧ (∀ i a, 0 ≤ i < r → offsets !! i = Some a → a ≤ offset)
       ∧ (∀ i a, r ≤ i < max_key → offsets !! i = Some a → offset < a).
Proof.
  intros Hdef Hsort. revert lo hi.
  induction fuel as [|fuel IH]; intros lo hi Hlo Hhi Hmax Hw Hbelow Habove.
  - exfalso. change (2 ^ (Z.of_nat 0 - 1)) with 0 in Hw. lia.
  - cbn [bsearch]. destruct (Z.ltb_spec lo hi) as [Hlt|Hge].
    2:{ exists lo. repeat split; try lia; try done.
        intros i a Hi. apply Habove. lia. }
    assert (0 ≤ (hi - lo) / 2 < hi - lo) as Hhalf.
    { split; [apply Z.div_pos; lia|apply Z.div_lt; lia]. }
    rewrite (u32_small (hi - lo)) by lia.
    rewrite (u32_small (lo + _)) by lia.
    set (mid := lo + (hi - lo) / 2) in *.
    destruct (Hdef mid) as [v Hv]; [lia|].
    unfold Tables.get. rewrite Hv. cbn.
    assert (hi - lo < 2 * 2 ^ (Z.of_nat fuel - 1)) as Hw'.
    { destruct fuel as [|fuel'].
      - change (2 ^ (Z.of_nat 1 - 1)) with 1 in Hw. lia.
      - replace (Z.of_nat (S (S fuel')) - 1) with (Z.succ (Z.of_nat (S fuel') - 1))
          in Hw by lia.
        rewrite Z.pow_succ_r in Hw by lia. done. }
    assert (hi - lo = 2 * ((hi - lo) / 2) + (hi - lo) mod 2) as Hdiv
      by (apply Z.div_mod; lia).
    pose proof (Z.mod_pos_bound (hi - lo) 2 ltac:(lia)) as Hmod.
    destruct (Z.leb_spec v offset) as [Hle|Hgt].
    + rewrite u32_small by lia. apply IH; try lia; [|done].
      intros i a Hi Ha. etrans; [|exact Hle].
      apply (Hsort i mid); (lia || done).
    + apply IH; try lia; [done|].
      intros i a Hi Ha. eapply Z.lt_le_trans; [exact Hgt|].
      apply (Hsort mid i); (lia || done).
Qed.

(** C6.  In a reachable store, for a snapshot [max_key] of at least one
    and at most [get_num_keys] keys and an offset that is not below the
    offset of key 0, [find_and_insert_key] finds the greatest key [i]
    below [max_key] whose offset is at most [offset]; it leaves the
    results alone when the delete marker [d] of [i] is not 0 and
    [max_off >= d], and inserts [i] otherwise. *)
Theorem find_and_insert_key_resolves (s : log_store) (keys : gset Z)
    (offset max_key max_off a0 : Z) :
  reachable MAX_KEYS LOG_SIZE NGRAM_N s →
  0 < max_key ≤ get_num_keys s →
  value_offsets_ s !! 0 = Some a0 → a0 ≤ offset →
  ∃ i a d,
    0 ≤ i < max_key
    ∧ value_offsets_ s !! i = Some a ∧ a ≤ offset
    ∧ (∀ j b, 0 ≤ j < max_key → value_offsets_ s !! j = Some b →
              b ≤ offset → j ≤ i)
    ∧ deleted_ s !! i = Some d
    ∧ find_and_insert_key keys offset max_key max_off s
      = Done (if negb (d =? 0) && (d <=? max_off) then keys
              else {[i]} ∪ keys).
Proof.
  intros Hr Hmax H0 Ha0. apply reachable_packed in Hr as (k & o & o' & Hp).
  pose proof (packed_off_u32 _ _ _ _ Hp) as [Ho Ho'].
  pose proof (packed_key_u32 _ _ _ _ Hp) as Hk.
  assert (get_num_keys s = k) as Hnum.
  { unfold get_num_keys. rewrite (packed_read _ _ _ _ _ _ Hp).
    by apply tail_key_pack. }
  rewrite Hnum in Hmax.
  destruct (bsearch_spec (value_offsets_ s) offset max_key 33 0 max_key)
    as (r & Hb & Hrange & Hbelow & Habove); try lia.
  - intros i Hi.
    destruct (packed_offsets _ _ _ _ _ _ Hp i) as (a & Ha & _); [lia|].
    by eexists.
  - intros i j a b Hij Hj. apply (packed_sorted _ _ _ _ _ _ Hp); lia.
  - assert (0 < r) as Hpos.
    { destruct (decide (r = 0)) as [->|]; [|lia].
      specialize (Habove 0 a0 ltac:(lia) H0). lia. }
    destruct (packed_offsets _ _ _ _ _ _ Hp (r - 1)) as (a & Ha & _); [lia|].
    destruct (packed_deleted _ _ _ _ _ _ Hp (r - 1)) as [d Hd]; [lia|].
    exists (r - 1), a, d. repeat split; try lia; try done.
    + apply (Hbelow (r - 1)); [lia|done].
    + intros j b Hj Hjb Hle.
      destruct (Z.le_gt_cases j (r - 1)) as [|Hgt]; [done|].
      specialize (Habove j b ltac:(lia) Hjb). lia.
    + unfold find_and_insert_key. rewrite Hb. cbn.
      rewrite u32_small by lia. unfold Tables.get. rewrite Hd. cbn.
      by destruct (negb (d =? 0) && (d <=? max_off)).
Qed.


(** ** Stores that were only appended to *)

Lemma run_app (cs1 cs2 : list call) (s : log_store) :
  run MAX_KEYS LOG_SIZE NGRAM_N (cs1 ++ cs2) s
  = run MAX_KEYS LOG_SIZE NGRAM_N cs1 s
      ≫= run MAX_KEYS LOG_SIZE NGRAM_N cs2.
Proof.
  revert s. induction cs1 as [|c cs1 IH]; intros s; cbn; [done|].
  destruct (run_call _ _ _ c s); cbn; [apply IH|done].
Qed.

Lemma new_appended (junk : list Z) :
  Z.of_nat (length junk) = LOG_SIZE →
  appended MAX_KEYS LOG_SIZE [] (log_store_new junk).
Proof.
  intros Hl. split; cbn.
  - by apply new_packed.
  - by rewrite take_0.
  - intros i Hi. lia.
  - intros i Hi. lia.
Qed.

Lemma append_appended (vs : list (list Z)) (key : Z) (value : list Z)
    (s : log_store) (r : Z) (s' : log_store) :
  appended MAX_KEYS LOG_SIZE vs s →
  Z.of_nat (length value) < 2 ^ 32 →
  append MAX_KEYS LOG_SIZE NGRAM_N key value s = Ret r s' →
  appended MAX_KEYS LOG_SIZE (vs ++ [value]) s'.
Proof.
  intros [Hp Hlog Hoffs Hdel] Hlen Ha.
  pose proof (append_keeps_packed _ _ _ _ _ _ _ _ Hp Ha) as Hp'.
  apply (append_packed _ _ _ _ _ _ _ _ Hp) in Ha
    as (_ & Hkey & Hfit & idx & ->).
  rewrite u32_small in * by lia.
  assert (length (concat (vs ++ [value]))
          = (length (concat vs) + length value)%nat) as Hcat.
  { rewrite concat_app, length_app. cbn. by rewrite app_nil_r. }
  assert (length (concat vs) ≤ length (data_log_ s))%nat as Hin.
  { pose proof (packed_log _ _ _ _ _ _ Hp). lia. }
  split; cbn.
  - rewrite length_app, Hcat. cbn.
    replace (Z.of_nat (length vs + 1)) with (Z.of_nat (length vs) + 1) by lia.
    by rewrite Nat2Z.inj_add.
  - rewrite Hcat, !Nat2Z.id.
    rewrite take_app_ge by (rewrite length_take; lia).
    rewrite length_take, Nat.min_l by done.
    replace (length (concat vs) + length value - length (concat vs))%nat
      with (length value) by lia.
    unfold c_str. rewrite (take_app_length value [0]).
    rewrite take_app_length, Hlog, concat_app. cbn. by rewrite app_nil_r.
  - intros i. rewrite length_app. cbn. intros Hi.
    destruct (decide (i = length vs)) as [->|Hne].
    + rewrite lookup_insert_eq, take_app_length. done.
    + rewrite lookup_insert_ne by lia.
      rewrite take_app_le by lia. apply Hoffs. lia.
  - intros i. rewrite length_app. cbn. intros Hi.
    destruct (decide (i = length vs)) as [->|Hne].
    + by rewrite lookup_insert_eq.
    + rewrite lookup_insert_ne by lia. apply Hdel. lia.
Qed.

Lemma run_appends_appended (done vs : list (list Z)) (s s' : log_store) :
  appended MAX_KEYS LOG_SIZE done s →
  Forall (λ v, Z.of_nat (length v) < 2 ^ 32) vs →
  run MAX_KEYS LOG_SIZE NGRAM_N (appends vs) s = Some s' →
  appended MAX_KEYS LOG_SIZE (done ++ vs) s'.
Proof.
  revert done s. induction vs as [|v vs IH]; intros done s Hd Hvs; cbn.
  - intros [= <-]. by rewrite app_nil_r.
  - destruct (append _ _ _ _ _ _) as [r s1| | |] eqn:Ha; try done. cbn.
    apply Forall_cons in Hvs as [Hv Hvs].
    intros Hr. replace (done ++ v :: vs) with ((done ++ [v]) ++ vs)
      by (by rewrite <- app_assoc).
    apply (IH _ s1); [|done..].
    by eapply append_appended.
Qed.

(** The copy loop of [get] returns a value without zero byte as it lies
    in the log. *)
Lemma copy_value_exact (log : list Z) (v : list Z) (p : nat) :
  (∀ j c, v !! j = Some c → log !! (p + j)%nat = Some c) →
  0 ∉ v →
  copy_value log (Z.of_nat p) (length v) = Some v.
Proof.
  revert p. induction v as [|c v IH]; intros p Hlog Hnz; cbn; [done|].
  pose proof (Hlog 0%nat c eq_refl) as Hc. rewrite Nat.add_0_r in Hc.
  pose proof (lookup_lt_Some _ _ _ Hc) as Hlt.
  unfold rd. rewrite Nat2Z.id, Hc.
  destruct (Z.leb_spec 0 (Z.of_nat p)); [|lia].
  destruct (Z.ltb_spec (Z.of_nat p) (Z.of_nat (length log))); [|lia]. cbn.
  apply not_elem_of_cons in Hnz as [Hc0 Hnz].
  destruct (Z.eqb_spec c 0) as [->|_]; [done|].
  replace (Z.of_nat p + 1) with (Z.of_nat (S p)) by lia.
  rewrite IH; [done| |done].
  intros j d Hj. replace (S p + j)%nat with (p + S j)%nat by lia.
  by apply Hlog.
Qed.

Lemma concat_lookup_middle (vs : list (list Z)) (i : nat) (v : list Z)
    (j : nat) (c : Z) :
  vs !! i = Some v → v !! j = Some c →
  concat vs !! (length (concat (take i vs)) + j)%nat = Some c.
Proof.
  intros Hi Hj.
  assert (concat vs = concat (take i vs) ++ v ++ concat (drop (S i) vs))
    as ->.
  { rewrite <- (take_drop_middle vs i v Hi) at 1. by rewrite concat_app. }
  rewrite lookup_app_r by lia.
  replace (_ + j - _)%nat with j by lia.
  by apply lookup_app_l_Some.
Qed.

Lemma get_appended (vs : list (list Z)) (s : log_store) (i : nat)
    (v : list Z) :
  appended MAX_KEYS LOG_SIZE vs s →
  vs !! i = Some v → 0 ∉ v → Z.of_nat (length v) < 2 ^ 32 →
  get (Z.of_nat i) s = Done (Some v).
Proof.
  intros [Hp Hlog Hoffs Hdel] Hi Hnz Hlen.
  pose proof (packed_off_u32 _ _ _ _ Hp) as [Ho _].
  pose proof (packed_key_u32 _ _ _ _ Hp) as Hk.
  pose proof (lookup_lt_Some _ _ _ Hi) as Hlt.
  assert (concat (take (S i) vs) = concat (take i vs) ++ v) as Hnext.
  { rewrite (take_S_r _ _ _ Hi), concat_app. cbn. by rewrite app_nil_r. }
  unfold get. rewrite (packed_read _ _ _ _ _ _ Hp).
  rewrite tail_key_pack, tail_off_pack by done.
  destruct (Z.leb_spec (Z.of_nat (length vs)) (Z.of_nat i)); [lia|].
  unfold Tables.get. rewrite (Hdel i Hlt), (Hoffs i Hlt). cbn.
  rewrite u32_small by lia.
  assert ((if Z.of_nat i + 1 <? Z.of_nat (length vs)
           then access (value_offsets_ s !! (Z.of_nat i + 1))
           else Done (Z.of_nat (length (concat vs))))
          = Done (Z.of_nat (length (concat (take (S i) vs))))) as ->.
  { destruct (Z.ltb_spec (Z.of_nat i + 1) (Z.of_nat (length vs))).
    - replace (Z.of_nat i + 1) with (Z.of_nat (S i)) by lia.
      rewrite Hoffs by lia. done.
    - rewrite take_ge by lia. done. }
  cbn. rewrite Hnext, length_app.
  replace (Z.of_nat (_ + length v)%nat - _) with (Z.of_nat (length v)) by lia.
  rewrite u32_small, Nat2Z.id by lia.
  rewrite copy_value_exact; [done| |done].
  intros j c Hj.
  pose proof (concat_lookup_middle _ _ _ _ _ Hi Hj) as Hc.
  rewrite <- Hlog in Hc. by apply lookup_take_Some in Hc as [Hc _].
Qed.

(** C3 (amended).  After values that hold no zero byte and fewer than
    [2^32] bytes each were appended to a new store - every append
    returned, there was no delete or update - the [i]-th value was
    assigned the key [i], and [get(i)] returns exactly its bytes. *)
Theorem get_returns_appended_value (junk : list Z) (vs : list (list Z))
    (s : log_store) (i : nat) (v : list Z) :
  Z.of_nat (length junk) = LOG_SIZE →
  Forall (λ v, (0 ∉ v) ∧ Z.of_nat (length v) < 2 ^ 32) vs →
  run MAX_KEYS LOG_SIZE NGRAM_N (appends vs) (log_store_new junk) = Some s →
  vs !! i = Some v →
  get (Z.of_nat i) s = Done (Some v)
  ∧ ∃ si t si',
      run MAX_KEYS LOG_SIZE NGRAM_N (appends (take i vs)) (log_store_new junk)
        = Some si
      ∧ internal_append MAX_KEYS LOG_SIZE NGRAM_N v si = Ret t si'
      ∧ tail_key t = Z.of_nat i.
Proof.
  intros Hl Hvs Hr Hi.
  assert (Forall (λ v, Z.of_nat (length v) < 2 ^ 32) vs) as Hlens.
  { eapply Forall_impl; [exact Hvs|]. by intros ? [_ ?]. }
  pose proof (proj1 (Forall_forall _ _) Hvs v
                (list_elem_of_lookup_2 _ _ _ Hi)) as [Hnz Hlen].
  split.
  - apply (get_appended vs); try done.
    apply (run_appends_appended [] vs (log_store_new junk)); try done.
    by apply new_appended.
  - rewrite <- (take_drop_middle vs i v Hi) in Hr.
    unfold appends in Hr. rewrite fmap_app, run_app in Hr.
    fold (appends (take i vs)) in Hr.
    destruct (run _ _ _ (appends (take i vs)) _) as [si|] eqn:Hsi; [|done].
    cbn in Hr.
    destruct (append _ _ _ _ _ _) as [r s1| | |] eqn:Ha; try done.
    unfold append in Ha.
    destruct (internal_append _ _ _ v si) as [t si'| | |] eqn:Hia; try done.
    exists si, t, si'. repeat split; try done.
    assert (appended MAX_KEYS LOG_SIZE (take i vs) si) as [Hp _ _ _].
    { apply (run_appends_appended [] (take i vs) (log_store_new junk));
        [by apply new_appended|by apply Forall_take|done]. }
    apply (internal_append_packed _ _ _ _ _ _ _ Hp) in Hia as (-> & _).
    pose proof (packed_off_u32 _ _ _ _ Hp) as [Ho _].
    pose proof (packed_key_u32 _ _ _ _ Hp) as Hk.
    rewrite tail_key_pack by done.
    rewrite length_take. pose proof (lookup_lt_Some _ _ _ Hi). lia.
Qed.


End Invariant.

(** ** Queries of one gram *)

Section Search.

Variable NGRAM_N : Z.




End Search.

(** ** The publication loop of [internal_append] *)

Section Publication.

Variable NGRAM_N : Z.
Hypothesis NGRAM_N_pos : 0 < NGRAM_N.

Lemma publish_ngrams_fuel (log : list Z) (fuel : nat)
    (idx : gmap (list Z) (list Z)) (i bound : Z) :
  Z.of_nat (length log) < 2 ^ 32 →
  0 ≤ i ≤ Z.of_nat (length log) →
  Z.of_nat (length log) + 2 - i ≤ Z.of_nat fuel →
  (publish_ngrams NGRAM_N fuel log idx i bound).2 ≠ OutOfFuel.
Proof.
  intros Hlen. revert idx i.
  induction fuel as [|fuel IH]; intros idx i Hi Hfuel; [lia|].
  cbn [publish_ngrams]. destruct (i <=? bound); [|done].
  unfold bytes_at at 1.
  destruct (Z.leb_spec 0 i); [|lia].
  destruct (Z.leb_spec (i + NGRAM_N) (Z.of_nat (length log))); [|done].
  cbn. rewrite u32_small by lia. apply IH; lia.
Qed.

(** The publication loop ends or faults: the fuel that [internal_append]
    gives it is never used up. *)
Lemma internal_append_fuel (MAX_KEYS LOG_SIZE : Z) (value : list Z)
    (s s' : log_store) :
  Z.of_nat (length (data_log_ s)) < 2 ^ 32 →
  internal_append MAX_KEYS LOG_SIZE NGRAM_N value s ≠ TimedOut s'.
Proof.
  intros Hlen. unfold internal_append, atomic_advance_write_tail.
  cbn [fst snd]. destruct (_ || _); [done|]. cbn.
  destruct (memcpy _ _ _ _) as [log|] eqn:Hm; [|done].
  pose proof (memcpy_length _ _ _ _ _ (u32_length_c_str value) Hm) as Hl.
  apply memcpy_Some in Hm as (Hoff & Hfit & _).
  pose proof (u32_range (Z.of_nat (length value))).
  match goal with
  | |- context [publish_ngrams ?n ?f ?l ?i ?o ?b] =>
      pose proof (publish_ngrams_fuel l f i o b) as Hf;
      destruct (publish_ngrams n f l i o b) as [idx []]
  end; try done.
  exfalso. apply Hf; [lia..|done].
Qed.

(** With the bound inside the log, the loop publishes one entry for each
    position from [i] to [bound], in this order, and ends. *)
Lemma publish_ngrams_in_range (log : list Z) (fuel : nat)
    (idx : gmap (list Z) (list Z)) (i bound : Z) :
  0 ≤ i → bound + NGRAM_N ≤ Z.of_nat (length log) → bound + 1 < 2 ^ 32 →
  (0 < fuel)%nat → bound + 1 - i < Z.of_nat fuel →
  publish_ngrams NGRAM_N fuel log idx i bound
  = (fold_left
       (λ idx j, Ngram.add_offset idx
                   (take (Z.to_nat NGRAM_N) (drop (Z.to_nat j) log)) j)
       (seqZ i (bound + 1 - i)) idx,
     Finished).
Proof.
  intros Hi Hb Hu. revert idx i Hi.
  induction fuel as [|fuel IH]; intros idx i Hi Hpos Hfuel; [lia|].
  - cbn [publish_ngrams]. destruct (Z.leb_spec i bound) as [Hle|Hgt].
    + unfold bytes_at at 1.
      destruct (Z.leb_spec 0 i); [|lia].
      destruct (Z.leb_spec (i + NGRAM_N) (Z.of_nat (length log))); [|lia].
      cbn. rewrite u32_small by lia.
      rewrite (seqZ_cons i) by lia. cbn.
      rewrite IH by lia. do 3 f_equal. lia.
    + by rewrite seqZ_nil by lia.
Qed.

End Publication.

(** ** update_record *)

(** The token that [update_record] hands to [invalidate_key] is 0,
    whatever the tail. *)
Lemma update_record_token (current_tail : Z) :
  u32 (Z.land current_tail (u32 (0xFFFFFFFF + 1))) = 0.
Proof.
  replace (u32 (0xFFFFFFFF + 1)) with 0 by reflexivity.
  by rewrite Z.land_0_r.
Qed.

(** C1 (the code departs from the claim).  After ["banana"] and
    ["bandana"] were appended, [update_record(1, "orange")] returns the key
    2 of a bare append, but the delete marker of key 1 stays 0: [get(1)]
    still returns ["bandana"] and [search("ana")] still contains key 1. *)
Theorem update_record_leaves_old_key_live :
  update_record default_max_keys 64 3 1 (bytes_of "orange") scenario2
    = Ret 2 scenario4
  ∧ deleted_ scenario4 !! 1 = Some 0
  ∧ get 1 scenario4 = Done (Some (bytes_of "bandana"))
  ∧ search 3 ∅ (bytes_of "ana") scenario4 = Done {[0; 1]}
  ∧ search 3 ∅ (bytes_of "rang") scenario4 = Done {[2]}.
Proof. repeat apply conj; vm_compute; reflexivity. Qed.

(** ** The boundary of the log *)

(** C2 (counterexample).  With [LOG_SIZE = 16] the second append, which
    ends exactly at byte offset 16, does not return. *)
Lemma boundary_second_append_fails :
  ¬ ∃ s1 s2 s3,
      append default_max_keys 16 3 0 (bytes_of "abcdefghij") (zeroed 16)
        = Ret 0 s1
      ∧ append default_max_keys 16 3 0 (bytes_of "klmnop") s1 = Ret 0 s2
      ∧ get_num_keys s2 = 2
      ∧ append default_max_keys 16 3 0 (bytes_of "q") s2 = Throw s3.
Proof.
  intros (s1 & s2 & s3 & H1 & H2 & _).
  assert (s1 = boundary1 16) as ->.
  { change s1 with (after (Ret 0 s1)). by rewrite <- H1. }
  vm_compute in H2. discriminate H2.
Qed.

(** C2 (amended).  With [LOG_SIZE = 16] and [NGRAM_N = 3], from an empty
    store: [append("abcdefghij")] returns and the value gets key 0; the
    end offset 16 of ["klmnop"] is not below [LOG_SIZE], so the second
    append throws, and so does [append("q")].  With [LOG_SIZE = 17] the
    second append returns with key 1 and [append("q")] throws. *)
Theorem boundary_scenario :
  (tail_key (write_tail_ (zeroed 16)) = 0
   ∧ append default_max_keys 16 3 0 (bytes_of "abcdefghij") (zeroed 16)
     = Ret 0 (boundary1 16)
   ∧ get_num_keys (boundary1 16) = 1 ∧ get_size (boundary1 16) = 10
   ∧ append default_max_keys 16 3 0 (bytes_of "klmnop") (boundary1 16)
     = Throw (boundary2 16)
   ∧ get_num_keys (boundary2 16) = 1 ∧ get_size (boundary2 16) = 10
   ∧ append default_max_keys 16 3 0 (bytes_of "q") (boundary2 16)
     = Throw (boundary3 16))
  ∧ (append default_max_keys 17 3 0 (bytes_of "abcdefghij") (zeroed 17)
     = Ret 0 (boundary1 17)
   ∧ tail_key (write_tail_ (boundary1 17)) = 1
   ∧ append default_max_keys 17 3 0 (bytes_of "klmnop") (boundary1 17)
     = Ret 0 (boundary2 17)
   ∧ get_num_keys (boundary2 17) = 2 ∧ get_size (boundary2 17) = 16
   ∧ get 1 (boundary2 17) = Done (Some (bytes_of "klmnop"))
   ∧ append default_max_keys 17 3 0 (bytes_of "q") (boundary2 17)
     = Throw (boundary3 17)).
Proof. repeat apply conj; vm_compute; reflexivity. Qed.

(** ** get *)

(** C3 (counterexample).  The value [a, NUL, b] is appended with its
    three bytes, and [get(0)] returns the first byte only. *)
Lemma get_stops_at_zero_byte :
  ¬ ∀ s,
      run default_max_keys 16 3 (appends [[97; 0; 98]]) (zeroed 16) = Some s →
      get 0 s = Done (Some [97; 0; 98]).
Proof.
  intros H. specialize (H zero_byte_store ltac:(vm_compute; reflexivity)).
  vm_compute in H. discriminate H.
Qed.

(** ** delete_record *)

(** C4 (the code departs from the claim).  After ["banana"] and
    ["bandana"], [delete_record(0)] wins and commits its byte; a second
    [delete_record(0)] loses the CAS on the marker and returns false
    without advancing the read tail, which stays one byte behind the write
    tail.  The gap stays: after a following [append("orange")], [get(2)]
    misses the last byte of the value. *)
Theorem delete_record_losing_path_does_not_commit :
  delete_record 64 0 scenario2 = Ret true deleted_once
  ∧ read_tail_ deleted_once = write_tail_ deleted_once
  ∧ get 0 deleted_once = Done None
  ∧ delete_record 64 0 deleted_once = Ret false deleted_twice
  ∧ read_tail_ deleted_twice = read_tail_ deleted_once
  ∧ write_tail_ deleted_twice = read_tail_ deleted_twice + 1
  ∧ get_gap deleted_twice = 1
  ∧ append default_max_keys 64 3 0 (bytes_of "orange") deleted_twice
    = Ret 0 deleted_then_appended
  ∧ get_gap deleted_then_appended = 1
  ∧ get 2 deleted_then_appended = Done (Some (bytes_of "orang")).
Proof. repeat apply conj; vm_compute; reflexivity. Qed.

(** ** search *)

(** C5 (the code departs from the claim).  After ["abcxab"] was appended,
    the query ["xabc"] has as many prefix postings as suffix postings, so
    the suffix list [[0]] is scanned with a prefix of length 1.  The
    candidate 0 is below the prefix length and is not rejected: the
    comparison reads the byte at index -1 of the log. *)
Theorem search_suffix_branch_reads_before_log :
  append default_max_keys 64 3 0 (bytes_of "abcxab") (zeroed 64)
    = Ret 0 abcxab_store
  ∧ Ngram.get_offsets (index_log_ abcxab_store) (bytes_of "xab") = [3]
  ∧ Ngram.get_offsets (index_log_ abcxab_store) (bytes_of "abc") = [0]
  ∧ (0 <? tail_off (read_tail_ abcxab_store)) = true
  ∧ rd (data_log_ abcxab_store) (0 - 1) = None
  ∧ strncmp_eq (data_log_ abcxab_store) (0 - 1) (c_str (bytes_of "xabc")) 0 1
    = None
  ∧ search 3 ∅ (bytes_of "xabc") abcxab_store = Fault.
Proof. repeat apply conj; vm_compute; reflexivity. Qed.


(** C10 (the code departs from the claim).  The first value ["ab"] ends at
    offset 2, below [NGRAM_N = 3]: the bound [value_end - NGRAM_N] wraps
    to [2^32 - 1], and the loop publishes the offsets 0 to 13, all the
    grams that the 16-byte log holds, before it reads past its end. *)
Theorem publish_ngrams_bound_wraps :
  u32 (u32 (0 + 2) - 3) = 2 ^ 32 - 1
  ∧ internal_append default_max_keys 16 3 (bytes_of "ab") (zeroed 16)
    = Crashed short_first_store
  ∧ Ngram.get_offsets (index_log_ short_first_store) [97; 98; 0] = [0]
  ∧ Ngram.get_offsets (index_log_ short_first_store) [98; 0; 0] = [1]
  ∧ Ngram.get_offsets (index_log_ short_first_store) [0; 0; 0]
    = [2; 3; 4; 5; 6; 7; 8; 9; 10; 11; 12; 13].
Proof. repeat apply conj; vm_compute; reflexivity. Qed.

(** ** Versioned aggregate *)

Section GetNode.

Context {numeric : Type}.

(** The loop of [get_node] on nodes of positive version: [ret] is the
    best node so far and [max_version] its version. *)
Lemma get_node_loop_spec (node : list (Aggregate.aggregate_node numeric))
    (version : Z) (ret : option (Aggregate.aggregate_node numeric))
    (max_version : Z) :
  (∀ m, m ∈ node → 0 < Aggregate.version_ m) →
  match ret with
  | Some r => Aggregate.version_ r = max_version ∧ max_version < version
  | None => max_version = 0
  end →
  match Aggregate.get_node_loop node version ret max_version with
  | Some n =>
      (n ∈ node ∨ ret = Some n)
      ∧ Aggregate.version_ n ≤ version
      ∧ max_version ≤ Aggregate.version_ n
      ∧ ∀ m, m ∈ node → Aggregate.version_ m ≤ version →
             Aggregate.version_ m ≤ Aggregate.version_ n
  | None => ret = None ∧ ∀ m, m ∈ node → version < Aggregate.version_ m
  end.
Proof.
  revert ret max_version.
  induction node as [|n next IH]; intros ret max_version Hpos Hret; cbn.
  - destruct ret as [r|].
    + destruct Hret as [<- Hlt]. repeat split; [by right|lia..|].
      intros m Hm. by apply elem_of_nil in Hm.
    + split; [done|]. intros m Hm. by apply elem_of_nil in Hm.
  - assert (0 < Aggregate.version_ n) as Hn by (apply Hpos; left).
    assert (∀ m, m ∈ next → 0 < Aggregate.version_ m) as Hnext
      by (intros m Hm; apply Hpos; by right).
    destruct (Z.eqb_spec (Aggregate.version_ n) version) as [Heq|Hne].
    { repeat split; [left; left|lia| |intros; lia].
      destruct ret; lia. }
    destruct (Z.ltb_spec (Aggregate.version_ n) version) as [Hlt|Hge];
      [destruct (Z.ltb_spec max_version (Aggregate.version_ n))
         as [Hmax|Hmax]|]; cbn [andb].
    + specialize (IH (Some n) (Aggregate.version_ n) Hnext (conj eq_refl Hlt)).
      destruct (Aggregate.get_node_loop next version (Some n) _) as [n'|];
        [|by destruct IH].
      destruct IH as (Hin & Hle & Hmx & Hall). repeat split; [|done|lia|].
      * left. destruct Hin as [Hin|[= <-]]; [by right|left].
      * intros m [->|Hm]%elem_of_cons Hmv; [done|by apply Hall].
    + specialize (IH ret max_version Hnext Hret).
      destruct (Aggregate.get_node_loop next version ret max_version)
        as [n'|].
      * destruct IH as (Hin & Hle & Hmx & Hall). repeat split; [|done..|].
        -- destruct Hin as [Hin|Hin]; [left; by right|by right].
        -- intros m [->|Hm]%elem_of_cons Hmv; [lia|by apply Hall].
      * destruct IH as [-> Hall]. lia.
    + specialize (IH ret max_version Hnext Hret).
      destruct (Aggregate.get_node_loop next version ret max_version)
        as [n'|].
      * destruct IH as (Hin & Hle & Hmx & Hall). repeat split; [|done..|].
        -- destruct Hin as [Hin|Hin]; [left; by right|by right].
        -- intros m [->|Hm]%elem_of_cons Hmv; [lia|by apply Hall].
      * destruct IH as [-> Hall]. split; [done|].
        intros m [->|Hm]%elem_of_cons; [lia|by apply Hall].
Qed.

(** On a chain whose versions are all positive, [get_node] returns a node
    of the greatest version that is at most [version], and no node when
    every version is above [version]. *)
Lemma get_node_greatest (head : list (Aggregate.aggregate_node numeric))
    (version : Z) :
  (∀ m, m ∈ head → 0 < Aggregate.version_ m) →
  match Aggregate.get_node head version with
  | Some n =>
      n ∈ head ∧ Aggregate.version_ n ≤ version
      ∧ ∀ m, m ∈ head → Aggregate.version_ m ≤ version →
             Aggregate.version_ m ≤ Aggregate.version_ n
  | None => ∀ m, m ∈ head → version < Aggregate.version_ m
  end.
Proof.
  intros Hpos. unfold Aggregate.get_node.
  destruct head as [|n next].
  - intros m Hm. by apply elem_of_nil in Hm.
  - pose proof (get_node_loop_spec (n :: next) version None 0 Hpos eq_refl)
      as H.
    destruct (Aggregate.get_node_loop (n :: next) version None 0) as [n'|].
    + destruct H as ([Hin|Hin] & Hle & _ & Hall); [|done].
      repeat split; done.
    + by destruct H.
Qed.

End GetNode.

(** C7 (the code departs from the claim).  With the sum aggregator and
    two chains, [seq_update(0, 10, 0)] puts a node of version 0 on chain
    0.  [get_node] starts from [max_version = 0] and only takes a node
    whose version is above it, so the node is found for the version 0
    only: [get(1)] is 0 and not 10, and a following [seq_update(0, 5, 1)]
    stores 5 and not 15. *)
Theorem get_node_skips_version_zero :
  Aggregate.seq_update
    (Aggregate.aggregate_new 2 Aggregate.sum_aggregator) 0 10 0
    = Some version0_aggregate
  ∧ Aggregate.get_node [Aggregate.AggregateNode 10 0] 0
    = Some (Aggregate.AggregateNode 10 0)
  ∧ Aggregate.get_node [Aggregate.AggregateNode 10 0] 1 = None
  ∧ Aggregate.get version0_aggregate 0 = 10
  ∧ Aggregate.get version0_aggregate 1 = 0
  ∧ Aggregate.seq_update version0_aggregate 0 5 1 = Some version01_aggregate
  ∧ (Aggregate.head_ <$> Aggregate.aggs_ version01_aggregate)
    = [[Aggregate.AggregateNode 5 1; Aggregate.AggregateNode 10 0]; []]
  ∧ Aggregate.get version01_aggregate 1 = 5.
Proof. repeat apply conj; reflexivity. Qed.

(** ** Instances on the scenario store *)

(** The store of scenario 2 is the one that the two appends reach. *)
Lemma scenario2_run :
  run default_max_keys 64 3
      (appends [bytes_of "banana"; bytes_of "bandana"]) (zeroed 64)
  = Some scenario2.
Proof. vm_compute. reflexivity. Qed.

Lemma scenario2_reachable : reachable default_max_keys 64 3 scenario2.
Proof.
  exists (replicate 64 0), (appends [bytes_of "banana"; bytes_of "bandana"]).
  split; [reflexivity|exact scenario2_run].
Qed.

(** C3 on scenario 2: key 1 and the value ["bandana"]. *)
Lemma get_returns_appended_value_witness :
  get 1 scenario2 = Done (Some (bytes_of "bandana"))
  ∧ ∃ si t si',
      run default_max_keys 64 3
          (appends (take 1 [bytes_of "banana"; bytes_of "bandana"]))
          (log_store_new (replicate 64 0)) = Some si
      ∧ internal_append default_max_keys 64 3 (bytes_of "bandana") si
        = Ret t si'
      ∧ tail_key t = Z.of_nat 1.
Proof.
  apply (get_returns_appended_value default_max_keys 64 3
           ltac:(vm_compute; split; [discriminate|reflexivity])
           ltac:(vm_compute; split; [discriminate|reflexivity])
           (replicate 64 0) [bytes_of "banana"; bytes_of "bandana"]
           scenario2 1 (bytes_of "bandana")).
  - reflexivity.
  - repeat constructor; try (vm_compute; reflexivity).
    + apply (bool_decide_unpack _). vm_compute. reflexivity.
    + apply (bool_decide_unpack _). vm_compute. reflexivity.
  - exact scenario2_run.
  - reflexivity.
Defined.

(** C6 on scenario 2: the offset 8 lies in the value of key 1. *)
Lemma find_and_insert_key_resolves_witness :
  ∃ i a d,
    0 ≤ i < 2
    ∧ value_offsets_ scenario2 !! i = Some a ∧ a ≤ 8
    ∧ (∀ j b, 0 ≤ j < 2 → value_offsets_ scenario2 !! j = Some b →
              b ≤ 8 → j ≤ i)
    ∧ deleted_ scenario2 !! i = Some d
    ∧ find_and_insert_key ∅ 8 2 13 scenario2
      = Done (if negb (d =? 0) && (d <=? 13) then ∅ else {[i]} ∪ ∅).
Proof.
  apply (find_and_insert_key_resolves default_max_keys 64 3
           ltac:(vm_compute; split; [discriminate|reflexivity])
           ltac:(vm_compute; split; [discriminate|reflexivity])
           scenario2 ∅ 8 2 13 0).
  - exact scenario2_reachable.
  - vm_compute. split; [reflexivity|discriminate].
  - vm_compute. reflexivity.
  - vm_compute. discriminate.
Defined.


(** C9 on scenario 2. *)
Lemma offsets_monotone_witness :
  (∀ i, 0 ≤ i → i + 1 < get_num_keys scenario2 →
     ∃ a b, value_offsets_ scenario2 !! i = Some a
            ∧ value_offsets_ scenario2 !! (i + 1) = Some b ∧ a ≤ b)
  ∧ (∀ value t s',
       internal_append default_max_keys 64 3 value scenario2 = Ret t s' →
       t = write_tail_ scenario2
       ∧ tail_key t = get_num_keys scenario2
       ∧ value_offsets_ s' !! tail_key t = Some (tail_off t)
       ∧ ∀ i a, 0 ≤ i < tail_key t → value_offsets_ s' !! i = Some a →
                a ≤ tail_off t).
Proof.
  apply (offsets_monotone default_max_keys 64 3
           ltac:(vm_compute; split; [discriminate|reflexivity])
           ltac:(vm_compute; split; [discriminate|reflexivity])
           scenario2).
  exact scenario2_reachable.
Defined.

(** * Further properties *)

(** ** The steps of a run *)

Lemma set_deleted_id (s : log_store) : set_deleted s (deleted_ s) = s.
Proof. by destruct s. Qed.

(** The conditional write of the token 0 leaves the delete table as it
    is. *)
Lemma update_zero (del del' : gmap Z Z) (i : Z) (won : bool) :
  Tables.update del i 0 = Some (won, del') → del' = del.
Proof.
  unfold Tables.update. destruct (del !! i) as [v|] eqn:Hv; [|done].
  destruct (Z.eqb_spec v 0) as [->|]; intros [= <- <-]; [|done].
  by apply insert_id.
Qed.

Section Steps.

Variables MAX_KEYS LOG_SIZE NGRAM_N : Z.

(** A returning [update_record] leaves the store of a plain append. *)
Lemma update_record_Ret (internal_key : Z) (value : list Z)
    (s : log_store) (k : Z) (s' : log_store) (key : Z) :
  update_record MAX_KEYS LOG_SIZE NGRAM_N internal_key value s = Ret k s' →
  append MAX_KEYS LOG_SIZE NGRAM_N key value s = Ret 0 s'
  ∧ k = tail_key (write_tail_ s)
  ∧ is_Some (deleted_ s' !! internal_key).
Proof.
  unfold update_record, append.
  destruct (internal_append _ _ _ _ _) as [t s1| | |] eqn:Hi; try done.
  rewrite update_record_token. unfold invalidate_key.
  destruct (Tables.update _ _ _) as [[won del]|] eqn:Hu; [|done].
  cbn. pose proof (update_zero _ _ _ _ Hu) as ->.
  rewrite set_deleted_id. intros [= <- <-].
  apply internal_append_Ret in Hi as (-> & _).
  repeat split; try done.
  rewrite atomic_advance_read_tail_eq. cbn.
  unfold Tables.update in Hu. destruct (deleted_ s1 !! _); [by eexists|done].
Qed.

Lemma update_record_of_append (internal_key : Z) (value : list Z)
    (s s' : log_store) (key : Z) :
  append MAX_KEYS LOG_SIZE NGRAM_N key value s = Ret 0 s' →
  is_Some (deleted_ s' !! internal_key) →
  update_record MAX_KEYS LOG_SIZE NGRAM_N internal_key value s
  = Ret (tail_key (write_tail_ s)) s'.
Proof.
  unfold update_record, append.
  destruct (internal_append _ _ _ _ _) as [t s1| | |] eqn:Hi; try done.
  intros [= <-]. rewrite atomic_advance_read_tail_eq. cbn. intros [d Hd].
  rewrite update_record_token. unfold invalidate_key, Tables.update.
  rewrite Hd. apply internal_append_Ret in Hi as (-> & _).
  destruct (Z.eqb_spec d 0) as [->|]; cbn.
  - by rewrite insert_id, set_deleted_id, atomic_advance_read_tail_eq.
  - by rewrite set_deleted_id, atomic_advance_read_tail_eq.
Qed.

(** X1.  [update_record] is an append under another name: it returns, with
    the key of the appended value, exactly when [append] of the value
    returns and the old key has a delete marker, and it leaves the store
    that [append] leaves. The marker of the old key is not written. *)
Theorem update_record_is_append (internal_key key : Z) (value : list Z)
    (s : log_store) (k : Z) (s' : log_store) :
  update_record MAX_KEYS LOG_SIZE NGRAM_N internal_key value s = Ret k s'
  ↔ append MAX_KEYS LOG_SIZE NGRAM_N key value s = Ret 0 s'
    ∧ k = tail_key (write_tail_ s)
    ∧ is_Some (deleted_ s' !! internal_key).
Proof.
  split.
  - apply update_record_Ret.
  - intros (Ha & -> & Hd). by eapply update_record_of_append.
Qed.

Hypothesis MAX_KEYS_u32 : 0 ≤ MAX_KEYS < 2 ^ 32.
Hypothesis LOG_SIZE_u32 : 0 ≤ LOG_SIZE < 2 ^ 32.

(** The index that a returning [internal_append] leaves is the one of its
    publication loop. *)
Lemma internal_append_Ret_index (value : list Z) (s : log_store) (t : Z)
    (s' : log_store) :
  internal_append MAX_KEYS LOG_SIZE NGRAM_N value s = Ret t s' →
  publish_ngrams NGRAM_N (length (data_log_ s') + 2) (data_log_ s')
    (index_log_ s) (tail_off t)
    (u32 (u32 (tail_off t + u32 (Z.of_nat (length value))) - NGRAM_N))
  = (index_log_ s', Finished).
Proof.
  unfold internal_append, atomic_advance_write_tail. cbn [fst snd].
  destruct (_ || _); [done|]. cbn.
  destruct (memcpy _ _ _ _) as [log|] eqn:Hm; [|done].
  destruct (publish_ngrams _ _ _ _ _ _) as [idx []] eqn:Hp; try done.
  by intros [= <- <-].
Qed.

(** A returning [delete_record] on a store of shape [packed]: it returns
    true after it set the marker 0 of a key below [k] to [o + 1] and
    committed one byte, and false after it only claimed one byte. *)
Lemma delete_record_shape (internal_key : Z) (s : log_store) (b : bool)
    (s' : log_store) (k o o' : Z) :
  packed MAX_KEYS LOG_SIZE s k o o' →
  delete_record LOG_SIZE internal_key s = Ret b s' →
  o + 1 < LOG_SIZE
  ∧ ((b = true ∧ internal_key < k ∧ deleted_ s !! internal_key = Some 0
      ∧ s' = LogStore (data_log_ s)
               (k * 2 ^ 32 + (o + 1)) (k * 2 ^ 32 + (o' + 1))
               (value_offsets_ s) (<[internal_key := o + 1]> (deleted_ s))
               (index_log_ s))
     ∨ (b = false
        ∧ (k ≤ internal_key
           ∨ ∃ d, deleted_ s !! internal_key = Some d ∧ d ≠ 0)
        ∧ s' = LogStore (data_log_ s)
                 (k * 2 ^ 32 + (o + 1)) (k * 2 ^ 32 + o')
                 (value_offsets_ s) (deleted_ s) (index_log_ s))).
Proof.
  intros Hp.
  pose proof (packed_off_u32 _ _ LOG_SIZE_u32 _ _ _ _ Hp) as [Ho Ho'].
  pose proof (packed_key_u32 _ _ MAX_KEYS_u32 _ _ _ _ Hp) as Hk.
  pose proof (packed_off _ _ _ _ _ _ Hp) as Hoo.
  pose proof (packed_room _ _ _ _ _ _ Hp) as Hroom.
  unfold delete_record, atomic_advance_write_tail.
  rewrite (packed_write _ _ _ _ _ _ Hp), tail_off_pack by done.
  rewrite shiftr_pack by done.
  rewrite u32_small by lia.
  destruct (LOG_SIZE <=? o + 1) eqn:Hfit; [done|]. apply Z.leb_gt in Hfit.
  replace (u64 (k * 2 ^ 32 + o + DEL_INCR)) with (k * 2 ^ 32 + (o + 1)).
  2:{ unfold DEL_INCR. rewrite <- Z.add_assoc. symmetry.
      apply u64_pack; lia. }
  destruct (Z.leb_spec k internal_key).
  - intros [= <- <-]. split; [done|]. right. repeat split; [by left|].
    unfold set_write_tail. by rewrite (packed_read _ _ _ _ _ _ Hp).
  - unfold invalidate_key, Tables.update. cbn.
    destruct (deleted_ s !! internal_key) as [d|] eqn:Hd; [|done].
    destruct (Z.eqb_spec d 0) as [->|Hne]; cbn; intros [= <- <-].
    + split; [done|]. left. repeat split; try done.
      rewrite atomic_advance_read_tail_eq.
      unfold set_read_tail, set_deleted, set_write_tail. cbn.
      rewrite (packed_read _ _ _ _ _ _ Hp). f_equal.
      unfold DEL_INCR. rewrite <- Z.add_assoc. apply u64_pack; lia.
    + split; [done|]. right. repeat split; [right; by eexists|].
      unfold set_deleted, set_write_tail. cbn.
      by rewrite (packed_read _ _ _ _ _ _ Hp).
Qed.

(** What a returning call does to a store of shape [packed]: it appends a
    value at the key [k] and the offset [o], or it sets the marker of a
    live key to [o + 1] and commits one byte, or it only claims one
    byte. *)
Lemma run_call_shape (c : call) (s s' : log_store) (k o o' : Z) :
  packed MAX_KEYS LOG_SIZE s k o o' →
  run_call MAX_KEYS LOG_SIZE NGRAM_N c s = Some s' →
  (∃ value, let n := u32 (Z.of_nat (length value)) in
     k < MAX_KEYS ∧ o + n < LOG_SIZE
     ∧ s' = LogStore
              (take (Z.to_nat o) (data_log_ s)
                 ++ take (Z.to_nat n) (c_str value)
                 ++ drop (Z.to_nat (o + n)) (data_log_ s))
              ((k + 1) * 2 ^ 32 + (o + n)) ((k + 1) * 2 ^ 32 + (o' + n))
              (<[k := o]> (value_offsets_ s)) (<[k := 0]> (deleted_ s))
              (index_log_ s')
     ∧ publish_ngrams NGRAM_N (length (data_log_ s') + 2) (data_log_ s')
         (index_log_ s) o (u32 (o + n - NGRAM_N))
       = (index_log_ s', Finished))
  ∨ (∃ i, o + 1 < LOG_SIZE ∧ i < k ∧ deleted_ s !! i = Some 0
          ∧ s' = LogStore (data_log_ s)
                   (k * 2 ^ 32 + (o + 1)) (k * 2 ^ 32 + (o' + 1))
                   (value_offsets_ s) (<[i := o + 1]> (deleted_ s))
                   (index_log_ s))
  ∨ (o + 1 < LOG_SIZE
     ∧ s' = LogStore (data_log_ s)
              (k * 2 ^ 32 + (o + 1)) (k * 2 ^ 32 + o')
              (value_offsets_ s) (deleted_ s) (index_log_ s)).
Proof.
  intros Hp Hc.
  pose proof (packed_off_u32 _ _ LOG_SIZE_u32 _ _ _ _ Hp) as [Ho Ho'].
  pose proof (packed_key_u32 _ _ MAX_KEYS_u32 _ _ _ _ Hp) as Hk.
  pose proof (packed_off _ _ _ _ _ _ Hp) as Hoo.
  pose proof (packed_room _ _ _ _ _ _ Hp) as Hroom.
  assert (∀ key value,
            append MAX_KEYS LOG_SIZE NGRAM_N key value s = Ret 0 s' →
            ∃ value, let n := u32 (Z.of_nat (length value)) in
              k < MAX_KEYS ∧ o + n < LOG_SIZE
              ∧ s' = LogStore
                       (take (Z.to_nat o) (data_log_ s)
                          ++ take (Z.to_nat n) (c_str value)
                          ++ drop (Z.to_nat (o + n)) (data_log_ s))
                       ((k + 1) * 2 ^ 32 + (o + n))
                       ((k + 1) * 2 ^ 32 + (o' + n))
                       (<[k := o]> (value_offsets_ s))
                       (<[k := 0]> (deleted_ s)) (index_log_ s')
              ∧ publish_ngrams NGRAM_N (length (data_log_ s') + 2)
                  (data_log_ s') (index_log_ s) o (u32 (o + n - NGRAM_N))
                = (index_log_ s', Finished)) as Happ.
  { intros key value Ha. exists value. intros n.
    pose proof (append_packed _ _ _ MAX_KEYS_u32 LOG_SIZE_u32
                  _ _ _ _ _ _ _ _ Hp Ha) as (_ & Hkey & Hfit & idx & Hs).
    fold n in Hfit, Hs. repeat split; try done.
    - by rewrite Hs.
    - unfold append in Ha.
      destruct (internal_append _ _ _ _ _) as [t s1| | |] eqn:Hi; try done.
      pose proof (internal_append_Ret_index _ _ _ _ Hi) as Hidx.
      apply (internal_append_packed _ _ _ MAX_KEYS_u32 LOG_SIZE_u32
               _ _ _ _ _ _ _ Hp) in Hi as (-> & _ & _ & idx1 & ->).
      injection Ha as <-. rewrite atomic_advance_read_tail_eq. cbn.
      cbn in Hidx. rewrite tail_off_pack in Hidx by done. fold n in Hidx.
      rewrite (u32_small (o + n)) in Hidx; [done|].
      pose proof (u32_range (Z.of_nat (length value))). fold n in H. lia. }
  destruct c as [key value|internal_key|internal_key value];
    cbv beta iota delta [run_call] in Hc.
  - destruct (append _ _ _ _ _ _) as [r s2| | |] eqn:Ha; try done.
    injection Hc as ->. left.
    assert (r = 0) as ->.
    { unfold append in Ha.
      destruct (internal_append _ _ _ _ _); try done. by injection Ha. }
    by eapply Happ.
  - destruct (delete_record _ _ _) as [b s2| | |] eqn:Ha; try done.
    injection Hc as ->. right.
    destruct (delete_record_shape _ _ _ _ _ _ _ Hp Ha)
      as (Hfit & [(_ & Hi & Hd & ->)|(_ & _ & ->)]).
    + left. by exists internal_key.
    + by right.
  - destruct (update_record _ _ _ _ _ _) as [r s2| | |] eqn:Ha; try done.
    injection Hc as ->. left.
    apply (update_record_Ret _ _ _ _ _ 0) in Ha as (Ha & _).
    by eapply Happ.
Qed.

(** A property that every step of shape [run_call_shape] keeps holds
    along a run. *)
Lemma run_invariant (P : log_store → Prop) (cs : list call)
    (s s' : log_store) :
  (∀ c s s' k o o',
     packed MAX_KEYS LOG_SIZE s k o o' → P s →
     run_call MAX_KEYS LOG_SIZE NGRAM_N c s = Some s' → P s') →
  (∃ k o o', packed MAX_KEYS LOG_SIZE s k o o') → P s →
  run MAX_KEYS LOG_SIZE NGRAM_N cs s = Some s' → P s'.
Proof.
  intros Hstep. revert s. induction cs as [|c cs IH]; intros s Hp HP; cbn.
  - by intros [= <-].
  - destruct (run_call _ _ _ c s) as [s1|] eqn:Hc; [|done].
    apply IH.
    + apply (run_packed _ _ NGRAM_N MAX_KEYS_u32 LOG_SIZE_u32 [c] s s1 Hp).
      cbn. by rewrite Hc.
    + destruct Hp as (k & o & o' & Hp). by eapply Hstep.
Qed.


(** Reachable stores are closed under calls that return. *)
Lemma reachable_step (c : call) (s s' : log_store) :
  reachable MAX_KEYS LOG_SIZE NGRAM_N s →
  run_call MAX_KEYS LOG_SIZE NGRAM_N c s = Some s' →
  reachable MAX_KEYS LOG_SIZE NGRAM_N s'.
Proof.
  intros (junk & cs & Hl & Hr) Hc. exists junk, (cs ++ [c]).
  split; [done|]. rewrite run_app, Hr. cbn. by rewrite Hc.
Qed.

Lemma reachable_run (cs : list call) (s s' : log_store) :
  reachable MAX_KEYS LOG_SIZE NGRAM_N s →
  run MAX_KEYS LOG_SIZE NGRAM_N cs s = Some s' →
  reachable MAX_KEYS LOG_SIZE NGRAM_N s'.
Proof.
  intros (junk & cs0 & Hl & Hr) Hc. exists junk, (cs0 ++ cs).
  split; [done|]. rewrite run_app, Hr. done.
Qed.

(** A relation between the first and the current store that every call
    extends holds along a run from a reachable store. *)
Lemma run_relation (R : log_store → log_store → Prop) (cs : list call)
    (s s' : log_store) :
  (∀ s, R s s) →
  (∀ c s0 s s' k o o',
     reachable MAX_KEYS LOG_SIZE NGRAM_N s →
     packed MAX_KEYS LOG_SIZE s k o o' → R s0 s →
     run_call MAX_KEYS LOG_SIZE NGRAM_N c s = Some s' → R s0 s') →
  reachable MAX_KEYS LOG_SIZE NGRAM_N s →
  run MAX_KEYS LOG_SIZE NGRAM_N cs s = Some s' → R s s'.
Proof.
  intros Hrefl Hstep Hr.
  assert (∀ cs s1, reachable MAX_KEYS LOG_SIZE NGRAM_N s1 → R s s1 →
            run MAX_KEYS LOG_SIZE NGRAM_N cs s1 = Some s' → R s s') as Hgen.
  { clear cs. intros cs. induction cs as [|c cs IH]; intros s1 Hr1 HR; cbn.
    - by intros [= <-].
    - destruct (run_call _ _ _ c s1) as [s2|] eqn:Hc; [|done].
      apply IH; [by eapply reachable_step|].
      destruct (reachable_packed _ _ _ MAX_KEYS_u32 LOG_SIZE_u32 _ Hr1)
        as (k & o & o' & Hp).
      by eapply Hstep. }
  intros Hrun. by eapply Hgen.
Qed.

(** A property of new stores that every call keeps holds in every
    reachable store. *)
Lemma reachable_invariant (P : log_store → Prop) (s : log_store) :
  (∀ junk, Z.of_nat (length junk) = LOG_SIZE → P (log_store_new junk)) →
  (∀ c s s' k o o',
     reachable MAX_KEYS LOG_SIZE NGRAM_N s →
     packed MAX_KEYS LOG_SIZE s k o o' → P s →
     run_call MAX_KEYS LOG_SIZE NGRAM_N c s = Some s' → P s') →
  reachable MAX_KEYS LOG_SIZE NGRAM_N s → P s.
Proof.
  intros Hnew Hstep (junk & cs & Hl & Hr).
  assert (reachable MAX_KEYS LOG_SIZE NGRAM_N (log_store_new junk)) as Hr0.
  { exists junk, []. done. }
  assert (∀ cs s1, reachable MAX_KEYS LOG_SIZE NGRAM_N s1 → P s1 →
            run MAX_KEYS LOG_SIZE NGRAM_N cs s1 = Some s → P s) as Hgen.
  { clear cs Hr. intros cs. induction cs as [|c cs IH]; intros s1 Hr1 HP; cbn.
    - by intros [= <-].
    - destruct (run_call _ _ _ c s1) as [s2|] eqn:Hc; [|done].
      apply IH; [by eapply reachable_step|].
      destruct (reachable_packed _ _ _ MAX_KEYS_u32 LOG_SIZE_u32 _ Hr1)
        as (k & o & o' & Hp).
      by eapply Hstep. }
  eapply Hgen; [exact Hr0|by apply Hnew|exact Hr].
Qed.

(** The tails of a store of shape [packed]. *)
Lemma packed_tails (s : log_store) (k o o' : Z) :
  packed MAX_KEYS LOG_SIZE s k o o' →
  tail_key (write_tail_ s) = k ∧ tail_off (write_tail_ s) = o
  ∧ tail_key (read_tail_ s) = k ∧ tail_off (read_tail_ s) = o'.
Proof.
  intros Hp.
  pose proof (packed_off_u32 _ _ LOG_SIZE_u32 _ _ _ _ Hp) as [Ho Ho'].
  pose proof (packed_key_u32 _ _ MAX_KEYS_u32 _ _ _ _ Hp) as Hk.
  rewrite (packed_write _ _ _ _ _ _ Hp), (packed_read _ _ _ _ _ _ Hp).
  by rewrite !tail_key_pack, !tail_off_pack.
Qed.

(** ** The tails *)

(** X2.  In every reachable store the two tails hold the same key counter,
    at most [MAX_KEYS]; the committed size is at most the claimed offset,
    which is below [LOG_SIZE] unless it is 0; and [get_gap] is the number of
    bytes claimed and not committed. *)
Theorem tails_of_reachable (s : log_store) :
  reachable MAX_KEYS LOG_SIZE NGRAM_N s →
  tail_key (write_tail_ s) = get_num_keys s
  ∧ 0 ≤ get_num_keys s ≤ MAX_KEYS
  ∧ 0 ≤ get_size s ≤ tail_off (write_tail_ s)
  ∧ (tail_off (write_tail_ s) < LOG_SIZE ∨ tail_off (write_tail_ s) = 0)
  ∧ get_gap s = tail_off (write_tail_ s) - get_size s.
Proof.
  intros Hr.
  apply (reachable_packed _ _ _ MAX_KEYS_u32 LOG_SIZE_u32) in Hr
    as (k & o & o' & Hp).
  pose proof (packed_tails _ _ _ _ Hp) as (Hwk & Hwo & Hrk & Hro).
  pose proof (packed_off_u32 _ _ LOG_SIZE_u32 _ _ _ _ Hp) as [Ho Ho'].
  unfold get_num_keys, get_size, get_gap. rewrite Hwk, Hwo, Hrk, Hro.
  repeat split; try apply Hp.
  rewrite (packed_write _ _ _ _ _ _ Hp), (packed_read _ _ _ _ _ _ Hp).
  replace (k * 2 ^ 32 + o - (k * 2 ^ 32 + o')) with (o - o') by lia.
  pose proof (packed_off _ _ _ _ _ _ Hp).
  unfold u64. apply Z.mod_small. change (2 ^ 64) with (2 ^ 32 * 2 ^ 32). nia.
Qed.

(** ** The keys of the tables *)

Lemma reachable_domain (s : log_store) (i : Z) :
  reachable MAX_KEYS LOG_SIZE NGRAM_N s →
  is_Some (value_offsets_ s !! i) ∨ is_Some (deleted_ s !! i) →
  0 ≤ i < get_num_keys s.
Proof.
  intros Hr. revert i.
  apply (reachable_invariant
           (λ s, ∀ i, is_Some (value_offsets_ s !! i)
                      ∨ is_Some (deleted_ s !! i) → 0 ≤ i < get_num_keys s));
    [| |exact Hr].
  - intros junk _ i. cbn. rewrite !lookup_empty.
    intros [[? [=]]|[? [=]]].
  - clear s Hr. intros c s s' k o o' _ Hp IH Hc i.
    pose proof (packed_tails _ _ _ _ Hp) as (_ & _ & Hrk & _).
    pose proof (packed_off_u32 _ _ LOG_SIZE_u32 _ _ _ _ Hp) as [Ho Ho'].
    pose proof (packed_key_u32 _ _ MAX_KEYS_u32 _ _ _ _ Hp) as Hk.
    pose proof (packed_off _ _ _ _ _ _ Hp) as Hoo.
    unfold get_num_keys in IH |- *. rewrite Hrk in IH.
    destruct (run_call_shape _ _ _ _ _ _ Hp Hc)
      as [(value & Hkey & Hfit & -> & _)
         |[(j & Hfit & Hj & Hd & ->)|(Hfit & ->)]]; cbn.
    + pose proof (u32_range (Z.of_nat (length value))).
      rewrite tail_key_pack by lia.
      rewrite !lookup_insert_is_Some.
      intros [[->|[_ Hi]]|[->|[_ Hi]]]; try lia.
      * specialize (IH i (or_introl Hi)). lia.
      * specialize (IH i (or_intror Hi)). lia.
    + rewrite tail_key_pack by lia.
      rewrite lookup_insert_is_Some.
      intros [Hi|[->|[_ Hi]]].
      * apply IH. by left.
      * apply IH. right. by eexists.
      * apply IH. by right.
    + rewrite tail_key_pack by lia. apply IH.
Qed.

(** X3.  The keys are dense: in every reachable store the offset table and
    the delete table hold exactly the keys from 0 to [get_num_keys - 1]. *)
Theorem keys_are_dense (s : log_store) (i : Z) :
  reachable MAX_KEYS LOG_SIZE NGRAM_N s →
  (is_Some (value_offsets_ s !! i) ↔ 0 ≤ i < get_num_keys s)
  ∧ (is_Some (deleted_ s !! i) ↔ 0 ≤ i < get_num_keys s).
Proof.
  intros Hr.
  pose proof (reachable_domain s i Hr) as Hdom.
  apply (reachable_packed _ _ _ MAX_KEYS_u32 LOG_SIZE_u32) in Hr
    as (k & o & o' & Hp).
  pose proof (packed_tails _ _ _ _ Hp) as (_ & _ & Hrk & _).
  unfold get_num_keys in *. rewrite Hrk in *.
  split; split.
  - intros Hi. apply Hdom. by left.
  - intros Hi. destruct (packed_offsets _ _ _ _ _ _ Hp i Hi) as (a & Ha & _).
    by eexists.
  - intros Hi. apply Hdom. by right.
  - apply (packed_deleted _ _ _ _ _ _ Hp).
Qed.

(** ** Delete markers *)

Lemma reachable_markers (s : log_store) (i a d : Z) :
  reachable MAX_KEYS LOG_SIZE NGRAM_N s →
  value_offsets_ s !! i = Some a → deleted_ s !! i = Some d →
  d = 0 ∨ a < d ≤ tail_off (write_tail_ s).
Proof.
  intros Hr. revert i a d.
  apply (reachable_invariant
           (λ s, ∀ i a d, value_offsets_ s !! i = Some a →
                   deleted_ s !! i = Some d →
                   d = 0 ∨ a < d ≤ tail_off (write_tail_ s)));
    [| |exact Hr].
  - intros junk _ i a d. cbn. by rewrite lookup_empty.
  - clear s Hr. intros c s s' k o o' Hr Hp IH Hc.
    pose proof (packed_tails _ _ _ _ Hp) as (_ & Hwo & Hrk & _).
    pose proof (packed_off_u32 _ _ LOG_SIZE_u32 _ _ _ _ Hp) as [Ho Ho'].
    pose proof (packed_key_u32 _ _ MAX_KEYS_u32 _ _ _ _ Hp) as Hk.
    pose proof (packed_off _ _ _ _ _ _ Hp) as Hoo.
    rewrite Hwo in IH. intros i a d.
    destruct (run_call_shape _ _ _ _ _ _ Hp Hc)
      as [(value & Hkey & Hfit & -> & _)
         |[(j & Hfit & Hj & Hd & ->)|(Hfit & ->)]]; cbn.
    + pose proof (u32_range (Z.of_nat (length value))).
      rewrite tail_off_pack by lia.
      destruct (decide (i = k)) as [->|Hne].
      * rewrite !lookup_insert_eq. intros _ [= <-]. by left.
      * rewrite !lookup_insert_ne by done. intros Ha Hd.
        destruct (IH i a d Ha Hd); [by left|right; lia].
    + rewrite tail_off_pack by lia.
      destruct (decide (i = j)) as [->|Hne].
      * rewrite lookup_insert_eq. intros Ha [= <-]. right.
        destruct (packed_offsets _ _ _ _ _ _ Hp j) as (a' & Ha' & Hle).
        { pose proof (reachable_domain s j Hr) as Hdom.
          unfold get_num_keys in Hdom. rewrite Hrk in Hdom.
          apply Hdom. right. by eexists. }
        simplify_eq. lia.
      * rewrite lookup_insert_ne by done. intros Ha Hd'.
        destruct (IH i a d Ha Hd'); [by left|right; lia].
    + rewrite tail_off_pack by lia. intros Ha Hd.
      destruct (IH i a d Ha Hd); [by left|right; lia].
Qed.

(** X4.  In every reachable store the marker of a key is 0, or it lies above
    the offset of the key and is at most the claimed offset. *)
Theorem delete_markers_above_offsets (s : log_store) (i a d : Z) :
  reachable MAX_KEYS LOG_SIZE NGRAM_N s →
  value_offsets_ s !! i = Some a → deleted_ s !! i = Some d →
  d = 0 ∨ a < d ≤ tail_off (write_tail_ s).
Proof. apply reachable_markers. Qed.


(** ** What a run keeps *)

Lemma get_offsets_add_offset (idx : gmap (list Z) (list Z))
    (gram : list Z) (off : Z) (g : list Z) :
  Ngram.get_offsets (Ngram.add_offset idx gram off) g
  = if decide (g = gram) then Ngram.get_offsets idx g ++ [off]
    else Ngram.get_offsets idx g.
Proof.
  unfold Ngram.add_offset, Ngram.get_offsets at 1.
  destruct (decide (g = gram)) as [->|Hne].
  - by rewrite lookup_insert_eq.
  - by rewrite lookup_insert_ne.
Qed.

Lemma publish_ngrams_prefix (fuel : nat) (log : list Z)
    (idx : gmap (list Z) (list Z)) (i bound : Z) (g : list Z) :
  Ngram.get_offsets idx g
  `prefix_of` Ngram.get_offsets
                (publish_ngrams NGRAM_N fuel log idx i bound).1 g.
Proof.
  revert idx i. induction fuel as [|fuel IH]; intros idx i; cbn; [done|].
  destruct (i <=? bound); [|done].
  destruct (bytes_at log i NGRAM_N) as [gram|]; [|done].
  etrans; [|apply IH]. rewrite get_offsets_add_offset.
  case_decide; [by apply prefix_app_r|done].
Qed.

Lemma run_extends (cs : list call) (s s' : log_store) :
  reachable MAX_KEYS LOG_SIZE NGRAM_N s →
  run MAX_KEYS LOG_SIZE NGRAM_N cs s = Some s' →
  get_num_keys s ≤ get_num_keys s'
  ∧ get_size s ≤ get_size s'
  ∧ tail_off (write_tail_ s) ≤ tail_off (write_tail_ s')
  ∧ (∀ i a, value_offsets_ s !! i = Some a → value_offsets_ s' !! i = Some a)
  ∧ (∀ i d, deleted_ s !! i = Some d → d ≠ 0 → deleted_ s' !! i = Some d)
  ∧ take (Z.to_nat (tail_off (write_tail_ s))) (data_log_ s')
    = take (Z.to_nat (tail_off (write_tail_ s))) (data_log_ s)
  ∧ (∀ g, Ngram.get_offsets (index_log_ s) g
          `prefix_of` Ngram.get_offsets (index_log_ s') g).
Proof.
  apply (run_relation
           (λ s s',
              get_num_keys s ≤ get_num_keys s'
              ∧ get_size s ≤ get_size s'
              ∧ tail_off (write_tail_ s) ≤ tail_off (write_tail_ s')
              ∧ (∀ i a, value_offsets_ s !! i = Some a →
                        value_offsets_ s' !! i = Some a)
              ∧ (∀ i d, deleted_ s !! i = Some d → d ≠ 0 →
                        deleted_ s' !! i = Some d)
              ∧ take (Z.to_nat (tail_off (write_tail_ s))) (data_log_ s')
                = take (Z.to_nat (tail_off (write_tail_ s))) (data_log_ s)
              ∧ (∀ g, Ngram.get_offsets (index_log_ s) g
                      `prefix_of` Ngram.get_offsets (index_log_ s') g))).
  - intros s0. repeat split; try done; lia.
  - clear cs s s'. intros c s0 s s' k o o' Hr Hp
      (Hkeys & Hsize & Hoff & Hoffs & Hdel & Hlog & Hidx) Hc.
    pose proof (packed_tails _ _ _ _ Hp) as (Hwk & Hwo & Hrk & Hro).
    pose proof (packed_off_u32 _ _ LOG_SIZE_u32 _ _ _ _ Hp) as [Ho Ho'].
    pose proof (packed_key_u32 _ _ MAX_KEYS_u32 _ _ _ _ Hp) as Hk.
    pose proof (packed_off _ _ _ _ _ _ Hp) as Hoo.
    pose proof (packed_log _ _ _ _ _ _ Hp) as Hlen.
    pose proof (packed_room _ _ _ _ _ _ Hp) as Hroom.
    assert (∀ i, is_Some (value_offsets_ s !! i)
                 ∨ is_Some (deleted_ s !! i) → 0 ≤ i < k) as Hdom.
    { intros i Hi. pose proof (reachable_domain s i Hr Hi) as H.
      unfold get_num_keys in H. by rewrite Hrk in H. }
    unfold get_num_keys, get_size in *. rewrite Hrk, Hro in *.
    rewrite Hwo in *.
    destruct (run_call_shape _ _ _ _ _ _ Hp Hc)
      as [(value & Hkey & Hfit & Hs & Hpub)
         |[(j & Hfit & Hj & Hd & ->)|(Hfit & ->)]]; cbn.
    + pose proof (u32_range (Z.of_nat (length value))) as Hn.
      rewrite Hs. cbn.
      rewrite tail_key_pack, !tail_off_pack by lia.
      repeat split; try lia.
      * intros i a Ha. specialize (Hoffs i a Ha).
        rewrite lookup_insert_ne; [done|].
        intros <-. specialize (Hdom k (or_introl (mk_is_Some _ _ Hoffs))). lia.
      * intros i d Hd Hne. specialize (Hdel i d Hd Hne).
        rewrite lookup_insert_ne; [done|].
        intros <-. specialize (Hdom k (or_intror (mk_is_Some _ _ Hdel))). lia.
      * rewrite <- Hlog.
        rewrite take_app_le by (rewrite length_take; lia).
        rewrite take_take. f_equal. lia.
      * intros g. etrans; [apply Hidx|].
        pose proof (publish_ngrams_prefix
                      (length (data_log_ s') + 2) (data_log_ s')
                      (index_log_ s) o
                      (u32 (o + u32 (Z.of_nat (length value)) - NGRAM_N)) g)
          as Hpre.
        cbn in Hpub. rewrite Hpub in Hpre. done.
    + rewrite tail_key_pack, !tail_off_pack by lia.
      repeat split; try lia; try done.
      intros i d Hd' Hne. specialize (Hdel i d Hd' Hne).
      rewrite lookup_insert_ne; [done|]. intros <-. simplify_eq.
    + rewrite tail_key_pack, !tail_off_pack by lia.
      repeat split; try lia; done.
Qed.


(** X5.  Along a run from a reachable store the number of keys and the
    committed size do not decrease, every key keeps its offset, and the
    bytes of the log below the claimed offset stay as they are. *)
Theorem keys_and_bytes_are_kept (cs : list call) (s s' : log_store) :
  reachable MAX_KEYS LOG_SIZE NGRAM_N s →
  run MAX_KEYS LOG_SIZE NGRAM_N cs s = Some s' →
  get_num_keys s ≤ get_num_keys s'
  ∧ get_size s ≤ get_size s'
  ∧ (∀ i a, value_offsets_ s !! i = Some a → value_offsets_ s' !! i = Some a)
  ∧ (∀ p c, 0 ≤ p < tail_off (write_tail_ s) →
            data_log_ s !! Z.to_nat p = Some c →
            data_log_ s' !! Z.to_nat p = Some c).
Proof.
  intros Hr Hrun.
  destruct (run_extends cs s s' Hr Hrun)
    as (Hkeys & Hsize & _ & Hoffs & _ & Hlog & _).
  repeat split; try done.
  intros p c Hp Hc.
  assert (take (Z.to_nat (tail_off (write_tail_ s))) (data_log_ s')
            !! Z.to_nat p = Some c) as Hc'.
  { rewrite Hlog. apply lookup_take_Some. split; [done|lia]. }
  by apply lookup_take_Some in Hc' as [Hc' _].
Qed.

(** X6.  A delete marker that is set stays as it is along a run. *)
Theorem markers_are_kept (cs : list call) (s s' : log_store) (i d : Z) :
  reachable MAX_KEYS LOG_SIZE NGRAM_N s →
  run MAX_KEYS LOG_SIZE NGRAM_N cs s = Some s' →
  deleted_ s !! i = Some d → d ≠ 0 →
  deleted_ s' !! i = Some d.
Proof.
  intros Hr Hrun.
  destruct (run_extends cs s s' Hr Hrun) as (_ & _ & _ & _ & Hdel & _).
  apply Hdel.
Qed.

(** X7.  The posting lists only grow along a run: the list of a gram in the
    first store is a prefix of its list in the last one. *)
Theorem postings_only_grow (cs : list call) (s s' : log_store)
    (gram : list Z) :
  reachable MAX_KEYS LOG_SIZE NGRAM_N s →
  run MAX_KEYS LOG_SIZE NGRAM_N cs s = Some s' →
  Ngram.get_offsets (index_log_ s) gram
  `prefix_of` Ngram.get_offsets (index_log_ s') gram.
Proof.
  intros Hr Hrun.
  destruct (run_extends cs s s' Hr Hrun) as (_ & _ & _ & _ & _ & _ & Hidx).
  apply Hidx.
Qed.

(** ** Deleted keys *)

Lemma packed_gap (s : log_store) (k o o' : Z) :
  packed MAX_KEYS LOG_SIZE s k o o' → get_gap s = o - o'.
Proof.
  intros Hp.
  pose proof (packed_off_u32 _ _ LOG_SIZE_u32 _ _ _ _ Hp) as [Ho Ho'].
  pose proof (packed_off _ _ _ _ _ _ Hp).
  unfold get_gap.
  rewrite (packed_write _ _ _ _ _ _ Hp), (packed_read _ _ _ _ _ _ Hp).
  replace (k * 2 ^ 32 + o - (k * 2 ^ 32 + o')) with (o - o') by lia.
  unfold u64. apply Z.mod_small. change (2 ^ 64) with (2 ^ 32 * 2 ^ 32). nia.
Qed.

(** The store after [delete_record] returned true, and what a later run
    keeps of it: the key is below the number of keys, and its marker is
    not 0 and at most one more than the claimed offset before the call. *)
Lemma delete_record_true_later (internal_key : Z) (cs : list call)
    (s s' s'' : log_store) :
  reachable MAX_KEYS LOG_SIZE NGRAM_N s →
  delete_record LOG_SIZE internal_key s = Ret true s' →
  run MAX_KEYS LOG_SIZE NGRAM_N cs s' = Some s'' →
  reachable MAX_KEYS LOG_SIZE NGRAM_N s''
  ∧ internal_key < get_num_keys s''
  ∧ ∃ d, deleted_ s'' !! internal_key = Some d ∧ d ≠ 0
         ∧ d = tail_off (write_tail_ s) + 1
         ∧ get_size s + 1 ≤ get_size s''.
Proof.
  intros Hr Hd Hrun.
  assert (reachable MAX_KEYS LOG_SIZE NGRAM_N s') as Hr'.
  { apply (reachable_step (CallDelete internal_key) s s' Hr).
    cbv beta iota delta [run_call]. by rewrite Hd. }
  destruct (reachable_packed _ _ _ MAX_KEYS_u32 LOG_SIZE_u32 _ Hr)
    as (k & o & o' & Hp).
  pose proof (packed_tails _ _ _ _ Hp) as (Hwk & Hwo & Hrk & Hro).
  pose proof (packed_off_u32 _ _ LOG_SIZE_u32 _ _ _ _ Hp) as [Ho Ho'].
  pose proof (packed_key_u32 _ _ MAX_KEYS_u32 _ _ _ _ Hp) as Hk.
  pose proof (packed_off _ _ _ _ _ _ Hp) as Hoo.
  destruct (delete_record_shape _ _ _ _ _ _ _ Hp Hd)
    as (Hfit & [(_ & Hi & Hd0 & Hs)|([=] & _)]).
  destruct (run_extends cs s' s'' Hr' Hrun)
    as (Hkeys & Hsize & _ & _ & Hdel & _).
  rewrite Hs in Hkeys, Hsize, Hdel. unfold get_num_keys, get_size in *.
  cbn in Hkeys, Hsize, Hdel.
  rewrite tail_key_pack in Hkeys by lia. rewrite tail_off_pack in Hsize by lia.
  rewrite Hwo, Hro. split; [by eapply reachable_run|]. split; [lia|].
  exists (o + 1). repeat split; try lia.
  apply Hdel; [by rewrite lookup_insert_eq|lia].
Qed.

(** X8.  After [delete_record(i)] returned true on a reachable store without
    uncommitted bytes, every later [get(i)] misses. *)
Theorem deleted_key_stays_missing (internal_key : Z) (cs : list call)
    (s s' s'' : log_store) :
  reachable MAX_KEYS LOG_SIZE NGRAM_N s →
  get_gap s = 0 →
  delete_record LOG_SIZE internal_key s = Ret true s' →
  run MAX_KEYS LOG_SIZE NGRAM_N cs s' = Some s'' →
  get internal_key s'' = Done None.
Proof.
  intros Hr Hgap Hd Hrun.
  destruct (delete_record_true_later _ _ _ _ _ Hr Hd Hrun)
    as (_ & Hi & d & Hd'' & Hne & -> & Hsize).
  destruct (reachable_packed _ _ _ MAX_KEYS_u32 LOG_SIZE_u32 _ Hr)
    as (k & o & o' & Hp).
  pose proof (packed_tails _ _ _ _ Hp) as (_ & Hwo & _ & Hro).
  rewrite (packed_gap _ _ _ _ Hp) in Hgap.
  unfold get_size in Hsize. rewrite Hro in Hsize. rewrite Hwo in *.
  unfold get. fold (get_num_keys s'').
  destruct (Z.leb_spec (get_num_keys s'') internal_key); [lia|].
  unfold Tables.get. rewrite Hd''.
  cbv beta iota delta [access mbind result_mbind result_bind].
  destruct (Z.eqb_spec (o + 1) 0); [lia|].
  destruct (Z.leb_spec (o + 1) (tail_off (read_tail_ s''))); [done|lia].
Qed.

(** X9.  A key is deleted at most once: after [delete_record(i)] returned
    true, every later [delete_record(i)] returns false, or throws because
    the log is full. *)
Theorem delete_record_wins_once (internal_key : Z) (cs : list call)
    (s s' s'' : log_store) :
  reachable MAX_KEYS LOG_SIZE NGRAM_N s →
  delete_record LOG_SIZE internal_key s = Ret true s' →
  run MAX_KEYS LOG_SIZE NGRAM_N cs s' = Some s'' →
  match delete_record LOG_SIZE internal_key s'' with
  | Ret b _ => b = false
  | Throw _ => True
  | Crashed _ | TimedOut _ => False
  end.
Proof.
  intros Hr Hd Hrun.
  destruct (delete_record_true_later _ _ _ _ _ Hr Hd Hrun)
    as (Hr'' & _ & d & Hd'' & Hne & _).
  destruct (reachable_packed _ _ _ MAX_KEYS_u32 LOG_SIZE_u32 _ Hr'')
    as (k & o & o' & Hp).
  pose proof (packed_off_u32 _ _ LOG_SIZE_u32 _ _ _ _ Hp) as [Ho Ho'].
  pose proof (packed_key_u32 _ _ MAX_KEYS_u32 _ _ _ _ Hp) as Hk.
  pose proof (packed_room _ _ _ _ _ _ Hp) as Hroom.
  unfold delete_record, atomic_advance_write_tail.
  rewrite (packed_write _ _ _ _ _ _ Hp), tail_off_pack by done.
  rewrite shiftr_pack by done.
  rewrite u32_small by lia.
  destruct (LOG_SIZE <=? o + 1); [done|].
  destruct (Z.leb_spec k internal_key); [done|].
  unfold invalidate_key, Tables.update. cbn. rewrite Hd''.
  by destruct (Z.eqb_spec d 0).
Qed.


(** ** get *)

(** Inside the log the copy loop of [get] returns the longest prefix
    without zero byte of the [n] bytes it is given. *)
Lemma copy_value_spec (log : list Z) (p n : nat) :
  (p + n ≤ length log)%nat →
  ∃ v, copy_value log (Z.of_nat p) n = Some v
       ∧ v `prefix_of` take n (drop p log)
       ∧ (0 ∉ v)
       ∧ (v = take n (drop p log)
          ∨ take n (drop p log) !! length v = Some 0).
Proof.
  revert p. induction n as [|n IH]; intros p Hfit; cbn [copy_value].
  - exists []. rewrite take_0. repeat split; [done|apply not_elem_of_nil|].
    by left.
  - destruct (lookup_lt_is_Some_2 log p ltac:(lia)) as [c Hc].
    unfold rd. rewrite Nat2Z.id, Hc.
    destruct (Z.leb_spec 0 (Z.of_nat p)); [|lia].
    destruct (Z.ltb_spec (Z.of_nat p) (Z.of_nat (length log))); [|lia].
    cbn [andb]. rewrite (drop_S _ _ _ Hc). cbn [take].
    destruct (Z.eqb_spec c 0) as [->|Hne].
    + exists []. repeat split; [apply prefix_nil|apply not_elem_of_nil|].
      by right.
    + destruct (IH (S p) ltac:(lia)) as (v & Hv & Hpre & Hnz & Hend).
      replace (Z.of_nat p + 1) with (Z.of_nat (S p)) by lia.
      rewrite Hv. exists (c :: v). repeat split.
      * by apply prefix_cons.
      * apply not_elem_of_cons. split; [done|done].
      * destruct Hend as [->|Hend]; [by left|by right].
Qed.

(** X10.  On a reachable store without uncommitted bytes [get] stays inside
    the tables and the log. It misses for a key that is not below
    [get_num_keys] and for a key whose marker is set and at most the
    committed size; for any other key it returns the bytes from the offset
    of the key to the offset of the next key (the committed size for the
    last key), up to their first zero byte. *)
Theorem get_reads_committed_bytes (internal_key : Z) (s : log_store) :
  reachable MAX_KEYS LOG_SIZE NGRAM_N s →
  get_gap s = 0 → 0 ≤ internal_key →
  (get_num_keys s ≤ internal_key ∧ get internal_key s = Done None)
  ∨ (internal_key < get_num_keys s
     ∧ ∃ start end_ d,
         value_offsets_ s !! internal_key = Some start
         ∧ deleted_ s !! internal_key = Some d
         ∧ (internal_key + 1 < get_num_keys s →
            value_offsets_ s !! (internal_key + 1) = Some end_)
         ∧ (get_num_keys s ≤ internal_key + 1 → end_ = get_size s)
         ∧ 0 ≤ start ≤ end_ ∧ end_ ≤ get_size s
         ∧ ((d ≠ 0 ∧ d ≤ get_size s ∧ get internal_key s = Done None)
            ∨ ((d = 0 ∨ get_size s < d)
               ∧ ∃ v, get internal_key s = Done (Some v)
                      ∧ v `prefix_of`
                          take (Z.to_nat (end_ - start))
                               (drop (Z.to_nat start) (data_log_ s))
                      ∧ (0 ∉ v)
                      ∧ (v = take (Z.to_nat (end_ - start))
                                  (drop (Z.to_nat start) (data_log_ s))
                         ∨ take (Z.to_nat (end_ - start))
                                (drop (Z.to_nat start) (data_log_ s))
                             !! length v = Some 0)))).
Proof.
  intros Hr Hgap Hi.
  destruct (reachable_packed _ _ _ MAX_KEYS_u32 LOG_SIZE_u32 _ Hr)
    as (k & o & o' & Hp).
  pose proof (packed_tails _ _ _ _ Hp) as (_ & _ & Hrk & Hro).
  pose proof (packed_off_u32 _ _ LOG_SIZE_u32 _ _ _ _ Hp) as [Ho Ho'].
  pose proof (packed_key_u32 _ _ MAX_KEYS_u32 _ _ _ _ Hp) as Hk.
  pose proof (packed_log _ _ _ _ _ _ Hp) as Hlen.
  pose proof (packed_room _ _ _ _ _ _ Hp) as Hroom.
  rewrite (packed_gap _ _ _ _ Hp) in Hgap. assert (o' = o) as -> by lia.
  unfold get_num_keys, get_size, get. rewrite Hrk, Hro.
  destruct (Z.leb_spec k internal_key) as [Hge|Hlt]; [by left|right].
  split; [done|].
  destruct (packed_offsets _ _ _ _ _ _ Hp internal_key) as (a & Ha & Hao);
    [lia|].
  destruct (packed_deleted _ _ _ _ _ _ Hp internal_key) as [d Hd]; [lia|].
  assert (∃ e, (internal_key + 1 < k →
                value_offsets_ s !! (internal_key + 1) = Some e)
               ∧ (k ≤ internal_key + 1 → e = o) ∧ a ≤ e ≤ o
               ∧ (if internal_key + 1 <? k
                  then Tables.get (value_offsets_ s) (internal_key + 1)
                  else Done o) = Done e) as (e & He1 & He2 & Hae & Hend).
  { destruct (Z.ltb_spec (internal_key + 1) k) as [Hnext|Hlast].
    - destruct (packed_offsets _ _ _ _ _ _ Hp (internal_key + 1))
        as (e & He & Heo); [lia|].
      exists e. repeat split; try done; try lia.
      + apply (packed_sorted _ _ _ _ _ _ Hp internal_key (internal_key + 1));
          (lia || done).
      + unfold Tables.get. by rewrite He.
    - exists o. repeat split; try done; lia. }
  exists a, e, d. repeat split; try done; try lia.
  unfold Tables.get in Hend |- *. rewrite Hd, Ha.
  rewrite (u32_small (internal_key + 1)) by lia. rewrite Hend.
  cbv beta iota delta [access mbind result_mbind result_bind].
  rewrite (u32_small (e - a)) by lia.
  destruct (copy_value_spec (data_log_ s) (Z.to_nat a) (Z.to_nat (e - a))
              ltac:(lia)) as (v & Hv & Hpre & Hnz & Hstop).
  rewrite Z2Nat.id in Hv by lia. rewrite Hv.
  destruct (Z.eqb_spec d 0) as [->|Hne]; cbn [negb andb].
  - right. split; [by left|]. by exists v.
  - destruct (Z.leb_spec d o) as [Hdo|Hdo]; [left; done|].
    right. split; [by right|]. by exists v.
Qed.


(** ** search *)

(** A key that [find_and_insert_key] inserts has a marker that is 0 or
    above [max_off]. *)
Lemma find_and_insert_key_live (keys : gset Z) (offset max_key max_off : Z)
    (s : log_store) (keys' : gset Z) :
  find_and_insert_key keys offset max_key max_off s = Done keys' →
  ∀ j, j ∈ keys' →
    j ∈ keys ∨ ∃ d, deleted_ s !! j = Some d ∧ (d = 0 ∨ max_off < d).
Proof.
  unfold find_and_insert_key.
  destruct (bsearch 33 _ _ _ _) as [lo| |];
    cbv beta iota delta [mbind result_mbind result_bind]; [|done..].
  unfold Tables.get, access.
  destruct (deleted_ s !! u32 (lo - 1)) as [d|] eqn:Hd; [|done].
  destruct (Z.eqb_spec d 0) as [->|Hne]; cbn [negb andb].
  - intros [= <-] j [->%elem_of_singleton|Hj]%elem_of_union; [|by left].
    right. exists 0. split; [done|by left].
  - destruct (Z.leb_spec d max_off) as [Hle|Hgt].
    + intros [= <-] j Hj. by left.
    + intros [= <-] j [->%elem_of_singleton|Hj]%elem_of_union; [|by left].
      right. exists d. split; [done|by right].
Qed.

Lemma scan_offsets_live (matches : Z → option bool) (max_key max_off : Z)
    (s : log_store) (offsets : list Z) (results results' : gset Z) :
  scan_offsets matches max_key max_off s offsets results = Done results' →
  ∀ j, j ∈ results' →
    j ∈ results ∨ ∃ d, deleted_ s !! j = Some d ∧ (d = 0 ∨ max_off < d).
Proof.
  revert results. induction offsets as [|off offsets IH]; intros results;
    cbn [scan_offsets].
  - intros [= <-] j Hj. by left.
  - destruct (off <? max_off); [|apply IH].
    destruct (matches off) as [[]|];
      cbv beta iota delta [access mbind result_mbind result_bind];
      [|apply IH|done].
    destruct (find_and_insert_key _ _ _ _ _) as [keys| |] eqn:Hf; [|done..].
    intros Hscan j Hj. destruct (IH _ Hscan j Hj) as [Hin|Hlive]; [|by right].
    by eapply find_and_insert_key_live.
Qed.

Lemma search_live (results : gset Z) (query : list Z) (s : log_store)
    (results' : gset Z) :
  search NGRAM_N results query s = Done results' →
  ∀ j, j ∈ results' →
    j ∈ results
    ∨ ∃ d, deleted_ s !! j = Some d ∧ (d = 0 ∨ get_size s < d).
Proof.
  unfold search, get_size.
  destruct (bytes_at (c_str query) 0 NGRAM_N) as [pg|];
    cbv beta iota delta [access mbind result_mbind result_bind]; [|done].
  destruct (bytes_at (c_str query) _ NGRAM_N) as [sg|]; [|done].
  destruct (_ <? _)%nat; apply scan_offsets_live.
Qed.

(** X11.  In a reachable store [search] only adds keys below [get_num_keys]
    whose delete marker is 0 or above the committed size. *)
Theorem search_returns_live_keys (results : gset Z) (query : list Z)
    (s : log_store) (results' : gset Z) (j : Z) :
  reachable MAX_KEYS LOG_SIZE NGRAM_N s →
  search NGRAM_N results query s = Done results' →
  j ∈ results' →
  j ∈ results
  ∨ (0 ≤ j < get_num_keys s
     ∧ ∃ d, deleted_ s !! j = Some d ∧ (d = 0 ∨ get_size s < d)).
Proof.
  intros Hr Hs Hj.
  destruct (search_live _ _ _ _ Hs j Hj) as [Hin|(d & Hd & Hlive)];
    [by left|right].
  split; [|by exists d].
  apply (reachable_domain s j Hr). right. by eexists.
Qed.

(** X12.  After [delete_record(i)] returned true on a reachable store
    without uncommitted bytes, no later [search] adds the key [i]. *)
Theorem deleted_key_stays_out_of_search (internal_key : Z) (cs : list call)
    (s s' s'' : log_store) (results : gset Z) (query : list Z)
    (results' : gset Z) :
  reachable MAX_KEYS LOG_SIZE NGRAM_N s →
  get_gap s = 0 →
  delete_record LOG_SIZE internal_key s = Ret true s' →
  run MAX_KEYS LOG_SIZE NGRAM_N cs s' = Some s'' →
  search NGRAM_N results query s'' = Done results' →
  internal_key ∉ results →
  internal_key ∉ results'.
Proof.
  intros Hr Hgap Hd Hrun Hs Hout Hin.
  destruct (delete_record_true_later _ _ _ _ _ Hr Hd Hrun)
    as (_ & Hi & d & Hd'' & Hne & -> & Hsize).
  destruct (reachable_packed _ _ _ MAX_KEYS_u32 LOG_SIZE_u32 _ Hr)
    as (k & o & o' & Hp).
  pose proof (packed_tails _ _ _ _ Hp) as (_ & Hwo & _ & Hro).
  rewrite (packed_gap _ _ _ _ Hp) in Hgap.
  unfold get_size in Hsize at 1. rewrite Hro in Hsize. rewrite Hwo in *.
  destruct (search_live _ _ _ _ Hs _ Hin) as [?|(d & Hd2 & Hlive)]; [done|].
  simplify_eq. lia.
Qed.

End Steps.

(** ** col_search *)

Section ColSearchFacts.

Variable NGRAM_N : Z.

(** The outcome of [col_search], with the vector read as a set. *)
Lemma find_and_insert_key_vector_set (keys : list Z)
    (offset max_key max_off : Z) (s : log_store) :
  find_and_insert_key (list_to_set keys) offset max_key max_off s
  = match find_and_insert_key_vector keys offset max_key max_off s with
    | Done l => Done (list_to_set l)
    | Fault => Fault
    | Timeout => Timeout
    end.
Proof.
  unfold find_and_insert_key, find_and_insert_key_vector.
  destruct (bsearch 33 _ _ _ _) as [lo| |];
    cbv beta iota delta [mbind result_mbind result_bind]; [|done..].
  destruct (Tables.get _ _) as [d| |]; [|done..].
  destruct (negb (d =? 0) && (d <=? max_off)); [done|].
  f_equal. apply set_eq. intros x.
  rewrite elem_of_union, elem_of_singleton, !elem_of_list_to_set.
  rewrite elem_of_app, list_elem_of_singleton. tauto.
Qed.

Lemma scan_offsets_vector_set (matches : Z → option bool)
    (max_key max_off : Z) (s : log_store) (offsets : list Z)
    (results : list Z) :
  scan_offsets matches max_key max_off s offsets (list_to_set results)
  = match scan_offsets_vector matches max_key max_off s offsets results with
    | Done l => Done (list_to_set l)
    | Fault => Fault
    | Timeout => Timeout
    end.
Proof.
  revert results. induction offsets as [|off offsets IH]; intros results;
    cbn [scan_offsets scan_offsets_vector]; [done|].
  destruct (off <? max_off); [|apply IH].
  destruct (matches off) as [[]|];
    cbv beta iota delta [access mbind result_mbind result_bind];
    [|apply IH|done].
  rewrite find_and_insert_key_vector_set.
  destruct (find_and_insert_key_vector _ _ _ _ _) as [l| |]; [|done..].
  apply IH.
Qed.

End ColSearchFacts.

(** ** Appending *)

Section Appending.

Variables MAX_KEYS LOG_SIZE NGRAM_N : Z.
Hypothesis MAX_KEYS_u32 : 0 ≤ MAX_KEYS < 2 ^ 32.
Hypothesis LOG_SIZE_u32 : 0 ≤ LOG_SIZE < 2 ^ 32.

(** The store that [append] leaves when the key counter and the log have
    room and the value ends at or after offset [NGRAM_N]. *)
Lemma append_room (key : Z) (value : list Z) (s : log_store) (k o o' : Z) :
  packed MAX_KEYS LOG_SIZE s k o o' →
  k < MAX_KEYS → o + Z.of_nat (length value) < LOG_SIZE →
  0 ≤ NGRAM_N ≤ o + Z.of_nat (length value) →
  let n := Z.of_nat (length value) in
  let log := take (Z.to_nat o) (data_log_ s) ++ value
               ++ drop (Z.to_nat (o + n)) (data_log_ s) in
  append MAX_KEYS LOG_SIZE NGRAM_N key value s
  = Ret 0 (LogStore log
             ((k + 1) * 2 ^ 32 + (o + n)) ((k + 1) * 2 ^ 32 + (o' + n))
             (<[k := o]> (value_offsets_ s)) (<[k := 0]> (deleted_ s))
             (fold_left
                (λ idx j, Ngram.add_offset idx
                            (take (Z.to_nat NGRAM_N) (drop (Z.to_nat j) log))
                            j)
                (seqZ o (n - NGRAM_N + 1)) (index_log_ s))).
Proof.
  intros Hp Hkey Hfit Hgram n log.
  pose proof (packed_off_u32 _ _ LOG_SIZE_u32 _ _ _ _ Hp) as [Ho Ho'].
  pose proof (packed_key_u32 _ _ MAX_KEYS_u32 _ _ _ _ Hp) as Hk.
  pose proof (packed_off _ _ _ _ _ _ Hp) as Hoo.
  pose proof (packed_log _ _ _ _ _ _ Hp) as Hlen.
  pose proof (packed_write _ _ _ _ _ _ Hp) as Hw.
  pose proof (packed_read _ _ _ _ _ _ Hp) as Hr.
  assert (u32 n = n) as Hn by (apply u32_small; lia).
  assert (length log = length (data_log_ s)) as Hlog.
  { unfold log. rewrite !length_app, length_take, length_drop. lia. }
  clear Hp.
  destruct s as [log0 w r offs del idx].
  cbn [data_log_ write_tail_ read_tail_ value_offsets_ deleted_ index_log_]
    in *.
  subst w r.
  unfold append, internal_append, atomic_advance_write_tail.
  cbv beta iota zeta.
  unfold set_index_log, set_data_log, set_deleted, set_value_offsets,
    set_write_tail.
  cbn [data_log_ write_tail_ read_tail_ value_offsets_ deleted_ index_log_].
  rewrite tail_key_pack, tail_off_pack by done.
  fold n. rewrite Hn, (u32_small (o + n)) by lia.
  destruct (Z.leb_spec MAX_KEYS k); [lia|].
  destruct (Z.leb_spec LOG_SIZE (o + n)); [lia|].
  cbn [orb]. unfold Tables.set, memcpy.
  destruct (Z.leb_spec 0 o); [|lia].
  destruct (Z.leb_spec (o + n) (Z.of_nat (length log0))); [|lia].
  cbn [andb].
  replace (take (Z.to_nat n) (c_str value)) with value.
  2:{ unfold c_str, n. by rewrite Nat2Z.id, take_app_length. }
  fold log.
  rewrite (u32_small (o + n - NGRAM_N)) by lia.
  rewrite publish_ngrams_in_range by lia.
  rewrite atomic_advance_read_tail_eq. unfold set_read_tail.
  cbn [data_log_ write_tail_ read_tail_ value_offsets_ deleted_ index_log_].
  rewrite !increment_tail_eq. fold n. rewrite Hn.
  replace (o + n - NGRAM_N + 1 - o) with (n - NGRAM_N + 1) by lia.
  f_equal. f_equal.
  - replace (k * 2 ^ 32 + o + (2 ^ 32 + n)) with ((k + 1) * 2 ^ 32 + (o + n))
      by lia.
    apply u64_pack; lia.
  - replace (k * 2 ^ 32 + o' + (2 ^ 32 + n))
      with ((k + 1) * 2 ^ 32 + (o' + n)) by lia.
    apply u64_pack; lia.
Qed.


Lemma get_offsets_fold (f : Z → list Z) (l : list Z)
    (idx : gmap (list Z) (list Z)) (g : list Z) :
  Ngram.get_offsets
    (fold_left (λ idx j, Ngram.add_offset idx (f j) j) l idx) g
  = Ngram.get_offsets idx g ++ filter (λ j, f j = g) l.
Proof.
  revert idx. induction l as [|j l IH]; intros idx; cbn [fold_left].
  - by rewrite filter_nil, app_nil_r.
  - rewrite IH, get_offsets_add_offset, filter_cons.
    destruct (decide (g = f j)) as [->|Hne].
    + rewrite decide_True by done. by rewrite <- app_assoc.
    + rewrite decide_False by done. done.
Qed.

(** X13.  [append] returns whenever a reachable store has room for the key
    and the bytes and the value ends at or after offset [NGRAM_N]: the value
    gets the next key, the claimed offset and the marker 0, its bytes are in
    the log, and the committed size grows by its length. *)
Theorem append_returns_when_room (key : Z) (value : list Z) (s : log_store) :
  reachable MAX_KEYS LOG_SIZE NGRAM_N s →
  get_num_keys s < MAX_KEYS →
  tail_off (write_tail_ s) + Z.of_nat (length value) < LOG_SIZE →
  0 ≤ NGRAM_N ≤ tail_off (write_tail_ s) + Z.of_nat (length value) →
  ∃ s',
    append MAX_KEYS LOG_SIZE NGRAM_N key value s = Ret 0 s'
    ∧ get_num_keys s' = get_num_keys s + 1
    ∧ get_size s' = get_size s + Z.of_nat (length value)
    ∧ value_offsets_ s' !! get_num_keys s = Some (tail_off (write_tail_ s))
    ∧ deleted_ s' !! get_num_keys s = Some 0
    ∧ take (length value)
           (drop (Z.to_nat (tail_off (write_tail_ s))) (data_log_ s'))
      = value.
Proof.
  intros Hr.
  destruct (reachable_packed _ _ _ MAX_KEYS_u32 LOG_SIZE_u32 _ Hr)
    as (k & o & o' & Hp).
  pose proof (packed_tails _ _ MAX_KEYS_u32 LOG_SIZE_u32 _ _ _ _ Hp)
    as (_ & Hwo & Hrk & Hro).
  pose proof (packed_off_u32 _ _ LOG_SIZE_u32 _ _ _ _ Hp) as [Ho Ho'].
  pose proof (packed_key_u32 _ _ MAX_KEYS_u32 _ _ _ _ Hp) as Hk.
  pose proof (packed_off _ _ _ _ _ _ Hp) as Hoo.
  pose proof (packed_log _ _ _ _ _ _ Hp) as Hlen.
  unfold get_num_keys, get_size. rewrite Hwo, Hrk, Hro.
  intros Hkey Hfit Hgram. eexists.
  split; [by apply (append_room key value s k o o' Hp)|].
  cbn [data_log_ write_tail_ read_tail_ value_offsets_ deleted_ index_log_].
  rewrite tail_key_pack, tail_off_pack by lia.
  rewrite !lookup_insert_eq. repeat split.
  rewrite drop_app_length'; [|rewrite length_take; lia].
  by rewrite take_app_length.
Qed.

(** X14.  Such an append publishes one posting for each position from the
    claimed offset to the last one at which a whole gram of the value
    starts, in this order, behind the postings that were there. *)
Theorem append_publishes_grams (key : Z) (value : list Z) (s : log_store)
    (gram : list Z) :
  reachable MAX_KEYS LOG_SIZE NGRAM_N s →
  get_num_keys s < MAX_KEYS →
  tail_off (write_tail_ s) + Z.of_nat (length value) < LOG_SIZE →
  0 ≤ NGRAM_N ≤ tail_off (write_tail_ s) + Z.of_nat (length value) →
  ∃ s',
    append MAX_KEYS LOG_SIZE NGRAM_N key value s = Ret 0 s'
    ∧ Ngram.get_offsets (index_log_ s') gram
      = Ngram.get_offsets (index_log_ s) gram
        ++ filter (λ j, take (Z.to_nat NGRAM_N)
                             (drop (Z.to_nat j) (data_log_ s')) = gram)
                  (seqZ (tail_off (write_tail_ s))
                        (Z.of_nat (length value) - NGRAM_N + 1)).
Proof.
  intros Hr.
  destruct (reachable_packed _ _ _ MAX_KEYS_u32 LOG_SIZE_u32 _ Hr)
    as (k & o & o' & Hp).
  pose proof (packed_tails _ _ MAX_KEYS_u32 LOG_SIZE_u32 _ _ _ _ Hp)
    as (_ & Hwo & Hrk & Hro).
  unfold get_num_keys. rewrite Hwo, Hrk.
  intros Hkey Hfit Hgram. eexists.
  split; [by apply (append_room key value s k o o' Hp)|].
  cbn [data_log_ index_log_]. apply get_offsets_fold.
Qed.

Lemma find_and_insert_key_set_write_tail (keys : gset Z)
    (offset max_key max_off : Z) (s : log_store) (w : Z) :
  find_and_insert_key keys offset max_key max_off (set_write_tail s w)
  = find_and_insert_key keys offset max_key max_off s.
Proof.
  unfold find_and_insert_key.
  change (value_offsets_ (set_write_tail s w)) with (value_offsets_ s).
  change (deleted_ (set_write_tail s w)) with (deleted_ s).
  reflexivity.
Qed.

Lemma scan_offsets_set_write_tail (matches : Z → option bool)
    (max_key max_off : Z) (s : log_store) (w : Z) (offsets : list Z)
    (results : gset Z) :
  scan_offsets matches max_key max_off (set_write_tail s w) offsets results
  = scan_offsets matches max_key max_off s offsets results.
Proof.
  revert results. induction offsets as [|off offsets IH]; intros results;
    cbn [scan_offsets]; [done|].
  destruct (off <? max_off); [|apply IH].
  destruct (matches off) as [[]|];
    cbv beta iota delta [access mbind result_mbind result_bind];
    [|apply IH|done].
  rewrite find_and_insert_key_set_write_tail.
  destruct (find_and_insert_key _ _ _ _ _); [apply IH|done..].
Qed.

Lemma search_set_write_tail (results : gset Z) (query : list Z)
    (s : log_store) (w : Z) :
  search NGRAM_N results query (set_write_tail s w)
  = search NGRAM_N results query s.
Proof.
  unfold search.
  change (read_tail_ (set_write_tail s w)) with (read_tail_ s).
  change (index_log_ (set_write_tail s w)) with (index_log_ s).
  change (data_log_ (set_write_tail s w)) with (data_log_ s).
  destruct (bytes_at (c_str query) 0 NGRAM_N) as [pg|];
    cbv beta iota delta [access mbind result_mbind result_bind]; [|done].
  destruct (bytes_at (c_str query) _ NGRAM_N) as [sg|]; [|done].
  destruct (_ <? _)%nat; apply scan_offsets_set_write_tail.
Qed.

(** X15.  On a reachable store on which the end offset of the value does not
    pass [2^32], [append] throws exactly when the key counter has reached
    [MAX_KEYS] or the value would end at or after [LOG_SIZE]; the throw
    moves the write tail only, so that every [get] and every [search]
    answers as before. *)
Theorem append_throws_when_full (key : Z) (value : list Z) (s : log_store) :
  reachable MAX_KEYS LOG_SIZE NGRAM_N s →
  tail_off (write_tail_ s) + Z.of_nat (length value) < 2 ^ 32 →
  ((∃ s', append MAX_KEYS LOG_SIZE NGRAM_N key value s = Throw s')
   ↔ MAX_KEYS ≤ get_num_keys s
     ∨ LOG_SIZE ≤ tail_off (write_tail_ s) + Z.of_nat (length value))
  ∧ ∀ s', append MAX_KEYS LOG_SIZE NGRAM_N key value s = Throw s' →
      get_num_keys s' = get_num_keys s ∧ get_size s' = get_size s
      ∧ (∀ i, get i s' = get i s)
      ∧ (∀ results query,
           search NGRAM_N results query s' = search NGRAM_N results query s).
Proof.
  intros Hr.
  destruct (reachable_packed _ _ _ MAX_KEYS_u32 LOG_SIZE_u32 _ Hr)
    as (k & o & o' & Hp).
  pose proof (packed_tails _ _ MAX_KEYS_u32 LOG_SIZE_u32 _ _ _ _ Hp)
    as (Hwk & Hwo & Hrk & Hro).
  pose proof (packed_off_u32 _ _ LOG_SIZE_u32 _ _ _ _ Hp) as [Ho Ho'].
  unfold get_num_keys. rewrite Hwo, Hrk. intros Hwrap.
  assert (∀ s', append MAX_KEYS LOG_SIZE NGRAM_N key value s = Throw s' ↔
                (MAX_KEYS ≤ k ∨ LOG_SIZE ≤ o + Z.of_nat (length value))
                ∧ s' = set_write_tail s
                         (u64 (write_tail_ s
                               + increment_tail (Z.of_nat (length value)))))
    as Hthrow.
  { intros s'. unfold append, internal_append, atomic_advance_write_tail.
    cbv beta iota zeta. rewrite Hwk, Hwo.
    rewrite (u32_small (Z.of_nat (length value))) by lia.
    rewrite (u32_small (o + _)) by lia.
    destruct (Z.leb_spec MAX_KEYS k) as [Hfull|Hkey]; cbn [orb].
    - split; [intros [= <-]|intros [_ ->]]; [split; [by left|done]|done].
    - destruct (Z.leb_spec LOG_SIZE (o + Z.of_nat (length value)))
        as [Hfull|Hfit].
      + split; [intros [= <-]|intros [_ ->]]; [split; [by right|done]|done].
      + split; [|intros [[?|?] _]; lia].
        destruct (memcpy _ _ _ _); [|done].
        by destruct (publish_ngrams _ _ _ _ _ _) as [? []]. }
  split.
  - split.
    + intros [s' Hs']. by apply Hthrow in Hs' as [? _].
    + intros Hfull. eexists. apply Hthrow. by split.
  - intros s' [_ ->]%Hthrow. split; [exact Hrk|]. split; [reflexivity|].
    split; [intros i; reflexivity|intros results query].
    apply search_set_write_tail.
Qed.

End Appending.

(** ** Stores that were only appended to: sizes *)

(** X16.  After values of fewer than [2^32] bytes each were appended to a
    new store, the number of keys is the number of values, the committed
    size is the sum of their lengths with nothing left uncommitted, the log
    starts with the values one after the other, and key [i] has the sum of
    the lengths of the values before it as its offset. *)
Theorem appends_fill_the_log (MAX_KEYS LOG_SIZE NGRAM_N : Z)
    (junk : list Z) (vs : list (list Z)) (s : log_store) :
  0 ≤ MAX_KEYS < 2 ^ 32 → 0 ≤ LOG_SIZE < 2 ^ 32 →
  Z.of_nat (length junk) = LOG_SIZE →
  Forall (λ v, Z.of_nat (length v) < 2 ^ 32) vs →
  run MAX_KEYS LOG_SIZE NGRAM_N (appends vs) (log_store_new junk) = Some s →
  get_num_keys s = Z.of_nat (length vs)
  ∧ get_size s = Z.of_nat (length (concat vs))
  ∧ get_gap s = 0
  ∧ take (length (concat vs)) (data_log_ s) = concat vs
  ∧ ∀ i, (i < length vs)%nat →
      value_offsets_ s !! Z.of_nat i
      = Some (Z.of_nat (length (concat (take i vs)))).
Proof.
  intros HK HL Hl Hvs Hrun.
  destruct (run_appends_appended _ _ _ HK HL [] vs _ _
              (new_appended _ _ HK junk Hl) Hvs Hrun)
    as [Hp Hlog Hoffs _].
  pose proof (packed_tails _ _ HK HL _ _ _ _ Hp) as (_ & _ & Hrk & Hro).
  unfold get_num_keys, get_size.
  rewrite Hrk, Hro, (packed_gap _ _ HL _ _ _ _ Hp).
  repeat split; try done. lia.
Qed.

(** ** Aggregate chains with increasing versions *)

Section Chains.

Context {numeric : Type}.

Implicit Types (l : Aggregate.aggregate_list numeric)
  (us : list (numeric * Z)).

(** Once a node of version below [version] is held, nodes of at most its
    version do not replace it. *)
Lemma get_node_loop_held (node : list (Aggregate.aggregate_node numeric))
    (version : Z) (n : Aggregate.aggregate_node numeric) :
  Aggregate.version_ n < version →
  (∀ m, m ∈ node → Aggregate.version_ m ≤ Aggregate.version_ n) →
  Aggregate.get_node_loop node version (Some n) (Aggregate.version_ n)
  = Some n.
Proof.
  intros Hlt. induction node as [|m node IH]; intros Hle; cbn; [done|].
  pose proof (Hle m ltac:(left)) as Hm.
  destruct (Z.eqb_spec (Aggregate.version_ m) version); [lia|].
  destruct (Z.ltb_spec (Aggregate.version_ n) (Aggregate.version_ m)); [lia|].
  rewrite andb_false_r. apply IH. intros m' Hm'. apply Hle. by right.
Qed.

(** [get] of a list whose head is newer than every other node. *)
Lemma list_get_cons (agg : Aggregate.aggregator numeric)
    (n : Aggregate.aggregate_node numeric)
    (head : list (Aggregate.aggregate_node numeric)) (version : Z) :
  0 < Aggregate.version_ n →
  (∀ m, m ∈ head → Aggregate.version_ m ≤ Aggregate.version_ n) →
  Aggregate.list_get (Aggregate.AggregateList (n :: head) agg) version
  = if Aggregate.version_ n <=? version then Aggregate.value_ n
    else Aggregate.list_get (Aggregate.AggregateList head agg) version.
Proof.
  intros Hpos Hle. unfold Aggregate.list_get, Aggregate.get_node.
  cbn [Aggregate.head_ Aggregate.agg_ Aggregate.get_node_loop].
  destruct (Z.eqb_spec (Aggregate.version_ n) version) as [Heq|Hne].
  { destruct (Z.leb_spec (Aggregate.version_ n) version); [done|lia]. }
  destruct (Z.ltb_spec (Aggregate.version_ n) version) as [Hlt|Hge].
  - destruct (Z.ltb_spec 0 (Aggregate.version_ n)); [|lia]. cbn [andb].
    rewrite get_node_loop_held by done.
    destruct (Z.leb_spec (Aggregate.version_ n) version); [done|lia].
  - cbn [andb].
    destruct (Z.leb_spec (Aggregate.version_ n) version); [lia|].
    by destruct head.
Qed.

(** X17.  [aggregate_list::get] on a chain whose versions are all positive:
    the value of a node of the greatest version that is at most [version],
    and the zero of the aggregator when every node is newer than [version]. *)
Theorem list_get_greatest l (version : Z) :
  Forall (λ m, 0 < Aggregate.version_ m) (Aggregate.head_ l) →
  (∃ n, n ∈ Aggregate.head_ l
        ∧ Aggregate.version_ n ≤ version
        ∧ (∀ m, m ∈ Aggregate.head_ l → Aggregate.version_ m ≤ version →
                Aggregate.version_ m ≤ Aggregate.version_ n)
        ∧ Aggregate.list_get l version = Aggregate.value_ n)
  ∨ ((∀ m, m ∈ Aggregate.head_ l → version < Aggregate.version_ m)
     ∧ Aggregate.list_get l version = Aggregate.zero (Aggregate.agg_ l)).
Proof.
  intros Hpos. rewrite Forall_forall in Hpos.
  pose proof (get_node_greatest (Aggregate.head_ l) version Hpos) as Hg.
  unfold Aggregate.list_get.
  destruct (Aggregate.get_node (Aggregate.head_ l) version) as [n|].
  - left. exists n. destruct Hg as (Hin & Hle & Hall). by repeat split.
  - right. by split.
Qed.

(** A filter that every element passes keeps the list. *)
Lemma filter_all {A} (P : A → Prop) `{!∀ x, Decision (P x)} (xs : list A) :
  (∀ x, x ∈ xs → P x) → filter P xs = xs.
Proof.
  induction xs as [|x xs IH]; intros Hall; [done|].
  rewrite filter_cons_True by (apply Hall; left).
  f_equal. apply IH. intros y Hy. apply Hall. by right.
Qed.

(** A filter keeps a list sorted, by a relation that the one of the list
    gives on the elements that pass. *)
Lemma StronglySorted_filter_impl {A} (R R' : relation A) (P : A → Prop)
    `{!∀ x, Decision (P x)} (xs : list A) :
  (∀ x y, P x → P y → R x y → R' x y) →
  StronglySorted R xs → StronglySorted R' (filter P xs).
Proof.
  intros HR. induction 1 as [|x xs Hs IH Hx]; [constructor|].
  rewrite filter_cons. destruct (decide (P x)) as [HP|]; [|done].
  constructor; [done|]. apply Forall_forall. intros y Hy.
  apply list_elem_of_filter in Hy as [HPy Hy].
  rewrite Forall_forall in Hx. apply HR; auto.
Qed.

(** A fold over the image of a list. *)
Lemma fold_left_fmap {A B C} (f : C → B → C) (g : A → B) (xs : list A)
    (c : C) :
  fold_left f (g <$> xs) c = fold_left (λ c x, f c (g x)) xs c.
Proof. revert c. induction xs as [|x xs IH]; intros c; cbn; [done|apply IH]. Qed.

(** What [list_update] stores. *)
Lemma list_update_eq l (u : update numeric) :
  list_update l u
  = Aggregate.AggregateList
      (Aggregate.AggregateNode
         (apply_update (Aggregate.agg_ l)
            (Aggregate.list_get l (update_version u)) u)
         (update_version u) :: Aggregate.head_ l)
      (Aggregate.agg_ l).
Proof. by destruct u. Qed.

(** A chain that grew by calls of positive, non-decreasing versions:
    [get] folds the calls of version at most [version]. *)
Lemma list_get_updates (agg : Aggregate.aggregator numeric)
    (us : list (update numeric)) :
  (∀ u, u ∈ us → 0 < update_version u) →
  StronglySorted (λ u1 u2, update_version u1 ≤ update_version u2) us →
  let l := fold_left list_update us (Aggregate.AggregateList [] agg) in
  Aggregate.agg_ l = agg
  ∧ (∀ m, m ∈ Aggregate.head_ l →
          ∃ u, u ∈ us ∧ Aggregate.version_ m = update_version u)
  ∧ ∀ version,
      Aggregate.list_get l version
      = fold_left (apply_update agg)
          (filter (λ u, update_version u ≤ version) us)
          (Aggregate.zero agg).
Proof.
  induction us as [|u us IH] using rev_ind; intros Hpos Hsort.
  - cbn. split; [done|]. split; [|done].
    intros m Hm. by apply elem_of_nil in Hm.
  - apply StronglySorted_app in Hsort as (Hlast' & Hsort & _).
    assert (∀ u', u' ∈ us → update_version u' ≤ update_version u) as Hlast.
    { intros u' Hu'. apply Hlast'; [done|by left]. }
    destruct IH as (Hagg & Hhead & Hget); [|done|].
    { intros u' Hu'. apply Hpos. apply elem_of_app. by left. }
    intros l. unfold l. rewrite fold_left_app. cbn [fold_left].
    set (l0 := fold_left list_update us (Aggregate.AggregateList [] agg))
      in *.
    rewrite list_update_eq. cbn [Aggregate.agg_ Aggregate.head_].
    assert (0 < update_version u) as Hw.
    { apply Hpos. apply elem_of_app. right. by left. }
    assert (filter (λ u', update_version u' ≤ update_version u) us = us)
      as Hall.
    { apply filter_all. intros u' Hu'. by apply Hlast. }
    split; [done|]. split.
    + intros m [->|Hm]%elem_of_cons.
      * exists u. split; [|done]. apply elem_of_app. right. by left.
      * destruct (Hhead m Hm) as (u' & Hu' & Hv).
        exists u'. split; [|done]. apply elem_of_app. by left.
    + intros version. rewrite Hagg. rewrite list_get_cons; cbn; [|done|].
      2:{ intros m Hm. destruct (Hhead m Hm) as (u' & Hu' & ->).
          by apply Hlast. }
      rewrite filter_app, filter_cons, filter_nil.
      destruct (Z.leb_spec (update_version u) version) as [Hle|Hgt].
      * rewrite decide_True by done.
        rewrite fold_left_app. cbn. f_equal.
        rewrite Hget, Hall.
        f_equal. symmetry. apply filter_all. intros u' Hu'.
        specialize (Hlast u' Hu'). lia.
      * rewrite decide_False by lia. rewrite app_nil_r.
        destruct l0 as [head0 agg0]. cbn in Hagg. subst agg0. apply Hget.
Qed.

(** A run leaves on every chain the calls of its thread. *)
Lemma run_updates_chains (us : list (update numeric))
    (a a' : Aggregate.aggregate numeric) :
  run_updates us a = Some a' →
  Aggregate.aggregate_agg_ a' = Aggregate.aggregate_agg_ a
  ∧ length (Aggregate.aggs_ a') = length (Aggregate.aggs_ a)
  ∧ ∀ tid l, Aggregate.aggs_ a !! tid = Some l →
      Aggregate.aggs_ a' !! tid
      = Some (fold_left list_update
                (filter (λ u, update_thread u = tid) us) l).
Proof.
  revert a. induction us as [|u us IH]; intros a Hrun; cbn in Hrun.
  - injection Hrun as <-. by repeat split.
  - destruct (run_update a u) as [a1|] eqn:Hu; [|done]. cbn in Hrun.
    destruct (IH a1 Hrun) as (Hagg & Hlen & Hchains).
    assert (∃ l0, Aggregate.aggs_ a !! update_thread u = Some l0
            ∧ a1 = Aggregate.Aggregate _ (Aggregate.aggregate_agg_ a)
                     (<[update_thread u := list_update l0 u]>
                        (Aggregate.aggs_ a))) as (l0 & Hl0 & ->).
    { destruct u as [t x v|t x v]; cbn in Hu |- *;
        [unfold Aggregate.seq_update in Hu
        |unfold Aggregate.comb_update in Hu];
        destruct (Aggregate.aggs_ a !! t) as [l0|]; [|done| |done];
        cbn in Hu; injection Hu as <-; by exists l0. }
    cbn in Hagg, Hlen, Hchains. rewrite length_insert in Hlen.
    split; [done|]. split; [done|]. intros tid l Hl.
    rewrite filter_cons.
    destruct (decide (update_thread u = tid)) as [<-|Hne].
    + cbn [fold_left]. apply Hchains.
      rewrite Hl in Hl0. injection Hl0 as <-.
      apply list_lookup_insert_eq. by apply lookup_lt_Some in Hl.
    + apply Hchains. by rewrite list_lookup_insert_ne.
Qed.

(** X18.  [get] after a run of [seq_update] and [comb_update] calls on a new
    aggregate, with positive versions that do not decrease within a thread:
    the [comb_op] fold, over the threads, of the running aggregate of the
    calls of the thread of version at most [version]. *)
Theorem aggregate_get_folds (max_concurrency : nat)
    (agg : Aggregate.aggregator numeric) (us : list (update numeric))
    (a : Aggregate.aggregate numeric) (version : Z) :
  Forall (λ u, 0 < update_version u) us →
  StronglySorted (λ u1 u2, update_thread u1 = update_thread u2 →
                           update_version u1 ≤ update_version u2) us →
  run_updates us (Aggregate.aggregate_new max_concurrency agg) = Some a →
  Aggregate.get a version
  = fold_left (λ val tid, Aggregate.comb_op agg val
                            (thread_aggregate agg us tid version))
      (seq 0 max_concurrency) (Aggregate.zero agg).
Proof.
  intros Hpos Hsort Hrun. rewrite Forall_forall in Hpos.
  destruct (run_updates_chains _ _ _ Hrun) as (Hagg & Hlen & Hchains).
  cbn in Hagg, Hlen, Hchains. rewrite length_replicate in Hlen.
  assert (Aggregate.aggs_ a
          = (λ tid, fold_left list_update
                      (filter (λ u, update_thread u = tid) us)
                      (Aggregate.AggregateList [] agg))
            <$> seq 0 max_concurrency) as Haggs.
  { apply list_eq. intros tid. rewrite list_lookup_fmap.
    destruct (decide (tid < max_concurrency)%nat) as [Hlt|Hge].
    - rewrite lookup_seq_lt by done. cbn.
      apply Hchains. by apply lookup_replicate_2.
    - rewrite lookup_seq_ge by lia. cbn.
      apply lookup_ge_None. lia. }
  unfold Aggregate.get. rewrite Hagg, Haggs, fold_left_fmap.
  clear Haggs Hchains Hlen Hrun.
  generalize (Aggregate.zero agg) at 1 2.
  induction (seq 0 max_concurrency) as [|tid tids IH]; intros val; cbn;
    [done|].
  rewrite IH. f_equal. f_equal.
  destruct (list_get_updates agg (filter (λ u, update_thread u = tid) us))
    as (_ & _ & Hget).
  { intros u [_ Hu]%list_elem_of_filter. by apply Hpos. }
  { eapply StronglySorted_filter_impl; [|exact Hsort].
    intros x y Hx Hy HR. apply HR. congruence. }
  rewrite Hget. unfold thread_aggregate. f_equal.
  rewrite list_filter_filter. apply list_filter_iff. tauto.
Qed.

End Chains.

(** ** The n-gram index *)

Lemma u32_wrap (x : Z) : - 2 ^ 32 ≤ x < 0 → u32 x = x + 2 ^ 32.
Proof.
  intros Hx. unfold u32. rewrite <- (Z.mod_add x 1) by lia.
  apply Z.mod_small. lia.
Qed.

Lemma StronglySorted_seqZ (m : Z) (n : nat) :
  StronglySorted Z.lt (seqZ m (Z.of_nat n)).
Proof.
  revert m. induction n as [|n IH]; intros m; [constructor|].
  rewrite seqZ_cons by lia.
  replace (Z.pred (Z.of_nat (S n))) with (Z.of_nat n) by lia.
  constructor; [apply IH|]. apply Forall_forall. intros j Hj.
  apply elem_of_seqZ in Hj. lia.
Qed.

(** The bytes of a window below [o] do not depend on the bytes from [o]
    on. *)
Lemma take_drop_below (log rest : list Z) (j n o : nat) :
  (j + n ≤ o)%nat → (o ≤ length log)%nat →
  take n (drop j (take o log ++ rest)) = take n (drop j log).
Proof.
  intros Hj Ho.
  rewrite drop_app_le by (rewrite length_take; lia).
  rewrite take_app_le by (rewrite length_drop, length_take; lia).
  replace o with (j + (o - j))%nat at 1 by lia.
  rewrite <- take_drop_commute, take_take. f_equal. lia.
Qed.

(** A strictly increasing list of numbers from [a] up to [b], [b] not
    included, has at most [b - a] elements. *)
Lemma StronglySorted_length (l : list Z) (a b : Z) :
  StronglySorted Z.lt l → (∀ j, j ∈ l → a ≤ j < b) → a ≤ b →
  Z.of_nat (length l) ≤ b - a.
Proof.
  intros Hs. revert a. induction Hs as [|x l Hs IH Hx]; intros a Hin Hab.
  - cbn. lia.
  - pose proof (Hin x ltac:(left)) as Hxa.
    rewrite Forall_forall in Hx.
    specialize (IH (x + 1)). cbn [length].
    assert (Z.of_nat (length l) ≤ b - (x + 1)); [|lia].
    apply IH; [|lia]. intros j Hj.
    specialize (Hx j Hj). specialize (Hin j ltac:(by right)). lia.
Qed.

(** A comparison that succeeds on a second string without NUL among the
    [n] characters compared: the [n] characters are equal, and those of
    the first string are inside its buffer. *)
Lemma strncmp_eq_true (a b : list Z) (pa pb : Z) (n : nat) :
  0 ≤ pb →
  (∀ t, (t < n)%nat → ∃ c, b !! (Z.to_nat pb + t)%nat = Some c ∧ c ≠ 0) →
  strncmp_eq a pa b pb n = Some true →
  take n (drop (Z.to_nat pa) a) = take n (drop (Z.to_nat pb) b)
  ∧ ((0 < n)%nat → 0 ≤ pa).
Proof.
  revert pa pb. induction n as [|n IH]; intros pa pb Hpb Hb; cbn.
  - intros _. split; [done|lia].
  - unfold rd at 1 2.
    destruct (Z.leb_spec 0 pa) as [Hpa|]; [|done].
    destruct (pa <? _); [|done]. cbn [andb].
    destruct (a !! Z.to_nat pa) as [ca|] eqn:Ha; [|done].
    destruct (Z.leb_spec 0 pb); [|lia].
    destruct (pb <? _); [|done]. cbn [andb].
    destruct (b !! Z.to_nat pb) as [cb|] eqn:Hcb; [|done].
    destruct (Z.eqb_spec ca cb) as [->|]; [|done].
    destruct (Hb 0%nat ltac:(lia)) as (c & Hc & Hc0).
    rewrite Nat.add_0_r, Hcb in Hc. injection Hc as ->.
    destruct (Z.eqb_spec c 0); [done|].
    intros Hs. apply IH in Hs as [Heq _]; [|lia|].
    + split; [|done].
      rewrite (drop_S a c (Z.to_nat pa)), (drop_S b c (Z.to_nat pb)) by done.
      cbn. f_equal.
      replace (S (Z.to_nat pa)) with (Z.to_nat (pa + 1)) by lia.
      by replace (S (Z.to_nat pb)) with (Z.to_nat (pb + 1)) by lia.
    + intros t Ht. destruct (Hb (S t) ltac:(lia)) as (c' & Hc' & Hc'0).
      exists c'. split; [|done]. rewrite <- Hc'. f_equal. lia.
Qed.

(** The keys that a scan adds come from [find_and_insert_key] at an
    offset of the list that is below [max_off] and passes the
    comparison. *)
Lemma scan_offsets_sound (matches : Z → option bool) (max_key max_off : Z)
    (s : log_store) (offsets : list Z) (results results' : gset Z) :
  scan_offsets matches max_key max_off s offsets results = Done results' →
  ∀ j, j ∈ results' →
    j ∈ results
    ∨ ∃ p keys keys',
        p ∈ offsets ∧ p < max_off ∧ matches p = Some true
        ∧ find_and_insert_key keys p max_key max_off s = Done keys'
        ∧ j ∈ keys' ∧ j ∉ keys.
Proof.
  revert results. induction offsets as [|off offsets IH]; intros results;
    cbn [scan_offsets].
  - intros [= <-] j Hj. by left.
  - assert (∀ results1,
              scan_offsets matches max_key max_off s offsets results1
              = Done results' →
              ∀ j, j ∈ results' →
                j ∈ results1
                ∨ ∃ p keys keys',
                    p ∈ off :: offsets ∧ p < max_off
                    ∧ matches p = Some true
                    ∧ find_and_insert_key keys p max_key max_off s
                      = Done keys'
                    ∧ j ∈ keys' ∧ j ∉ keys) as IH'.
    { intros results1 Hscan j Hj.
      destruct (IH _ Hscan j Hj)
        as [Hin|(p & keys & keys' & Hp & Hrest)]; [by left|right].
      exists p, keys, keys'. split; [by right|done]. }
    destruct (Z.ltb_spec off max_off) as [Hlt|]; [|apply IH'].
    destruct (matches off) as [[]|] eqn:Hm;
      cbv beta iota delta [access mbind result_mbind result_bind];
      [|apply IH'|done].
    destruct (find_and_insert_key _ _ _ _ _) as [keys1| |] eqn:Hf; [|done..].
    intros Hscan j Hj. destruct (IH' _ Hscan j Hj) as [Hin|Hlater];
      [|by right].
    destruct (decide (j ∈ results)) as [Hold|Hnew]; [by left|right].
    exists off, results, keys1. split; [by left|done].
Qed.

Section Index.

Variables MAX_KEYS LOG_SIZE NGRAM_N : Z.
Hypothesis MAX_KEYS_u32 : 0 ≤ MAX_KEYS < 2 ^ 32.
Hypothesis LOG_SIZE_u32 : 0 ≤ LOG_SIZE < 2 ^ 32.
Hypothesis NGRAM_N_pos : 0 < NGRAM_N.

(** A publication loop that ends published the grams at a run of
    positions that starts at [i], stays at or below the bound and inside
    the log, and reaches the bound. *)
Lemma publish_ngrams_Finished (fuel : nat) (log : list Z)
    (idx : gmap (list Z) (list Z)) (i bound : Z)
    (idx' : gmap (list Z) (list Z)) :
  0 ≤ i → Z.of_nat (length log) < 2 ^ 32 →
  publish_ngrams NGRAM_N fuel log idx i bound = (idx', Finished) →
  ∃ n : nat,
    idx' = fold_left
             (λ idx j, Ngram.add_offset idx
                         (take (Z.to_nat NGRAM_N) (drop (Z.to_nat j) log)) j)
             (seqZ i (Z.of_nat n)) idx
    ∧ bound < i + Z.of_nat n
    ∧ ((0 < n)%nat →
       i + Z.of_nat n - 1 ≤ bound
       ∧ i + Z.of_nat n - 1 + NGRAM_N ≤ Z.of_nat (length log)).
Proof.
  intros Hi Hlen. revert idx i Hi.
  induction fuel as [|fuel IH]; intros idx i Hi; cbn [publish_ngrams];
    [done|].
  destruct (Z.leb_spec i bound) as [Hle|Hgt].
  - unfold bytes_at.
    destruct (Z.leb_spec 0 i); [|lia].
    destruct (Z.leb_spec (i + NGRAM_N) (Z.of_nat (length log))); [|done].
    cbn [andb]. rewrite u32_small by lia. intros Hp.
    apply IH in Hp as (n & -> & Hb & Hlast); [|lia].
    exists (S n). rewrite (seqZ_cons i) by lia.
    replace (Z.pred (Z.of_nat (S n))) with (Z.of_nat n) by lia.
    split; [done|]. split; [lia|]. intros _.
    destruct n as [|n]; [lia|]. specialize (Hlast ltac:(lia)). lia.
  - intros [= <-]. exists 0%nat. cbn. split; [done|]. split; [lia|]. lia.
Qed.

(** The index of a reachable store: the posting list of a gram increases
    strictly, and each of its offsets lies below the claimed offset, with
    the gram at it in the log. *)
Lemma reachable_index (s : log_store) :
  reachable MAX_KEYS LOG_SIZE NGRAM_N s →
  ∀ gram,
    StronglySorted Z.lt (Ngram.get_offsets (index_log_ s) gram)
    ∧ ∀ j, j ∈ Ngram.get_offsets (index_log_ s) gram →
           0 ≤ j ∧ j + NGRAM_N ≤ tail_off (write_tail_ s)
           ∧ take (Z.to_nat NGRAM_N) (drop (Z.to_nat j) (data_log_ s))
             = gram.
Proof.
  apply (reachable_invariant MAX_KEYS LOG_SIZE NGRAM_N
           MAX_KEYS_u32 LOG_SIZE_u32
           (λ s, ∀ gram,
              StronglySorted Z.lt (Ngram.get_offsets (index_log_ s) gram)
              ∧ ∀ j, j ∈ Ngram.get_offsets (index_log_ s) gram →
                     0 ≤ j ∧ j + NGRAM_N ≤ tail_off (write_tail_ s)
                     ∧ take (Z.to_nat NGRAM_N)
                            (drop (Z.to_nat j) (data_log_ s)) = gram)).
  - intros junk _ gram. unfold Ngram.get_offsets. cbn.
    rewrite lookup_empty. cbn. split; [constructor|].
    intros j Hj. by apply elem_of_nil in Hj.
  - intros c s0 s' k o o' Hr Hp IH Hc gram.
    pose proof (packed_tails _ _ MAX_KEYS_u32 LOG_SIZE_u32 _ _ _ _ Hp)
      as (_ & Hwo & _ & _).
    pose proof (packed_off_u32 _ _ LOG_SIZE_u32 _ _ _ _ Hp) as [Ho Ho'].
    pose proof (packed_log _ _ _ _ _ _ Hp) as Hlog.
    destruct (IH gram) as [Hsorted Hold]. rewrite Hwo in Hold.
    destruct (run_call_shape _ _ _ MAX_KEYS_u32 LOG_SIZE_u32
                _ _ _ _ _ _ Hp Hc)
      as [(value & Hshape)|[(i & Hfit & _ & _ & ->)|(Hfit & ->)]].
    + cbv zeta in Hshape. destruct Hshape as (Hk & Hfit & Hs & Hpub).
      set (n := u32 (Z.of_nat (length value))) in *.
      pose proof (u32_length_c_str value) as Hn. fold n in Hn.
      assert (Z.of_nat (length (data_log_ s')) = LOG_SIZE) as Hlog'.
      { rewrite Hs. cbn [data_log_]. rewrite splice_length; lia. }
      apply publish_ngrams_Finished in Hpub
        as (c' & Hidx & Hbound & Hlast); [|lia..].
      rewrite Hlog' in Hlast.
      assert (∀ j, j ∈ seqZ o (Z.of_nat c') → o ≤ j ∧ j + NGRAM_N ≤ o + n)
        as Hnew.
      { intros j Hj. apply elem_of_seqZ in Hj.
        destruct c' as [|c']; [lia|]. specialize (Hlast ltac:(lia)).
        destruct (Z.le_gt_cases NGRAM_N (o + n)) as [Hge|Hlt].
        - rewrite u32_small in Hlast by lia. lia.
        - rewrite u32_wrap in Hlast, Hbound by lia. lia. }
      rewrite Hidx, get_offsets_fold.
      assert (tail_off (write_tail_ s') = o + n) as ->.
      { rewrite Hs. cbn [write_tail_]. apply tail_off_pack. lia. }
      split.
      * apply StronglySorted_app_2; [|done|].
        -- intros x1 x2 Hx1 [_ Hx2]%list_elem_of_filter.
           specialize (Hold x1 Hx1). specialize (Hnew x2 Hx2). lia.
        -- eapply StronglySorted_filter_impl; [|apply StronglySorted_seqZ].
           auto.
      * intros j [Hj|[Hgram Hj]%list_elem_of_filter]%elem_of_app.
        -- destruct (Hold j Hj) as (Hj0 & Hjo & Hbytes).
           split; [done|]. split; [lia|].
           rewrite Hs. cbn [data_log_]. rewrite <- Hbytes.
           apply take_drop_below; lia.
        -- specialize (Hnew j Hj). split; [lia|]. split; [lia|done].
    + cbn. rewrite tail_off_pack by lia. split; [done|].
      intros j Hj. destruct (Hold j Hj) as (? & ? & ?).
      split; [done|]. split; [lia|done].
    + cbn. rewrite tail_off_pack by lia. split; [done|].
      intros j Hj. destruct (Hold j Hj) as (? & ? & ?).
      split; [done|]. split; [lia|done].
Qed.

(** X19.  In a reachable store every offset of the posting list of a gram
    lies below the claimed offset, and the log holds the gram at it. *)
Theorem postings_point_at_grams (s : log_store) (gram : list Z) (j : Z) :
  reachable MAX_KEYS LOG_SIZE NGRAM_N s →
  j ∈ Ngram.get_offsets (index_log_ s) gram →
  0 ≤ j ∧ j + NGRAM_N ≤ tail_off (write_tail_ s)
  ∧ take (Z.to_nat NGRAM_N) (drop (Z.to_nat j) (data_log_ s)) = gram.
Proof. intros Hr. by apply reachable_index. Qed.

(** X20.  In a reachable store every posting list increases strictly: no
    offset is published twice. *)
Theorem postings_increase (s : log_store) (gram : list Z) :
  reachable MAX_KEYS LOG_SIZE NGRAM_N s →
  StronglySorted Z.lt (Ngram.get_offsets (index_log_ s) gram).
Proof. intros Hr. by apply reachable_index. Qed.

(** The posting lists of a reachable store have fewer than [2^32]
    entries. *)
Lemma reachable_postings_u32 (s : log_store) (gram : list Z) :
  reachable MAX_KEYS LOG_SIZE NGRAM_N s →
  Z.of_nat (length (Ngram.get_offsets (index_log_ s) gram)) < 2 ^ 32.
Proof.
  intros Hr. destruct (reachable_index s Hr gram) as [Hs Hin].
  destruct (reachable_packed _ _ _ MAX_KEYS_u32 LOG_SIZE_u32 _ Hr)
    as (k & o & o' & Hp).
  pose proof (packed_tails _ _ MAX_KEYS_u32 LOG_SIZE_u32 _ _ _ _ Hp)
    as (_ & Hwo & _ & _).
  pose proof (packed_off_u32 _ _ LOG_SIZE_u32 _ _ _ _ Hp) as [Ho Ho'].
  rewrite Hwo in Hin.
  pose proof (StronglySorted_length _ 0 o Hs) as Hlen.
  assert (Z.of_nat (length (Ngram.get_offsets (index_log_ s) gram)) ≤ o - 0);
    [|lia].
  apply Hlen; [|lia]. intros j Hj. specialize (Hin j Hj). lia.
Qed.

(** X21.  On a reachable store [col_search] and [search] run the same scan:
    started from the same keys, [search] returns the set of the keys in the
    vector that [col_search] returns, and each faults when the other does.
    [col_search] compares the sizes of the two posting lists as [uint32_t],
    which they fit. *)
Theorem col_search_as_search (results : list Z) (col_value : list Z)
    (s : log_store) :
  reachable MAX_KEYS LOG_SIZE NGRAM_N s →
  search NGRAM_N (list_to_set results) col_value s
  = match col_search NGRAM_N results col_value s with
    | Done l => Done (list_to_set l)
    | Fault => Fault
    | Timeout => Timeout
    end.
Proof.
  intros Hr.
  assert (∀ gram, u32 (Z.of_nat (length (Ngram.get_offsets (index_log_ s)
                                           gram)))
                  = Z.of_nat (length (Ngram.get_offsets (index_log_ s)
                                        gram))) as Hsize.
  { intros gram. apply u32_small.
    pose proof (reachable_postings_u32 s gram Hr). lia. }
  unfold search, col_search.
  destruct (bytes_at (c_str col_value) 0 NGRAM_N) as [pg|];
    cbv beta iota delta [access mbind result_mbind result_bind]; [|done].
  destruct (bytes_at (c_str col_value) _ NGRAM_N) as [sg|]; [|done].
  cbv zeta. rewrite !Hsize.
  destruct (Nat.ltb_spec (length (Ngram.get_offsets (index_log_ s) pg))
              (length (Ngram.get_offsets (index_log_ s) sg)));
    destruct (Z.ltb_spec
                (Z.of_nat (length (Ngram.get_offsets (index_log_ s) pg)))
                (Z.of_nat (length (Ngram.get_offsets (index_log_ s) sg))));
    try lia; apply scan_offsets_vector_set.
Qed.

(** The key that [find_and_insert_key] adds for an offset, in a reachable
    store and up to its number of keys: the last key whose value starts
    at or before the offset. *)
Lemma find_and_insert_key_resolved (keys : gset Z) (p max_off : Z)
    (s : log_store) (keys' : gset Z) (j : Z) :
  reachable MAX_KEYS LOG_SIZE NGRAM_N s →
  find_and_insert_key keys p (get_num_keys s) max_off s = Done keys' →
  j ∈ keys' → j ∉ keys →
  ∃ a, value_offsets_ s !! j = Some a ∧ a ≤ p
       ∧ ∀ i b, j < i < get_num_keys s → value_offsets_ s !! i = Some b →
                p < b.
Proof.
  intros Hr.
  destruct (reachable_packed _ _ _ MAX_KEYS_u32 LOG_SIZE_u32 _ Hr)
    as (k & o & o' & Hp).
  pose proof (packed_tails _ _ MAX_KEYS_u32 LOG_SIZE_u32 _ _ _ _ Hp)
    as (_ & _ & Hrk & _).
  pose proof (packed_key_u32 _ _ MAX_KEYS_u32 _ _ _ _ Hp) as Hk.
  pose proof (λ i, reachable_domain _ _ _ MAX_KEYS_u32 LOG_SIZE_u32 s i Hr)
    as Hdom.
  unfold get_num_keys in *. rewrite Hrk in *.
  assert (∀ i, 0 ≤ i < k → is_Some (value_offsets_ s !! i)) as Hdef.
  { intros i Hi. destruct (packed_offsets _ _ _ _ _ _ Hp i Hi) as (a & Ha & _).
    by exists a. }
  destruct (bsearch_spec (value_offsets_ s) p k 33 0 k)
    as (r & Hb & Hr0 & Hbelow & Habove); try lia; try done.
  { apply (packed_sorted _ _ _ _ _ _ Hp). }
  unfold find_and_insert_key. rewrite Hb.
  cbv beta iota delta [mbind result_mbind result_bind].
  unfold Tables.get, access.
  destruct (deleted_ s !! u32 (r - 1)) as [d|] eqn:Hd; [|done].
  assert (0 ≤ u32 (r - 1) < k) as Hin.
  { apply Hdom. right. by eexists. }
  assert (0 < r) as Hr1.
  { destruct (Z.eq_dec r 0) as [->|]; [|lia].
    rewrite (u32_wrap (0 - 1)) in Hin by lia. lia. }
  rewrite u32_small in Hin |- * by lia.
  intros Hf Hj Hnew.
  assert (j = r - 1) as ->.
  { destruct (negb (d =? 0) && (d <=? max_off)); injection Hf as <-;
      [done|].
    apply elem_of_union in Hj as [Hj%elem_of_singleton|Hj]; done. }
  destruct (packed_offsets _ _ _ _ _ _ Hp (r - 1) ltac:(lia))
    as (a & Ha & _).
  exists a. split; [done|]. split.
  - apply (Hbelow (r - 1)); [lia|done].
  - intros i b Hi Hb'. apply (Habove i); [lia|done].
Qed.

(** X22.  [search] only adds keys at which the query occurs. On a reachable
    store, for a query without NUL of at least [NGRAM_N] characters, every
    key that a returning [search] adds is the last key whose value starts at
    or before a position [p] below the committed size, where the query
    occurs in the log at [off] and [p] is [off] or the position [off +
    |query| - NGRAM_N] of its last gram. *)
Theorem search_finds_occurrences (results : gset Z) (query : list Z)
    (s : log_store) (results' : gset Z) (j : Z) :
  reachable MAX_KEYS LOG_SIZE NGRAM_N s →
  NGRAM_N ≤ Z.of_nat (length query) < 2 ^ 64 → (0 ∉ query) →
  search NGRAM_N results query s = Done results' →
  j ∈ results' → j ∉ results →
  ∃ off p a,
    0 ≤ off
    ∧ take (length query) (drop (Z.to_nat off) (data_log_ s)) = query
    ∧ (p = off ∨ p = off + Z.of_nat (length query) - NGRAM_N)
    ∧ p < get_size s
    ∧ value_offsets_ s !! j = Some a ∧ a ≤ p
    ∧ ∀ i b, j < i < get_num_keys s → value_offsets_ s !! i = Some b →
             p < b.
Proof.
  intros Hr Hq Hz.
  set (q := length query) in *.
  assert (∀ t, (t < q)%nat → ∃ c, c_str query !! t = Some c ∧ c ≠ 0) as Hsub.
  { intros t Ht. destruct (lookup_lt_is_Some_2 query t Ht) as [c Hc].
    exists c. split; [unfold c_str; by rewrite lookup_app_l|].
    intros ->. apply Hz. by eapply list_elem_of_lookup_2. }
  assert (u64 (Z.of_nat q - NGRAM_N) = Z.of_nat q - NGRAM_N) as Hlen.
  { apply Z.mod_small. lia. }
  assert (length (c_str query) = S q) as Hcl.
  { unfold c_str. rewrite length_app. cbn. lia. }
  assert (take (Z.to_nat NGRAM_N) (c_str query)
          = take (Z.to_nat NGRAM_N) query) as Hpg.
  { unfold c_str. apply take_app_le. fold q. lia. }
  assert (take (Z.to_nat NGRAM_N)
               (drop (Z.to_nat (Z.of_nat q - NGRAM_N)) (c_str query))
          = drop (Z.to_nat (Z.of_nat q - NGRAM_N)) query) as Hsg.
  { unfold c_str. rewrite drop_app_le by (fold q; lia).
    rewrite take_app_le by (rewrite length_drop; fold q; lia).
    apply take_ge. rewrite length_drop. fold q. lia. }
  assert (take (Z.to_nat (Z.of_nat q - NGRAM_N))
               (drop (Z.to_nat NGRAM_N) (c_str query))
          = drop (Z.to_nat NGRAM_N) query) as Hrest1.
  { unfold c_str. rewrite drop_app_le by (fold q; lia).
    rewrite take_app_le by (rewrite length_drop; fold q; lia).
    apply take_ge. rewrite length_drop. fold q. lia. }
  assert (take (Z.to_nat (Z.of_nat q - NGRAM_N)) (c_str query)
          = take (Z.to_nat (Z.of_nat q - NGRAM_N)) query) as Hrest2.
  { unfold c_str. apply take_app_le. fold q. lia. }
  unfold search. fold q. rewrite Hlen.
  unfold bytes_at. rewrite Hcl.
  destruct (Z.leb_spec 0 0); [|lia].
  destruct (Z.leb_spec (0 + NGRAM_N) (Z.of_nat (S q))); [|lia].
  destruct (Z.leb_spec 0 (Z.of_nat q - NGRAM_N)); [|lia].
  destruct (Z.leb_spec (Z.of_nat q - NGRAM_N + NGRAM_N) (Z.of_nat (S q)));
    [|lia].
  cbv beta iota delta [andb access mbind result_mbind result_bind].
  fold (get_num_keys s). fold (get_size s).
  change (Z.to_nat 0) with 0%nat. rewrite drop_0.
  rewrite Hpg, Hsg.
  destruct (_ <? _)%nat; intros Hs Hj Hnew.
  - destruct (scan_offsets_sound _ _ _ _ _ _ _ Hs j Hj)
      as [Hin|(p & keys & keys' & Hp & Hlt & Hm & Hf & Hjk & Hjn)]; [done|].
    destruct (reachable_index s Hr (take (Z.to_nat NGRAM_N) query))
      as [_ Hidx].
    destruct (Hidx p Hp) as (Hp0 & _ & Hgram).
    apply strncmp_eq_true in Hm as [Hrest _]; [|lia|].
    2:{ intros t Ht. destruct (Hsub (Z.to_nat NGRAM_N + t)%nat ltac:(lia))
          as (c & Hc & Hc0). by exists c. }
    destruct (find_and_insert_key_resolved _ _ _ _ _ _ Hr Hf Hjk Hjn)
      as (a & Ha & Hap & Hnext).
    exists p, p, a. split; [done|]. split; [|by repeat split; try left].
    replace q with (Z.to_nat NGRAM_N + Z.to_nat (Z.of_nat q - NGRAM_N))%nat
      at 1 by lia.
    rewrite <- take_take_drop, Hgram, drop_drop.
    replace (Z.to_nat p + Z.to_nat NGRAM_N)%nat
      with (Z.to_nat (NGRAM_N + p)) by lia.
    rewrite Hrest, Hrest1. apply take_drop.
  - destruct (scan_offsets_sound _ _ _ _ _ _ _ Hs j Hj)
      as [Hin|(p & keys & keys' & Hp & Hlt & Hm & Hf & Hjk & Hjn)]; [done|].
    destruct (reachable_index s Hr
                (drop (Z.to_nat (Z.of_nat q - NGRAM_N)) query))
      as [_ Hidx].
    destruct (Hidx p Hp) as (Hp0 & _ & Hgram).
    apply strncmp_eq_true in Hm as [Hrest Hin]; [|lia|].
    2:{ intros t Ht. destruct (Hsub t ltac:(lia)) as (c & Hc & Hc0).
        by exists c. }
    destruct (find_and_insert_key_resolved _ _ _ _ _ _ Hr Hf Hjk Hjn)
      as (a & Ha & Hap & Hnext).
    assert (0 ≤ p - (Z.of_nat q - NGRAM_N)) as Hoff.
    { destruct (Z.eq_dec (Z.of_nat q) NGRAM_N); [lia|]. apply Hin. lia. }
    exists (p - (Z.of_nat q - NGRAM_N)), p, a.
    split; [done|]. split; [|repeat split; try done; right; lia].
    replace q with (Z.to_nat (Z.of_nat q - NGRAM_N) + Z.to_nat NGRAM_N)%nat
      at 1 by lia.
    rewrite <- take_take_drop, Hrest, drop_drop.
    replace (Z.to_nat (p - (Z.of_nat q - NGRAM_N))
             + Z.to_nat (Z.of_nat q - NGRAM_N))%nat
      with (Z.to_nat p) by lia.
    rewrite Hgram. change (Z.to_nat 0) with 0%nat. rewrite drop_0.
    rewrite Hrest2. apply take_drop.
Qed.

End Index.

(** ** What search finds *)

(** A comparison of equal characters inside the two buffers succeeds. *)
Lemma strncmp_eq_complete (a b : list Z) (pa pb : Z) (n : nat) :
  0 ≤ pa → 0 ≤ pb →
  pa + Z.of_nat n ≤ Z.of_nat (length a) →
  pb + Z.of_nat n ≤ Z.of_nat (length b) →
  take n (drop (Z.to_nat pa) a) = take n (drop (Z.to_nat pb) b) →
  strncmp_eq a pa b pb n = Some true.
Proof.
  revert pa pb. induction n as [|n IH]; intros pa pb Hpa Hpb Ha Hb Heq;
    cbn [strncmp_eq]; [done|].
  unfold rd.
  destruct (Z.leb_spec 0 pa); [|lia].
  destruct (Z.ltb_spec pa (Z.of_nat (length a))); [|lia].
  destruct (Z.leb_spec 0 pb); [|lia].
  destruct (Z.ltb_spec pb (Z.of_nat (length b))); [|lia].
  cbn [andb].
  destruct (lookup_lt_is_Some_2 a (Z.to_nat pa) ltac:(lia)) as [ca Hca].
  destruct (lookup_lt_is_Some_2 b (Z.to_nat pb) ltac:(lia)) as [cb Hcb].
  rewrite Hca, Hcb.
  rewrite (drop_S a ca _ Hca), (drop_S b cb _ Hcb) in Heq. cbn in Heq.
  injection Heq as -> Heq. rewrite Z.eqb_refl.
  destruct (cb =? 0); [done|].
  apply IH; [lia..| | |]; try lia.
  by replace (Z.to_nat (pa + 1)) with (S (Z.to_nat pa)) by lia;
     replace (Z.to_nat (pb + 1)) with (S (Z.to_nat pb)) by lia.
Qed.

(** [find_and_insert_key] and the scans only add keys. *)
Lemma find_and_insert_key_mono (keys : gset Z) (offset max_key max_off : Z)
    (s : log_store) (keys' : gset Z) :
  find_and_insert_key keys offset max_key max_off s = Done keys' →
  keys ⊆ keys'.
Proof.
  unfold find_and_insert_key.
  destruct (bsearch 33 _ _ _ _) as [lo| |];
    cbv beta iota delta [mbind result_mbind result_bind]; [|done..].
  destruct (Tables.get _ _) as [d| |]; [|done..].
  destruct (negb (d =? 0) && (d <=? max_off)); intros [= <-]; set_solver.
Qed.

Lemma scan_offsets_mono (matches : Z → option bool) (max_key max_off : Z)
    (s : log_store) (offsets : list Z) (results results' : gset Z) :
  scan_offsets matches max_key max_off s offsets results = Done results' →
  results ⊆ results'.
Proof.
  revert results. induction offsets as [|off offsets IH]; intros results;
    cbn [scan_offsets].
  - by intros [= <-].
  - destruct (off <? max_off); [|apply IH].
    destruct (matches off) as [[]|];
      cbv beta iota delta [access mbind result_mbind result_bind];
      [|apply IH|done].
    destruct (find_and_insert_key _ _ _ _ _) as [keys| |] eqn:Hf; [|done..].
    intros Hscan. apply IH in Hscan.
    apply find_and_insert_key_mono in Hf. set_solver.
Qed.

(** A scan that returns has added the key of every offset of its list
    that is below [max_off] and passes the comparison. *)
Lemma scan_offsets_complete (matches : Z → option bool)
    (max_key max_off : Z) (s : log_store) (offsets : list Z)
    (results results' : gset Z) (p j : Z) :
  (∀ keys, find_and_insert_key keys p max_key max_off s
           = Done ({[j]} ∪ keys)) →
  p ∈ offsets → p < max_off → matches p = Some true →
  scan_offsets matches max_key max_off s offsets results = Done results' →
  j ∈ results'.
Proof.
  intros Hf Hp Hlt Hm. revert results Hp.
  induction offsets as [|off offsets IH]; intros results Hp;
    [by apply elem_of_nil in Hp|].
  cbn [scan_offsets].
  destruct (decide (p = off)) as [<-|Hne].
  - destruct (Z.ltb_spec p max_off); [|lia]. rewrite Hm.
    cbv beta iota delta [access mbind result_mbind result_bind].
    rewrite Hf. intros Hscan. apply scan_offsets_mono in Hscan.
    apply Hscan, elem_of_union. left. by apply elem_of_singleton.
  - apply elem_of_cons in Hp as [?|Hp]; [done|].
    assert (∀ results,
              scan_offsets matches max_key max_off s offsets results
              = Done results' → j ∈ results') as IH'.
    { intros results1. by apply IH. }
    clear IH. rename IH' into IH.
    destruct (off <? max_off); [|apply IH].
    destruct (matches off) as [[]|];
      cbv beta iota delta [access mbind result_mbind result_bind];
      [|apply IH|done].
    destruct (find_and_insert_key _ _ _ _ _) as [keys| |]; [|done..].
    apply IH.
Qed.

(** A window of a list that ends at or before [t] is a window of its
    first [t] elements. *)
Lemma take_drop_take {A} (l : list A) (x m t : nat) :
  (x + m ≤ t)%nat → take m (drop x (take t l)) = take m (drop x l).
Proof.
  intros Hx. rewrite !take_drop_commute, take_take. do 2 f_equal. lia.
Qed.

(** A window of a string is a window of its [c_str]. *)
Lemma c_str_window (query : list Z) (x m : nat) :
  (x + m ≤ length query)%nat →
  take m (drop x (c_str query)) = take m (drop x query).
Proof.
  intros Hx. unfold c_str. rewrite drop_app_le by lia.
  apply take_app_le. rewrite length_drop. lia.
Qed.

Section Finding.

Variables MAX_KEYS LOG_SIZE NGRAM_N : Z.
Hypothesis MAX_KEYS_u32 : 0 ≤ MAX_KEYS < 2 ^ 32.
Hypothesis LOG_SIZE_u32 : 0 ≤ LOG_SIZE < 2 ^ 32.
Hypothesis NGRAM_N_pos : 0 < NGRAM_N.

(** The keys that a run adds get offsets at or above the offset that was
    claimed when it started. *)
Lemma run_new_keys (cs : list call) (s s' : log_store) :
  reachable MAX_KEYS LOG_SIZE NGRAM_N s →
  run MAX_KEYS LOG_SIZE NGRAM_N cs s = Some s' →
  ∀ i a, get_num_keys s ≤ i → value_offsets_ s' !! i = Some a →
         tail_off (write_tail_ s) ≤ a.
Proof.
  intros Hr Hrun.
  apply (run_relation MAX_KEYS LOG_SIZE NGRAM_N MAX_KEYS_u32 LOG_SIZE_u32
           (λ s s',
              reachable MAX_KEYS LOG_SIZE NGRAM_N s →
              tail_off (write_tail_ s) ≤ tail_off (write_tail_ s')
              ∧ get_num_keys s ≤ get_num_keys s'
              ∧ ∀ i a, get_num_keys s ≤ i →
                       value_offsets_ s' !! i = Some a →
                       tail_off (write_tail_ s) ≤ a) cs s s');
    [| |done..].
  - intros s0 Hr0. split; [lia|]. split; [lia|]. intros i a Hi Ha.
    pose proof (reachable_domain _ _ _ MAX_KEYS_u32 LOG_SIZE_u32 s0 i Hr0
                  (or_introl (mk_is_Some _ _ Ha))). lia.
  - clear cs s s' Hr Hrun. intros c s0 s s' k o o' Hr Hp IH Hc Hr0.
    destruct (IH Hr0) as (Hoff & Hkeys & Hnew).
    pose proof (packed_tails _ _ MAX_KEYS_u32 LOG_SIZE_u32 _ _ _ _ Hp)
      as (Hwk & Hwo & Hrk & Hro).
    pose proof (packed_off_u32 _ _ LOG_SIZE_u32 _ _ _ _ Hp) as [Ho Ho'].
    pose proof (packed_key_u32 _ _ MAX_KEYS_u32 _ _ _ _ Hp) as Hk.
    pose proof (packed_off _ _ _ _ _ _ Hp) as Hoo.
    unfold get_num_keys in *. rewrite Hrk in *. rewrite Hwo in *.
    destruct (run_call_shape _ _ _ MAX_KEYS_u32 LOG_SIZE_u32
                _ _ _ _ _ _ Hp Hc)
      as [(value & Hkey & Hfit & Hs & Hpub)
         |[(j & Hfit & Hj & Hd & ->)|(Hfit & ->)]]; cbn.
    + pose proof (u32_range (Z.of_nat (length value))) as Hn.
      rewrite Hs. cbn.
      rewrite tail_key_pack, !tail_off_pack by lia.
      split; [lia|]. split; [lia|]. intros i a Hi.
      destruct (decide (i = k)) as [->|Hne].
      * rewrite lookup_insert_eq. intros [= <-]. lia.
      * rewrite lookup_insert_ne by done. by apply Hnew.
    + rewrite tail_key_pack, !tail_off_pack by lia.
      split; [lia|]. split; [lia|done].
    + rewrite tail_key_pack, !tail_off_pack by lia.
      split; [lia|]. split; [lia|done].
Qed.

(** In a reachable store [find_and_insert_key] adds the live key [j] for
    every offset from the offset of [j] up to the offsets of the keys
    above [j]. *)
Lemma find_and_insert_key_inserts (keys : gset Z) (p max_off : Z)
    (s : log_store) (j a : Z) :
  reachable MAX_KEYS LOG_SIZE NGRAM_N s →
  value_offsets_ s !! j = Some a → a ≤ p →
  (∀ i b, j < i → value_offsets_ s !! i = Some b → p < b) →
  deleted_ s !! j = Some 0 →
  find_and_insert_key keys p (get_num_keys s) max_off s
  = Done ({[j]} ∪ keys).
Proof.
  intros Hr Ha Hap Hnext Hd.
  destruct (reachable_packed _ _ _ MAX_KEYS_u32 LOG_SIZE_u32 _ Hr)
    as (k & o & o' & Hp).
  pose proof (packed_tails _ _ MAX_KEYS_u32 LOG_SIZE_u32 _ _ _ _ Hp)
    as (_ & _ & Hrk & _).
  pose proof (packed_key_u32 _ _ MAX_KEYS_u32 _ _ _ _ Hp) as Hk.
  pose proof (reachable_domain _ _ _ MAX_KEYS_u32 LOG_SIZE_u32 s j Hr
                (or_introl (mk_is_Some _ _ Ha))) as Hj.
  unfold get_num_keys in *. rewrite Hrk in *.
  assert (∀ i, 0 ≤ i < k → is_Some (value_offsets_ s !! i)) as Hdef.
  { intros i Hi. destruct (packed_offsets _ _ _ _ _ _ Hp i Hi) as (b & Hb & _).
    by exists b. }
  destruct (bsearch_spec (value_offsets_ s) p k 33 0 k)
    as (r & Hb & Hr0 & Hbelow & Habove); try lia; try done.
  { apply (packed_sorted _ _ _ _ _ _ Hp). }
  assert (r = j + 1) as ->.
  { destruct (Z.lt_trichotomy r (j + 1)) as [Hlt|[->|Hgt]]; [|done|].
    - specialize (Habove j a ltac:(lia) Ha). lia.
    - destruct (Hdef (j + 1) ltac:(lia)) as [b Hb1].
      specialize (Hbelow (j + 1) b ltac:(lia) Hb1).
      specialize (Hnext (j + 1) b ltac:(lia) Hb1). lia. }
  unfold find_and_insert_key. rewrite Hb.
  cbv beta iota delta [mbind result_mbind result_bind].
  replace (j + 1 - 1) with j by lia. rewrite u32_small by lia.
  unfold Tables.get, access. rewrite Hd. done.
Qed.

(** X23.  [search] finds what was appended. After [append] of a value in
    which the query occurs returned on a reachable store without uncommitted
    bytes, and whatever calls followed, every [search] for the query that
    returns has the key of the value among its results, unless the key was
    deleted. The query has at least [NGRAM_N] characters. *)
Theorem search_finds_appended_value (key : Z) (value : list Z)
    (s s1 : log_store) (cs : list call) (s' : log_store)
    (pre query post : list Z) (results results' : gset Z) :
  reachable MAX_KEYS LOG_SIZE NGRAM_N s →
  get_gap s = 0 →
  append MAX_KEYS LOG_SIZE NGRAM_N key value s = Ret 0 s1 →
  run MAX_KEYS LOG_SIZE NGRAM_N cs s1 = Some s' →
  Z.of_nat (length value) < 2 ^ 32 →
  value = pre ++ query ++ post →
  NGRAM_N ≤ Z.of_nat (length query) →
  deleted_ s' !! get_num_keys s = Some 0 →
  search NGRAM_N results query s' = Done results' →
  get_num_keys s ∈ results'.
Proof.
  intros Hr Hgap Ha Hrun Hn Hv Hq Hd.
  set (q := length query) in *. set (n := length value) in *.
  assert (n = (length pre + q + length post)%nat) as Hnq.
  { unfold n, q. rewrite Hv, !length_app. lia. }
  destruct (reachable_packed _ _ _ MAX_KEYS_u32 LOG_SIZE_u32 _ Hr)
    as (k & o & o' & Hp).
  pose proof (packed_tails _ _ MAX_KEYS_u32 LOG_SIZE_u32 _ _ _ _ Hp)
    as (Hwk & Hwo & Hrk & Hro).
  pose proof (packed_off_u32 _ _ LOG_SIZE_u32 _ _ _ _ Hp) as [Ho Ho'].
  pose proof (packed_key_u32 _ _ MAX_KEYS_u32 _ _ _ _ Hp) as Hk.
  pose proof (packed_log _ _ _ _ _ _ Hp) as Hlen.
  rewrite (packed_gap _ _ LOG_SIZE_u32 _ _ _ _ Hp) in Hgap.
  assert (o' = o) as -> by lia. clear Hgap.
  assert (reachable MAX_KEYS LOG_SIZE NGRAM_N s1) as Hr1.
  { apply (reachable_step _ _ _ (CallAppend key value) s s1 Hr).
    cbv beta iota delta [run_call]. by rewrite Ha. }
  pose proof (append_packed _ _ _ MAX_KEYS_u32 LOG_SIZE_u32
                _ _ _ _ _ _ _ _ Hp Ha) as (_ & Hkey & Hfit & _).
  rewrite u32_small in Hfit by (fold n; lia). fold n in Hfit.
  assert (0 ≤ NGRAM_N ≤ o + Z.of_nat n) as Hgram by lia.
  pose proof (append_room _ _ _ MAX_KEYS_u32 LOG_SIZE_u32 key value
                s k o o Hp Hkey Hfit Hgram) as Ha'.
  cbv zeta in Ha'. fold n in Ha'. rewrite Ha in Ha'. injection Ha' as Hs1.
  set (log1 := take (Z.to_nat o) (data_log_ s) ++ value
                 ++ drop (Z.to_nat (o + Z.of_nat n)) (data_log_ s)) in *.
  destruct (run_extends _ _ _ MAX_KEYS_u32 LOG_SIZE_u32 cs s1 s' Hr1 Hrun)
    as (Hkeys & Hsize & _ & Hoffs & _ & Hlog & Hidx).
  pose proof (run_new_keys cs s1 s' Hr1 Hrun) as Hnew.
  assert (reachable MAX_KEYS LOG_SIZE NGRAM_N s') as Hr'
    by (by eapply reachable_run).
  destruct (reachable_packed _ _ _ MAX_KEYS_u32 LOG_SIZE_u32 _ Hr')
    as (k2 & o2 & o2' & Hp2).
  pose proof (packed_log _ _ _ _ _ _ Hp2) as Hlen2.
  unfold get_num_keys, get_size in Hkeys, Hsize, Hnew.
  rewrite Hs1 in Hkeys, Hsize, Hoffs, Hlog, Hidx, Hnew.
  cbn [read_tail_ write_tail_ value_offsets_ data_log_ index_log_]
    in Hkeys, Hsize, Hoffs, Hlog, Hidx, Hnew.
  rewrite tail_key_pack in Hkeys, Hnew by lia.
  rewrite tail_off_pack in Hsize, Hlog, Hnew by lia.
  fold (get_num_keys s') in Hkeys. fold (get_size s') in Hsize.
  unfold get_num_keys at 1 in Hd. rewrite Hrk in Hd.
  unfold get_num_keys at 1. rewrite Hrk.
  specialize (Hoffs k o (lookup_insert_eq _ _ _)).
  set (off := (Z.to_nat o + length pre)%nat).
  (* the bytes of the query in the last log *)
  assert (take q (drop off (data_log_ s')) = query) as Hbytes.
  { rewrite <- (take_drop_take _ off q (Z.to_nat (o + Z.of_nat n)))
      by (unfold off; lia).
    rewrite Hlog. unfold log1.
    rewrite app_assoc, take_app_length'
      by (rewrite length_app, length_take; fold n; lia).
    rewrite Hv, app_assoc.
    rewrite drop_app_length' by (rewrite length_app, length_take; lia).
    by rewrite take_app_length'. }
  assert (∀ x m, (x + m ≤ q)%nat →
            take m (drop (off + x) (data_log_ s')) = take m (drop x query))
    as Hwin.
  { intros x m Hx. rewrite <- Hbytes at 1.
    rewrite take_drop_take by done. by rewrite drop_drop. }
  (* the postings of a gram of the query *)
  assert (∀ x, (x + Z.to_nat NGRAM_N ≤ q)%nat →
            Z.of_nat (off + x)
            ∈ Ngram.get_offsets (index_log_ s')
                (take (Z.to_nat NGRAM_N) (drop x query))) as Hpost.
  { intros x Hx.
    destruct (Hidx (take (Z.to_nat NGRAM_N) (drop x query))) as [l ->].
    apply elem_of_app. left. rewrite get_offsets_fold.
    apply elem_of_app. right. apply list_elem_of_filter. split.
    - rewrite Nat2Z.id. rewrite <- (Hwin x) by done.
      rewrite <- (take_drop_take log1 _ _ (Z.to_nat (o + Z.of_nat n)))
        by (unfold off; lia).
      rewrite <- (take_drop_take (data_log_ s') _ _
                    (Z.to_nat (o + Z.of_nat n))) by (unfold off; lia).
      by rewrite Hlog.
    - apply elem_of_seqZ. unfold off. lia. }
  (* the key of an offset inside the query *)
  assert (∀ x keys, (x < q)%nat →
            find_and_insert_key keys (Z.of_nat (off + x)) (get_num_keys s')
              (get_size s') s' = Done ({[k]} ∪ keys)) as Hfind.
  { intros x keys Hx.
    apply (find_and_insert_key_inserts keys _ _ s' k o Hr' Hoffs);
      [unfold off; lia| |done].
    intros i b Hi Hb. specialize (Hnew i b ltac:(lia) Hb).
    unfold off. lia. }
  assert (u64 (Z.of_nat q - NGRAM_N) = Z.of_nat q - NGRAM_N) as Hu64.
  { apply Z.mod_small. change (2 ^ 64) with (2 ^ 32 * 2 ^ 32). nia. }
  assert (length (c_str query) = S q) as Hcl.
  { unfold c_str. rewrite length_app. cbn. lia. }
  unfold search. fold q. rewrite Hu64.
  unfold bytes_at. rewrite Hcl.
  destruct (Z.leb_spec 0 0); [|lia].
  destruct (Z.leb_spec (0 + NGRAM_N) (Z.of_nat (S q))); [|lia].
  destruct (Z.leb_spec 0 (Z.of_nat q - NGRAM_N)); [|lia].
  destruct (Z.leb_spec (Z.of_nat q - NGRAM_N + NGRAM_N) (Z.of_nat (S q)));
    [|lia].
  cbv beta iota delta [andb access mbind result_mbind result_bind].
  fold (get_num_keys s'). fold (get_size s').
  rewrite !c_str_window by lia.
  destruct (_ <? _)%nat.
  - apply (scan_offsets_complete _ _ _ _ _ _ _ (Z.of_nat (off + 0)) k).
    + intros keys. apply Hfind. lia.
    + specialize (Hpost 0%nat ltac:(lia)). by rewrite drop_0 in Hpost.
    + unfold off. lia.
    + apply strncmp_eq_complete; [unfold off; lia..| |].
      * rewrite Hcl. lia.
      * rewrite c_str_window by lia.
        replace (Z.to_nat (NGRAM_N + Z.of_nat (off + 0)))
          with (off + Z.to_nat NGRAM_N)%nat by lia.
        apply Hwin. lia.
  - apply (scan_offsets_complete _ _ _ _ _ _ _
             (Z.of_nat (off + Z.to_nat (Z.of_nat q - NGRAM_N))) k).
    + intros keys. apply Hfind. lia.
    + apply Hpost. lia.
    + unfold off. lia.
    + apply strncmp_eq_complete; [unfold off; lia..| |].
      * rewrite Hcl. lia.
      * rewrite c_str_window by lia.
        replace (Z.to_nat (Z.of_nat (off + Z.to_nat (Z.of_nat q - NGRAM_N))
                           - (Z.of_nat q - NGRAM_N)))
          with (off + 0)%nat by lia.
        apply Hwin. lia.
Qed.

End Finding.

(** ** What get returns after later calls *)

(** A prefix without zero byte of a window that starts with a string
    without zero byte and holds a zero byte or its end behind it. *)
Lemma zero_free_prefix (v value w : list Z) :
  v `prefix_of` w → (0 ∉ v) →
  v = w ∨ w !! length v = Some 0 →
  value `prefix_of` w → (0 ∉ value) →
  value `prefix_of` v
  ∧ (w = value ∨ w !! length value = Some 0 → v = value).
Proof.
  intros Hvw Hv Hstop Hvaluew Hvalue.
  assert (value `prefix_of` v) as Hpre.
  { destruct (prefix_weak_total _ _ _ Hvaluew Hvw) as [|[t Ht]]; [done|].
    destruct t as [|c t]; [rewrite app_nil_r in Ht; by subst|]. exfalso.
    assert (length v < length value)%nat as Hlt.
    { rewrite Ht, length_app. cbn. lia. }
    pose proof (prefix_length _ _ Hvaluew) as Hlen.
    destruct Hstop as [->|Hzero]; [lia|].
    rewrite <- (prefix_lookup_lt value w) in Hzero by done.
    apply Hvalue. by eapply list_elem_of_lookup_2. }
  split; [done|]. intros Hend.
  destruct Hpre as [t ->].
  destruct t as [|c t]; [by rewrite app_nil_r|]. exfalso.
  assert (length value < length (value ++ c :: t))%nat as Hlt.
  { rewrite length_app. cbn. lia. }
  pose proof (prefix_length _ _ Hvw) as Hlen.
  destruct Hend as [->|Hzero]; [lia|].
  rewrite <- (prefix_lookup_lt (value ++ c :: t) w) in Hzero by done.
  apply Hv. by eapply list_elem_of_lookup_2.
Qed.

Section Later.

Variables MAX_KEYS LOG_SIZE NGRAM_N : Z.
Hypothesis MAX_KEYS_u32 : 0 ≤ MAX_KEYS < 2 ^ 32.
Hypothesis LOG_SIZE_u32 : 0 ≤ LOG_SIZE < 2 ^ 32.

(** The gap between the tails does not shrink. *)
Lemma run_gap (cs : list call) (s s' : log_store) :
  reachable MAX_KEYS LOG_SIZE NGRAM_N s →
  run MAX_KEYS LOG_SIZE NGRAM_N cs s = Some s' →
  get_gap s ≤ get_gap s'.
Proof.
  apply (run_relation MAX_KEYS LOG_SIZE NGRAM_N MAX_KEYS_u32 LOG_SIZE_u32
           (λ s s', get_gap s ≤ get_gap s')).
  - intros s0. lia.
  - clear cs s s'. intros c s0 s s' k o o' Hr Hp IH Hc.
    assert (reachable MAX_KEYS LOG_SIZE NGRAM_N s') as Hr'
      by (by eapply reachable_step).
    destruct (reachable_packed _ _ _ MAX_KEYS_u32 LOG_SIZE_u32 _ Hr')
      as (k2 & o2 & o2' & Hp2).
    rewrite (packed_gap _ _ LOG_SIZE_u32 _ _ _ _ Hp) in IH.
    rewrite (packed_gap _ _ LOG_SIZE_u32 _ _ _ _ Hp2).
    pose proof (packed_tails _ _ MAX_KEYS_u32 LOG_SIZE_u32 _ _ _ _ Hp2)
      as (_ & Hwo & _ & Hro).
    pose proof (packed_off_u32 _ _ LOG_SIZE_u32 _ _ _ _ Hp) as [Ho Ho'].
    pose proof (packed_off _ _ _ _ _ _ Hp) as Hoo.
    destruct (run_call_shape _ _ _ MAX_KEYS_u32 LOG_SIZE_u32
                _ _ _ _ _ _ Hp Hc)
      as [(value & Hkey & Hfit & Hs & Hpub)
         |[(j & Hfit & Hj & Hd & Hs)|(Hfit & Hs)]];
      rewrite Hs in Hwo, Hro; cbn in Hwo, Hro.
    + pose proof (u32_range (Z.of_nat (length value))) as Hn.
      rewrite tail_off_pack in Hwo, Hro by lia. lia.
    + rewrite tail_off_pack in Hwo, Hro by lia. lia.
    + rewrite tail_off_pack in Hwo, Hro by lia. lia.
Qed.

(** A run leaves the bytes from the claimed offset on as they are, up to
    the offset of the first key that it adds. *)
Lemma run_keeps_fresh_bytes (cs : list call) (s s' : log_store) :
  reachable MAX_KEYS LOG_SIZE NGRAM_N s →
  run MAX_KEYS LOG_SIZE NGRAM_N cs s = Some s' →
  ∀ p, 0 ≤ p →
    (∀ i a, get_num_keys s ≤ i → value_offsets_ s' !! i = Some a → p < a) →
    data_log_ s' !! Z.to_nat p = data_log_ s !! Z.to_nat p.
Proof.
  intros Hr Hrun.
  apply (run_relation MAX_KEYS LOG_SIZE NGRAM_N MAX_KEYS_u32 LOG_SIZE_u32
           (λ s s',
              reachable MAX_KEYS LOG_SIZE NGRAM_N s →
              get_num_keys s ≤ get_num_keys s'
              ∧ ∀ p, 0 ≤ p →
                  (∀ i a, get_num_keys s ≤ i →
                          value_offsets_ s' !! i = Some a → p < a) →
                  data_log_ s' !! Z.to_nat p = data_log_ s !! Z.to_nat p)
           cs s s'); [| |done..].
  - intros s0 _. split; [lia|done].
  - clear cs s s' Hr Hrun. intros c s0 s s' k o o' Hr Hp IH Hc Hr0.
    destruct (IH Hr0) as (Hkeys & Hbytes).
    pose proof (packed_tails _ _ MAX_KEYS_u32 LOG_SIZE_u32 _ _ _ _ Hp)
      as (Hwk & Hwo & Hrk & Hro).
    pose proof (packed_off_u32 _ _ LOG_SIZE_u32 _ _ _ _ Hp) as [Ho Ho'].
    pose proof (packed_key_u32 _ _ MAX_KEYS_u32 _ _ _ _ Hp) as Hk.
    pose proof (packed_off _ _ _ _ _ _ Hp) as Hoo.
    pose proof (packed_log _ _ _ _ _ _ Hp) as Hlen.
    assert (∀ i, is_Some (value_offsets_ s !! i) → 0 ≤ i < k) as Hdom.
    { intros i Hi.
      pose proof (reachable_domain _ _ _ MAX_KEYS_u32 LOG_SIZE_u32 s i Hr
                    (or_introl Hi)) as H.
      unfold get_num_keys in H. by rewrite Hrk in H. }
    unfold get_num_keys in *. rewrite Hrk in *.
    destruct (run_call_shape _ _ _ MAX_KEYS_u32 LOG_SIZE_u32
                _ _ _ _ _ _ Hp Hc)
      as [(value & Hkey & Hfit & Hs & Hpub)
         |[(j & Hfit & Hj & Hd & ->)|(Hfit & ->)]]; cbn.
    + pose proof (u32_range (Z.of_nat (length value))) as Hn.
      rewrite Hs. cbn.
      rewrite tail_key_pack by lia.
      split; [lia|]. intros p Hp0 Hnew.
      pose proof (Hnew k o ltac:(lia) (lookup_insert_eq _ _ _)) as Hpo.
      rewrite lookup_app_l by (rewrite length_take; lia).
      rewrite lookup_take_lt by lia.
      apply Hbytes; [done|]. intros i a Hi Ha.
      apply (Hnew i a Hi). rewrite lookup_insert_ne; [done|].
      intros <-. specialize (Hdom k (mk_is_Some _ _ Ha)). lia.
    + rewrite tail_key_pack by lia. split; [lia|done].
    + rewrite tail_key_pack by lia. split; [lia|done].
Qed.

(** The bytes from the claimed offset on that are zero stay zero. *)
Lemma run_keeps_zero_bytes (cs : list call) (s s' : log_store) :
  reachable MAX_KEYS LOG_SIZE NGRAM_N s →
  run MAX_KEYS LOG_SIZE NGRAM_N cs s = Some s' →
  Forall (λ c, c = 0)
         (drop (Z.to_nat (tail_off (write_tail_ s))) (data_log_ s)) →
  Forall (λ c, c = 0)
         (drop (Z.to_nat (tail_off (write_tail_ s'))) (data_log_ s')).
Proof.
  apply (run_relation MAX_KEYS LOG_SIZE NGRAM_N MAX_KEYS_u32 LOG_SIZE_u32
           (λ s s',
              Forall (λ c, c = 0)
                (drop (Z.to_nat (tail_off (write_tail_ s))) (data_log_ s)) →
              Forall (λ c, c = 0)
                (drop (Z.to_nat (tail_off (write_tail_ s')))
                      (data_log_ s')))).
  - done.
  - clear cs s s'. intros c s0 s s' k o o' Hr Hp IH Hc Hz.
    specialize (IH Hz).
    pose proof (packed_tails _ _ MAX_KEYS_u32 LOG_SIZE_u32 _ _ _ _ Hp)
      as (_ & Hwo & _ & _).
    pose proof (packed_off_u32 _ _ LOG_SIZE_u32 _ _ _ _ Hp) as [Ho Ho'].
    pose proof (packed_log _ _ _ _ _ _ Hp) as Hlen.
    rewrite Hwo in IH.
    destruct (run_call_shape _ _ _ MAX_KEYS_u32 LOG_SIZE_u32
                _ _ _ _ _ _ Hp Hc)
      as [(value & Hkey & Hfit & Hs & Hpub)
         |[(j & Hfit & Hj & Hd & ->)|(Hfit & ->)]]; cbn.
    + pose proof (u32_length_c_str value) as Hn.
      rewrite Hs. cbn. rewrite tail_off_pack by lia.
      rewrite app_assoc, drop_app_length'
        by (rewrite length_app, !length_take; lia).
      replace (Z.to_nat (o + u32 (Z.of_nat (length value))))
        with (Z.to_nat o + Z.to_nat (u32 (Z.of_nat (length value))))%nat
        by lia.
      rewrite <- drop_drop. by apply Forall_drop.
    + rewrite tail_off_pack by lia.
      replace (Z.to_nat (o + 1)) with (Z.to_nat o + 1)%nat by lia.
      rewrite <- drop_drop. by apply Forall_drop.
    + rewrite tail_off_pack by lia.
      replace (Z.to_nat (o + 1)) with (Z.to_nat o + 1)%nat by lia.
      rewrite <- drop_drop. by apply Forall_drop.
Qed.

(** X24.  [get] after later calls. After [append] of a value without zero
    byte returned on a reachable store, and whatever calls followed, as long
    as no byte is left uncommitted and the key is not deleted, [get] of its
    key returns the value, possibly followed by bytes that were in the log
    behind it: it returns exactly the value when the byte behind the value
    was zero before the append. *)
Theorem get_after_later_calls (key : Z) (value : list Z)
    (s s1 : log_store) (cs : list call) (s' : log_store) :
  reachable MAX_KEYS LOG_SIZE NGRAM_N s →
  append MAX_KEYS LOG_SIZE NGRAM_N key value s = Ret 0 s1 →
  run MAX_KEYS LOG_SIZE NGRAM_N cs s1 = Some s' →
  get_gap s' = 0 →
  Z.of_nat (length value) < 2 ^ 32 → (0 ∉ value) →
  deleted_ s' !! get_num_keys s = Some 0 →
  ∃ v, get (get_num_keys s) s' = Done (Some v)
       ∧ value `prefix_of` v
       ∧ (data_log_ s !! Z.to_nat (tail_off (write_tail_ s)
                                  + Z.of_nat (length value)) = Some 0 →
          v = value).
Proof.
  intros Hr Ha Hrun Hgap Hn Hz Hd.
  set (n := length value) in *.
  destruct (reachable_packed _ _ _ MAX_KEYS_u32 LOG_SIZE_u32 _ Hr)
    as (k & o & o' & Hp).
  pose proof (packed_tails _ _ MAX_KEYS_u32 LOG_SIZE_u32 _ _ _ _ Hp)
    as (Hwk & Hwo & Hrk & Hro).
  pose proof (packed_off_u32 _ _ LOG_SIZE_u32 _ _ _ _ Hp) as [Ho Ho'].
  pose proof (packed_key_u32 _ _ MAX_KEYS_u32 _ _ _ _ Hp) as Hk.
  pose proof (packed_off _ _ _ _ _ _ Hp) as Hoo.
  pose proof (packed_log _ _ _ _ _ _ Hp) as Hlen.
  assert (reachable MAX_KEYS LOG_SIZE NGRAM_N s1) as Hr1.
  { apply (reachable_step _ _ _ (CallAppend key value) s s1 Hr).
    cbv beta iota delta [run_call]. by rewrite Ha. }
  pose proof (append_packed _ _ _ MAX_KEYS_u32 LOG_SIZE_u32
                _ _ _ _ _ _ _ _ Hp Ha) as (_ & Hkey & Hfit & idx & Hs1).
  cbv zeta in Hs1. rewrite u32_small in Hfit, Hs1 by (fold n; lia).
  fold n in Hfit, Hs1.
  assert (take (Z.to_nat (Z.of_nat n)) (c_str value) = value) as Hcopy.
  { unfold c_str. apply take_app_length'. lia. }
  rewrite Hcopy in Hs1.
  set (log1 := take (Z.to_nat o) (data_log_ s) ++ value
                 ++ drop (Z.to_nat (o + Z.of_nat n)) (data_log_ s)) in *.
  destruct (run_extends _ _ _ MAX_KEYS_u32 LOG_SIZE_u32 cs s1 s' Hr1 Hrun)
    as (Hkeys & _ & Hoff & Hoffs & _ & Hlog & _).
  pose proof (run_new_keys _ _ _ MAX_KEYS_u32 LOG_SIZE_u32
                cs s1 s' Hr1 Hrun) as Hnew.
  pose proof (run_keeps_fresh_bytes cs s1 s' Hr1 Hrun) as Hfresh.
  assert (reachable MAX_KEYS LOG_SIZE NGRAM_N s') as Hr'
    by (by eapply reachable_run).
  destruct (reachable_packed _ _ _ MAX_KEYS_u32 LOG_SIZE_u32 _ Hr')
    as (k2 & o2 & o2' & Hp2).
  pose proof (packed_tails _ _ MAX_KEYS_u32 LOG_SIZE_u32 _ _ _ _ Hp2)
    as (_ & Hwo2 & Hrk2 & Hro2).
  pose proof (packed_off_u32 _ _ LOG_SIZE_u32 _ _ _ _ Hp2) as [Ho2 Ho2'].
  pose proof (packed_key_u32 _ _ MAX_KEYS_u32 _ _ _ _ Hp2) as Hk2.
  pose proof (packed_log _ _ _ _ _ _ Hp2) as Hlen2.
  pose proof (packed_room _ _ _ _ _ _ Hp2) as Hroom2.
  rewrite (packed_gap _ _ LOG_SIZE_u32 _ _ _ _ Hp2) in Hgap.
  pose proof (packed_off _ _ _ _ _ _ Hp2) as Hoo2.
  assert (o2' = o2) as -> by lia. clear Hgap.
  assert (∀ i, is_Some (value_offsets_ s' !! i) → 0 ≤ i < k2) as Hdom.
  { intros i Hi.
    pose proof (reachable_domain _ _ _ MAX_KEYS_u32 LOG_SIZE_u32 s' i Hr'
                  (or_introl Hi)) as H.
    unfold get_num_keys in H. by rewrite Hrk2 in H. }
  unfold get_num_keys in Hkeys, Hnew, Hfresh.
  rewrite Hs1 in Hkeys, Hoff, Hoffs, Hlog, Hnew, Hfresh.
  cbn [read_tail_ write_tail_ value_offsets_ data_log_]
    in Hkeys, Hoff, Hoffs, Hlog, Hnew, Hfresh.
  rewrite tail_key_pack in Hkeys, Hnew, Hfresh by lia.
  rewrite tail_off_pack in Hoff, Hlog, Hnew by lia.
  rewrite Hrk2 in Hkeys. rewrite Hwo2 in Hoff.
  unfold get_num_keys in Hd |- *. rewrite Hrk in Hd |- *. rewrite Hwo.
  specialize (Hoffs k o (lookup_insert_eq _ _ _)).
  (* the end of the value that [get] computes *)
  assert (∃ e, o + Z.of_nat n ≤ e ≤ o2
               ∧ (if k + 1 <? k2
                  then Tables.get (value_offsets_ s') (k + 1)
                  else Done o2) = Done e
               ∧ ∀ i a, k + 1 ≤ i → value_offsets_ s' !! i = Some a →
                        e ≤ a) as (e & He & Hend & Hlater).
  { destruct (Z.ltb_spec (k + 1) k2) as [Hnext|Hlast].
    - destruct (packed_offsets _ _ _ _ _ _ Hp2 (k + 1) ltac:(lia))
        as (e & He & Heo).
      pose proof (Hnew (k + 1) e ltac:(lia) He).
      exists e. split; [lia|]. split; [unfold Tables.get; by rewrite He|].
      intros i a Hi Hia.
      pose proof (Hdom i (mk_is_Some _ _ Hia)).
      apply (packed_sorted _ _ _ _ _ _ Hp2 (k + 1) i); (lia || done).
    - exists o2. split; [lia|]. split; [done|]. intros i a Hi Hia.
      pose proof (Hdom i (mk_is_Some _ _ Hia)). lia. }
  (* the bytes of the value in the last log *)
  assert (take n (drop (Z.to_nat o) (data_log_ s')) = value) as Hbytes.
  { rewrite <- (take_drop_take _ _ _ (Z.to_nat (o + Z.of_nat n))) by lia.
    rewrite Hlog. unfold log1.
    rewrite app_assoc, take_app_length'
      by (rewrite length_app, length_take; fold n; lia).
    rewrite drop_app_length' by (rewrite length_take; lia).
    by rewrite take_ge by (fold n; lia). }
  destruct (copy_value_spec (data_log_ s') (Z.to_nat o) (Z.to_nat (e - o))
              ltac:(lia)) as (v & Hv & Hpre & Hnz & Hstop).
  rewrite Z2Nat.id in Hv by lia.
  set (w := take (Z.to_nat (e - o)) (drop (Z.to_nat o) (data_log_ s'))) in *.
  assert (value `prefix_of` w) as Hvw.
  { rewrite <- Hbytes. unfold w.
    replace n with (n `min` Z.to_nat (e - o))%nat at 1 by lia.
    rewrite <- take_take. apply prefix_take. }
  destruct (zero_free_prefix v value w Hpre Hnz Hstop Hvw Hz)
    as (Hvv & Hexact).
  exists v. split; [|split; [done|]].
  - unfold get. rewrite (packed_read _ _ _ _ _ _ Hp2).
    rewrite tail_key_pack, tail_off_pack by done.
    destruct (Z.leb_spec k2 k); [lia|].
    unfold Tables.get in Hend |- *. rewrite Hd, Hoffs.
    rewrite (u32_small (k + 1)) by lia. rewrite Hend.
    cbv beta iota delta [access mbind result_mbind result_bind].
    change (0 =? 0) with true. cbn [negb andb].
    rewrite (u32_small (e - o)) by lia. by rewrite Hv.
  - intros Hzero. apply Hexact.
    destruct (Z.eq_dec e (o + Z.of_nat n)) as [->|Hne].
    + left. unfold w. rewrite <- Hbytes. f_equal. lia.
    + right. unfold w. rewrite lookup_take_lt by (fold n; lia).
      rewrite lookup_drop.
      replace (Z.to_nat o + length value)%nat
        with (Z.to_nat (o + Z.of_nat n)) by (fold n; lia).
      rewrite Hfresh; [|lia|].
      * unfold log1. rewrite lookup_app_r by (rewrite length_take; lia).
        rewrite lookup_app_r by (rewrite length_take; fold n; lia).
        rewrite lookup_drop, <- Hzero. f_equal.
        rewrite length_take. fold n. lia.
      * intros i a Hi Hia. specialize (Hlater i a Hi Hia). lia.
Qed.

(** X25.  The bytes from the claimed offset on that are zero stay zero along
    a run: in a log that was zeroed the byte behind the last value is zero. *)
Theorem fresh_bytes_stay_zero (cs : list call) (s s' : log_store) :
  reachable MAX_KEYS LOG_SIZE NGRAM_N s →
  run MAX_KEYS LOG_SIZE NGRAM_N cs s = Some s' →
  Forall (λ c, c = 0)
         (drop (Z.to_nat (tail_off (write_tail_ s))) (data_log_ s)) →
  Forall (λ c, c = 0)
         (drop (Z.to_nat (tail_off (write_tail_ s'))) (data_log_ s')).
Proof. apply run_keeps_zero_bytes. Qed.

End Later.

(** ** The properties on the scenarios *)

Lemma default_max_keys_u32 : 0 ≤ default_max_keys < 2 ^ 32.
Proof. vm_compute. split; [discriminate|reflexivity]. Qed.

Lemma log_size_64_u32 : 0 ≤ 64 < 2 ^ 32.
Proof. vm_compute. split; [discriminate|reflexivity]. Qed.

Lemma log_size_16_u32 : 0 ≤ 16 < 2 ^ 32.
Proof. vm_compute. split; [discriminate|reflexivity]. Qed.

Lemma zeroed_reachable : reachable default_max_keys 64 3 (zeroed 64).
Proof. exists (replicate 64 0), []. split; reflexivity. Qed.

Lemma deleted_once_delete :
  delete_record 64 0 scenario2 = Ret true deleted_once.
Proof. vm_compute. reflexivity. Qed.

Lemma deleted_once_reachable : reachable default_max_keys 64 3 deleted_once.
Proof.
  exists (replicate 64 0),
    (appends [bytes_of "banana"; bytes_of "bandana"] ++ [CallDelete 0]).
  split; [reflexivity|]. vm_compute. reflexivity.
Qed.

Lemma deleted_once_appended_run :
  run default_max_keys 64 3 [CallAppend 0 (bytes_of "orange")] deleted_once
  = Some deleted_once_appended.
Proof. vm_compute. reflexivity. Qed.

Lemma boundary1_reachable : reachable default_max_keys 16 3 (boundary1 16).
Proof.
  exists (replicate 16 0), (appends [bytes_of "abcdefghij"]).
  split; [reflexivity|]. vm_compute. reflexivity.
Qed.

(** The tails of the store of scenario 2. *)
Lemma tails_of_reachable_witness :
  tail_key (write_tail_ scenario2) = get_num_keys scenario2
  ∧ 0 ≤ get_num_keys scenario2 ≤ default_max_keys
  ∧ 0 ≤ get_size scenario2 ≤ tail_off (write_tail_ scenario2)
  ∧ (tail_off (write_tail_ scenario2) < 64
     ∨ tail_off (write_tail_ scenario2) = 0)
  ∧ get_gap scenario2 = tail_off (write_tail_ scenario2) - get_size scenario2.
Proof.
  apply (tails_of_reachable default_max_keys 64 3
           default_max_keys_u32 log_size_64_u32 scenario2).
  exact scenario2_reachable.
Defined.

(** Key 1 of scenario 2. *)
Lemma keys_are_dense_witness :
  (is_Some (value_offsets_ scenario2 !! 1) ↔ 0 ≤ 1 < get_num_keys scenario2)
  ∧ (is_Some (deleted_ scenario2 !! 1) ↔ 0 ≤ 1 < get_num_keys scenario2).
Proof.
  apply (keys_are_dense default_max_keys 64 3
           default_max_keys_u32 log_size_64_u32 scenario2 1).
  exact scenario2_reachable.
Defined.

(** Key 0 of scenario 2 after [delete_record(0)]: the offset 0 and the
    marker 14. *)
Lemma delete_markers_above_offsets_witness :
  14 = 0 ∨ 0 < 14 ≤ tail_off (write_tail_ deleted_once).
Proof.
  apply (delete_markers_above_offsets default_max_keys 64 3
           default_max_keys_u32 log_size_64_u32 deleted_once 0 0 14).
  - exact deleted_once_reachable.
  - vm_compute. reflexivity.
  - vm_compute. reflexivity.
Defined.

(** [delete_record(0)] on the store of scenario 2. *)
Lemma keys_and_bytes_are_kept_witness :
  get_num_keys scenario2 ≤ get_num_keys deleted_once
  ∧ get_size scenario2 ≤ get_size deleted_once
  ∧ (∀ i a, value_offsets_ scenario2 !! i = Some a →
            value_offsets_ deleted_once !! i = Some a)
  ∧ (∀ p c, 0 ≤ p < tail_off (write_tail_ scenario2) →
            data_log_ scenario2 !! Z.to_nat p = Some c →
            data_log_ deleted_once !! Z.to_nat p = Some c).
Proof.
  apply (keys_and_bytes_are_kept default_max_keys 64 3
           default_max_keys_u32 log_size_64_u32 [CallDelete 0]
           scenario2 deleted_once).
  - exact scenario2_reachable.
  - vm_compute. reflexivity.
Defined.

(** The marker 14 of key 0 after a following [append("orange")]. *)
Lemma markers_are_kept_witness :
  deleted_ deleted_once_appended !! 0 = Some 14.
Proof.
  apply (markers_are_kept default_max_keys 64 3
           default_max_keys_u32 log_size_64_u32
           [CallAppend 0 (bytes_of "orange")]
           deleted_once deleted_once_appended 0 14).
  - exact deleted_once_reachable.
  - exact deleted_once_appended_run.
  - vm_compute. reflexivity.
  - discriminate.
Defined.

(** The postings of ["ana"] before and after the appends of scenario 2. *)
Lemma postings_only_grow_witness :
  Ngram.get_offsets (index_log_ (zeroed 64)) (bytes_of "ana")
  `prefix_of` Ngram.get_offsets (index_log_ scenario2) (bytes_of "ana").
Proof.
  apply (postings_only_grow default_max_keys 64 3
           default_max_keys_u32 log_size_64_u32
           (appends [bytes_of "banana"; bytes_of "bandana"])
           (zeroed 64) scenario2 (bytes_of "ana")).
  - exact zeroed_reachable.
  - exact scenario2_run.
Defined.

(** [get(0)] after [delete_record(0)] and [append("orange")]. *)
Lemma deleted_key_stays_missing_witness :
  get 0 deleted_once_appended = Done None.
Proof.
  apply (deleted_key_stays_missing default_max_keys 64 3
           default_max_keys_u32 log_size_64_u32 0
           [CallAppend 0 (bytes_of "orange")]
           scenario2 deleted_once deleted_once_appended).
  - exact scenario2_reachable.
  - vm_compute. reflexivity.
  - exact deleted_once_delete.
  - exact deleted_once_appended_run.
Defined.

(** A second [delete_record(0)], after [append("orange")]. *)
Lemma delete_record_wins_once_witness :
  match delete_record 64 0 deleted_once_appended with
  | Ret b _ => b = false
  | Throw _ => True
  | Crashed _ | TimedOut _ => False
  end.
Proof.
  apply (delete_record_wins_once default_max_keys 64 3
           default_max_keys_u32 log_size_64_u32 0
           [CallAppend 0 (bytes_of "orange")]
           scenario2 deleted_once deleted_once_appended).
  - exact scenario2_reachable.
  - exact deleted_once_delete.
  - exact deleted_once_appended_run.
Defined.

(** [get(1)] on the store of scenario 2. *)
Lemma get_reads_committed_bytes_witness :
  (get_num_keys scenario2 ≤ 1 ∧ get 1 scenario2 = Done None)
  ∨ (1 < get_num_keys scenario2
     ∧ ∃ start end_ d,
         value_offsets_ scenario2 !! 1 = Some start
         ∧ deleted_ scenario2 !! 1 = Some d
         ∧ (1 + 1 < get_num_keys scenario2 →
            value_offsets_ scenario2 !! (1 + 1) = Some end_)
         ∧ (get_num_keys scenario2 ≤ 1 + 1 → end_ = get_size scenario2)
         ∧ 0 ≤ start ≤ end_ ∧ end_ ≤ get_size scenario2
         ∧ ((d ≠ 0 ∧ d ≤ get_size scenario2 ∧ get 1 scenario2 = Done None)
            ∨ ((d = 0 ∨ get_size scenario2 < d)
               ∧ ∃ v, get 1 scenario2 = Done (Some v)
                      ∧ v `prefix_of`
                          take (Z.to_nat (end_ - start))
                               (drop (Z.to_nat start) (data_log_ scenario2))
                      ∧ (0 ∉ v)
                      ∧ (v = take (Z.to_nat (end_ - start))
                               (drop (Z.to_nat start) (data_log_ scenario2))
                         ∨ take (Z.to_nat (end_ - start))
                                (drop (Z.to_nat start) (data_log_ scenario2))
                             !! length v = Some 0)))).
Proof.
  apply (get_reads_committed_bytes default_max_keys 64 3
           default_max_keys_u32 log_size_64_u32 1 scenario2).
  - exact scenario2_reachable.
  - vm_compute. reflexivity.
  - lia.
Defined.

(** Key 1 in the result of [search("ana")] on the store of scenario 2. *)
Lemma search_returns_live_keys_witness :
  1 ∈ (∅ : gset Z)
  ∨ (0 ≤ 1 < get_num_keys scenario2
     ∧ ∃ d, deleted_ scenario2 !! 1 = Some d
            ∧ (d = 0 ∨ get_size scenario2 < d)).
Proof.
  apply (search_returns_live_keys default_max_keys 64 3
           default_max_keys_u32 log_size_64_u32 ∅ (bytes_of "ana")
           scenario2 ({[1]} ∪ ({[0]} ∪ ∅)) 1).
  - exact scenario2_reachable.
  - vm_compute. reflexivity.
  - apply elem_of_union. left. by apply elem_of_singleton.
Defined.

(** [search("ana")] after [delete_record(0)] and [append("orange")]. *)
Lemma deleted_key_stays_out_of_search_witness :
  0 ∉ ({[1]} ∪ ∅ : gset Z).
Proof.
  apply (deleted_key_stays_out_of_search default_max_keys 64 3
           default_max_keys_u32 log_size_64_u32 0
           [CallAppend 0 (bytes_of "orange")]
           scenario2 deleted_once deleted_once_appended
           ∅ (bytes_of "ana") ({[1]} ∪ ∅)).
  - exact scenario2_reachable.
  - vm_compute. reflexivity.
  - exact deleted_once_delete.
  - exact deleted_once_appended_run.
  - vm_compute. reflexivity.
  - apply not_elem_of_empty.
Defined.

(** [append("orange")] on the store of scenario 2. *)
Lemma append_returns_when_room_witness :
  ∃ s',
    append default_max_keys 64 3 0 (bytes_of "orange") scenario2 = Ret 0 s'
    ∧ get_num_keys s' = get_num_keys scenario2 + 1
    ∧ get_size s'
      = get_size scenario2 + Z.of_nat (length (bytes_of "orange"))
    ∧ value_offsets_ s' !! get_num_keys scenario2
      = Some (tail_off (write_tail_ scenario2))
    ∧ deleted_ s' !! get_num_keys scenario2 = Some 0
    ∧ take (length (bytes_of "orange"))
           (drop (Z.to_nat (tail_off (write_tail_ scenario2)))
                 (data_log_ s'))
      = bytes_of "orange".
Proof.
  apply (append_returns_when_room default_max_keys 64 3
           default_max_keys_u32 log_size_64_u32 0 (bytes_of "orange")
           scenario2).
  - exact scenario2_reachable.
  - vm_compute. reflexivity.
  - vm_compute. reflexivity.
  - vm_compute. split; discriminate.
Defined.

(** The postings of ["ana"] after [append("banana")] on the store of
    scenario 2. *)
Lemma append_publishes_grams_witness :
  ∃ s',
    append default_max_keys 64 3 0 (bytes_of "banana") scenario2 = Ret 0 s'
    ∧ Ngram.get_offsets (index_log_ s') (bytes_of "ana")
      = Ngram.get_offsets (index_log_ scenario2) (bytes_of "ana")
        ++ filter (λ j, take (Z.to_nat 3)
                             (drop (Z.to_nat j) (data_log_ s'))
                        = bytes_of "ana")
                  (seqZ (tail_off (write_tail_ scenario2))
                        (Z.of_nat (length (bytes_of "banana")) - 3 + 1)).
Proof.
  apply (append_publishes_grams default_max_keys 64 3
           default_max_keys_u32 log_size_64_u32 0 (bytes_of "banana")
           scenario2 (bytes_of "ana")).
  - exact scenario2_reachable.
  - vm_compute. reflexivity.
  - vm_compute. reflexivity.
  - vm_compute. split; discriminate.
Defined.

(** [append("klmnop")] on a 16-byte log that holds ["abcdefghij"]. *)
Lemma append_throws_when_full_witness :
  ((∃ s', append default_max_keys 16 3 0 (bytes_of "klmnop") (boundary1 16)
          = Throw s')
   ↔ default_max_keys ≤ get_num_keys (boundary1 16)
     ∨ 16 ≤ tail_off (write_tail_ (boundary1 16))
            + Z.of_nat (length (bytes_of "klmnop")))
  ∧ ∀ s', append default_max_keys 16 3 0 (bytes_of "klmnop") (boundary1 16)
          = Throw s' →
      get_num_keys s' = get_num_keys (boundary1 16)
      ∧ get_size s' = get_size (boundary1 16)
      ∧ (∀ i, get i s' = get i (boundary1 16))
      ∧ (∀ results query,
           search 3 results query s' = search 3 results query (boundary1 16)).
Proof.
  apply (append_throws_when_full default_max_keys 16 3
           default_max_keys_u32 log_size_16_u32 0 (bytes_of "klmnop")
           (boundary1 16)).
  - exact boundary1_reachable.
  - vm_compute. reflexivity.
Defined.

(** The appends of scenario 2. *)
Lemma appends_fill_the_log_witness :
  get_num_keys scenario2
  = Z.of_nat (length [bytes_of "banana"; bytes_of "bandana"])
  ∧ get_size scenario2
    = Z.of_nat (length (concat [bytes_of "banana"; bytes_of "bandana"]))
  ∧ get_gap scenario2 = 0
  ∧ take (length (concat [bytes_of "banana"; bytes_of "bandana"]))
         (data_log_ scenario2)
    = concat [bytes_of "banana"; bytes_of "bandana"]
  ∧ ∀ i, (i < length [bytes_of "banana"; bytes_of "bandana"])%nat →
      value_offsets_ scenario2 !! Z.of_nat i
      = Some (Z.of_nat (length (concat (take i [bytes_of "banana";
                                                bytes_of "bandana"])))).
Proof.
  apply (appends_fill_the_log default_max_keys 64 3 (replicate 64 0)
           [bytes_of "banana"; bytes_of "bandana"] scenario2
           default_max_keys_u32 log_size_64_u32).
  - reflexivity.
  - repeat constructor.
  - exact scenario2_run.
Defined.

(** [get(2)] after the four calls of [example_updates]: 10 and 5 on chain
    0, 7 on chain 1. *)
Lemma aggregate_get_folds_witness :
  Aggregate.get example_aggregate 2
  = fold_left (λ val tid, Aggregate.comb_op Aggregate.sum_aggregator val
                 (thread_aggregate Aggregate.sum_aggregator example_updates
                    tid 2))
      (seq 0 2) (Aggregate.zero Aggregate.sum_aggregator).
Proof.
  apply (aggregate_get_folds 2 Aggregate.sum_aggregator example_updates
           example_aggregate 2).
  - repeat constructor.
  - repeat constructor; cbn; lia.
  - vm_compute. reflexivity.
Defined.

(** A chain of the sum aggregator with the versions 2 and 1, read at
    version 1. *)
Lemma list_get_greatest_witness :
  let l := Aggregate.AggregateList
             [Aggregate.AggregateNode 15 2; Aggregate.AggregateNode 10 1]
             Aggregate.sum_aggregator in
  (∃ n, n ∈ Aggregate.head_ l
        ∧ Aggregate.version_ n ≤ 1
        ∧ (∀ m, m ∈ Aggregate.head_ l → Aggregate.version_ m ≤ 1 →
                Aggregate.version_ m ≤ Aggregate.version_ n)
        ∧ Aggregate.list_get l 1 = Aggregate.value_ n)
  ∨ ((∀ m, m ∈ Aggregate.head_ l → 1 < Aggregate.version_ m)
     ∧ Aggregate.list_get l 1 = Aggregate.zero (Aggregate.agg_ l)).
Proof.
  apply (list_get_greatest
           (Aggregate.AggregateList
              [Aggregate.AggregateNode 15 2; Aggregate.AggregateNode 10 1]
              Aggregate.sum_aggregator) 1).
  repeat constructor.
Defined.

(** The posting 10 of ["ana"] in the store of scenario 2. *)
Lemma postings_point_at_grams_witness :
  0 ≤ 10 ∧ 10 + 3 ≤ tail_off (write_tail_ scenario2)
  ∧ take (Z.to_nat 3) (drop (Z.to_nat 10) (data_log_ scenario2))
    = bytes_of "ana".
Proof.
  apply (postings_point_at_grams default_max_keys 64 3
           default_max_keys_u32 log_size_64_u32 ltac:(lia)
           scenario2 (bytes_of "ana") 10).
  - exact scenario2_reachable.
  - vm_compute. repeat constructor.
Defined.

(** The postings of ["ana"] in the store of scenario 2. *)
Lemma postings_increase_witness :
  StronglySorted Z.lt
    (Ngram.get_offsets (index_log_ scenario2) (bytes_of "ana")).
Proof.
  apply (postings_increase default_max_keys 64 3
           default_max_keys_u32 log_size_64_u32 ltac:(lia)
           scenario2 (bytes_of "ana")).
  exact scenario2_reachable.
Defined.

(** [col_search("anan")] on the store of scenario 2. *)
Lemma col_search_as_search_witness :
  search 3 (list_to_set []) (bytes_of "anan") scenario2
  = match col_search 3 [] (bytes_of "anan") scenario2 with
    | Done l => Done (list_to_set l)
    | Fault => Fault
    | Timeout => Timeout
    end.
Proof.
  apply (col_search_as_search default_max_keys 64 3
           default_max_keys_u32 log_size_64_u32 ltac:(lia)
           [] (bytes_of "anan") scenario2).
  exact scenario2_reachable.
Defined.

(** Key 1 in the result of [search("ana")] on the store of scenario 2. *)
Lemma search_finds_occurrences_witness :
  ∃ off p a,
    0 ≤ off
    ∧ take (length (bytes_of "ana"))
           (drop (Z.to_nat off) (data_log_ scenario2)) = bytes_of "ana"
    ∧ (p = off ∨ p = off + Z.of_nat (length (bytes_of "ana")) - 3)
    ∧ p < get_size scenario2
    ∧ value_offsets_ scenario2 !! 1 = Some a ∧ a ≤ p
    ∧ ∀ i b, 1 < i < get_num_keys scenario2 →
             value_offsets_ scenario2 !! i = Some b → p < b.
Proof.
  apply (search_finds_occurrences default_max_keys 64 3
           default_max_keys_u32 log_size_64_u32 ltac:(lia)
           ∅ (bytes_of "ana") scenario2 ({[1]} ∪ ({[0]} ∪ ∅)) 1).
  - exact scenario2_reachable.
  - vm_compute. split; [discriminate|reflexivity].
  - apply (bool_decide_unpack _). vm_compute. exact I.
  - vm_compute. reflexivity.
  - apply elem_of_union. left. by apply elem_of_singleton.
  - apply not_elem_of_empty.
Defined.

(** [search("rang")] after [append("orange")] on the store of scenario 2
    with key 0 deleted. *)
Lemma search_finds_appended_value_witness :
  get_num_keys deleted_once ∈ ({[2]} ∪ ∅ : gset Z).
Proof.
  apply (search_finds_appended_value default_max_keys 64 3
           default_max_keys_u32 log_size_64_u32 ltac:(lia)
           0 (bytes_of "orange") deleted_once deleted_once_appended []
           deleted_once_appended
           (bytes_of "o") (bytes_of "rang") (bytes_of "e") ∅ ({[2]} ∪ ∅)).
  - exact deleted_once_reachable.
  - vm_compute. reflexivity.
  - vm_compute. reflexivity.
  - reflexivity.
  - vm_compute. reflexivity.
  - reflexivity.
  - vm_compute. discriminate.
  - vm_compute. reflexivity.
  - vm_compute. reflexivity.
Defined.

(** [get(2)] after [append("orange")] and [delete_record(1)], which claims
    the byte behind ["orange"]. *)
Lemma get_after_later_calls_witness :
  ∃ v, get (get_num_keys deleted_once) deleted_both = Done (Some v)
       ∧ bytes_of "orange" `prefix_of` v
       ∧ (data_log_ deleted_once
            !! Z.to_nat (tail_off (write_tail_ deleted_once)
                         + Z.of_nat (length (bytes_of "orange"))) = Some 0 →
          v = bytes_of "orange").
Proof.
  apply (get_after_later_calls default_max_keys 64 3
           default_max_keys_u32 log_size_64_u32
           0 (bytes_of "orange") deleted_once deleted_once_appended
           [CallDelete 1] deleted_both).
  - exact deleted_once_reachable.
  - vm_compute. reflexivity.
  - vm_compute. reflexivity.
  - vm_compute. reflexivity.
  - vm_compute. reflexivity.
  - apply (bool_decide_unpack _). vm_compute. exact I.
  - vm_compute. reflexivity.
Defined.

(** The appends of scenario 2 to a zeroed log. *)
Lemma fresh_bytes_stay_zero_witness :
  Forall (λ c, c = 0)
         (drop (Z.to_nat (tail_off (write_tail_ scenario2)))
               (data_log_ scenario2)).
Proof.
  apply (fresh_bytes_stay_zero default_max_keys 64 3
           default_max_keys_u32 log_size_64_u32
           (appends [bytes_of "banana"; bytes_of "bandana"])
           (zeroed 64) scenario2).
  - exact zeroed_reachable.
  - exact scenario2_run.
  - vm_compute. repeat constructor.
Defined.
